(** * NCE: activation engine and memory subsystem

    A shallow embedding of [nce/brain.py], [nce/memory.py] and
    [nce/engine.py], with the properties of spreading activation, response
    selection and the two memory stores proved about it.

    Python's [float] is IEEE-754 binary64 and is modelled by Rocq's primitive
    floats, so that [+], [*], [/], [abs] and the comparisons round and
    compare exactly as they do in the interpreter.  Insertion-ordered
    dictionaries are association lists, [set] objects are [gset]s, and [int]
    is [Z]. *)

From Stdlib Require Import ZArith List String Bool Lia Floats Permutation Sorted.
From stdpp Require Import gmap strings.
Import ListNotations.

Set Warnings "-inexact-float".
Open Scope string_scope.
Open Scope list_scope.

(** ** Python primitives *)

Module Py.

Open Scope float_scope.

(** [min(a, b)]: the first argument is kept unless the second one is
    strictly smaller. *)
Definition min (a b : float) : float := if b <? a then b else a.

(** [max(a, b)]: the first argument is kept unless the second one is
    strictly greater. *)
Definition max (a b : float) : float := if a <? b then b else a.

(** [x ** n] for a float base and a non-negative [int] exponent, as a
    product.  The interpreter answers [1.0] at exponent 0 and [x] at
    exponent 1, as this product does, and [0.8 ** 2] is this product too;
    elsewhere the interpreter's power is the C library's, which may differ
    from the product in the last bit, and it raises [OverflowError] where it
    is too large for a float.  The runs through this product below stay at
    exponents 0 and 1 and at [decay = 0.8] with at most three steps; what
    holds for every decay and step count is stated over [Raising], which
    takes the power from the interpreter. *)
Fixpoint pow (x : float) (n : nat) : float :=
  match n with
  | O => 1.0
  | S n' => x * pow x n'
  end.

(** Conversion of an [int] to [float]: round to nearest even, and
    [OverflowError] ([None]) when the rounded value is not finite. *)
Definition int_to_float (z : Z) : option float :=
  let f := SF2Prim (binary_normalize prec emax z 0 false) in
  if is_infinity f then None else Some f.

(** [len(a) / len(b)]: both lengths are far below 2^53, where the true
    division of two [int]s is the division of their exact conversions. *)
Definition len_div (a b : nat) : float :=
  SF2Prim (binary_normalize prec emax (Z.of_nat a) 0 false)
  / SF2Prim (binary_normalize prec emax (Z.of_nat b) 0 false).

(** [sum(xs)] over floats, added from left to right: the accumulator starts
    at the integer 0, which is converted to [0.0] by the first addition.
    (CPython 3.12 and later also carry a compensation term through the
    additions; the two sums agree on at most one element, and nothing proved
    below depends on how a longer sum is rounded.) *)
Definition sum (xs : list float) : float := fold_left add xs 0.0.

(** [l[start:]] *)
Definition slice_from {A} (start : Z) (l : list A) : list A :=
  let len := Z.of_nat (length l) in
  let i := if (start <? 0)%Z then Z.max 0 (start + len) else Z.min start len in
  skipn (Z.to_nat i) l.

(** [l[:stop]] *)
Definition slice_to {A} (stop : Z) (l : list A) : list A :=
  let len := Z.of_nat (length l) in
  let i := if (stop <? 0)%Z then Z.max 0 (stop + len) else Z.min stop len in
  firstn (Z.to_nat i) l.

(** Insertion-ordered [dict]: [d.get(k)], [d[k] = v], [d.values()]. *)
Section Dict.
Context {V : Type}.

Fixpoint get (d : list (string * V)) (k : string) : option V :=
  match d with
  | [] => None
  | (k', v) :: d' => if String.eqb k' k then Some v else get d' k
  end.

Fixpoint set (d : list (string * V)) (k : string) (v : V) : list (string * V) :=
  match d with
  | [] => [(k, v)]
  | (k', v') :: d' =>
      if String.eqb k' k then (k', v) :: d' else (k', v') :: set d' k v
  end.

Definition values (d : list (string * V)) : list V := map snd d.

Definition setdefault (d : list (string * V)) (k : string) (v : V) : list (string * V) :=
  match get d k with
  | Some _ => d
  | None => set d k v
  end.
End Dict.

(** [list.sort(reverse=True)] under an ordering [lt]: a stable sort into
    descending order, elements that do not compare keep their relative
    position. *)
Section Sort.
Context {A : Type} (lt : A -> A -> bool).

Fixpoint insert_desc (x : A) (l : list A) : list A :=
  match l with
  | [] => [x]
  | y :: l' => if lt x y then y :: insert_desc x l' else x :: y :: l'
  end.

Definition sort_desc (l : list A) : list A := fold_right insert_desc [] l.
End Sort.

End Py.

(** ** Comparison of floats through their specification *)

Module Cmp.

(** The order of two finite binary64 numbers of the same sign: by exponent,
    then by mantissa. *)
Definition lex (e1 : Z) (m1 : positive) (e2 : Z) (m2 : positive) : comparison :=
  match (e1 ?= e2)%Z with
  | Lt => Lt
  | Gt => Gt
  | Eq => Pos.compare_cont Eq m1 m2
  end.

(** [None] when one of the two is a NaN. *)
Definition fcmp (x y : float) : option comparison :=
  SFcompare (Prim2SF x) (Prim2SF y).

(** Zero of either sign, a positive finite number or plus infinity. *)
Definition nonneg_sf (s : spec_float) : Prop :=
  match s with
  | S754_zero _ => True
  | S754_infinity false => True
  | S754_finite false _ _ => True
  | _ => False
  end.

End Cmp.

(** ** The graph ([nce/brain.py]) *)

Module Brain.

Open Scope float_scope.

Record Node := {
  id : string;
  type : string;
  label : string;
  base_activation : float;
  activation : float
}.

Record Edge := {
  source : string;
  target : string;
  weight : float;
  edge_type : string
}.

Record ResponseRule := {
  rule_id : string;
  trigger_concepts : list string;
  intent : string;
  priority : Z
}.

Record BrainGraph := {
  nodes : list (string * Node);
  edges : list Edge;
  adjacency : list (string * list Edge);
  responses : list ResponseRule
}.

Definition empty_graph : BrainGraph :=
  {| nodes := []; edges := []; adjacency := []; responses := [] |}.

(** [node.activation = v] *)
Definition with_activation (n : Node) (v : float) : Node :=
  {| id := id n; type := type n; label := label n;
     base_activation := base_activation n; activation := v |}.

Definition with_nodes (g : BrainGraph) (ns : list (string * Node)) : BrainGraph :=
  {| nodes := ns; edges := edges g; adjacency := adjacency g;
     responses := responses g |}.

Definition get_node (g : BrainGraph) (node_id : string) : option Node :=
  Py.get (nodes g) node_id.

Definition get_edges_from (g : BrainGraph) (node_id : string) : list Edge :=
  match Py.get (adjacency g) node_id with
  | Some es => es
  | None => []
  end.

Definition get_neighbors (g : BrainGraph) (node_id : string) : list string :=
  map target (get_edges_from g node_id).

Definition add_node (g : BrainGraph) (node : Node) : BrainGraph :=
  {| nodes := Py.set (nodes g) (id node) node;
     edges := edges g;
     adjacency := Py.setdefault (adjacency g) (id node) [];
     responses := responses g |}.

Definition add_edge (g : BrainGraph) (edge : Edge) : BrainGraph :=
  let adj := Py.setdefault (adjacency g) (source edge) [] in
  let bucket := match Py.get adj (source edge) with
                | Some es => es
                | None => []
                end in
  {| nodes := nodes g;
     edges := edges g ++ [edge];
     adjacency := Py.set adj (source edge) (bucket ++ [edge]);
     responses := responses g |}.

Definition add_response (g : BrainGraph) (rule : ResponseRule) : BrainGraph :=
  {| nodes := nodes g; edges := edges g; adjacency := adjacency g;
     responses := responses g ++ [rule] |}.

Definition reset_activations (g : BrainGraph) : BrainGraph :=
  with_nodes g
    (map (fun kn => (fst kn, with_activation (snd kn) (base_activation (snd kn))))
         (nodes g)).

End Brain.

(** ** The memory stores ([nce/memory.py]) *)

Module Memory.

Open Scope float_scope.

Record STMEntry := {
  turn_number : Z;
  input_text : string;
  active_concepts : list string;
  response_text : string
}.

(** [deque(maxlen=capacity)] *)
Record ShortTermMemory := {
  capacity : nat;
  buffer : list STMEntry
}.

Definition new_stm (capacity : nat) : ShortTermMemory :=
  {| capacity := capacity; buffer := [] |}.

Definition add_turn (m : ShortTermMemory) (turn_number : Z) (input_text : string)
    (active_concepts : list string) (response_text : string) : ShortTermMemory :=
  let e := {| turn_number := turn_number; input_text := input_text;
              active_concepts := active_concepts;
              response_text := response_text |} in
  let b := buffer m ++ [e] in
  {| capacity := capacity m;
     buffer := if (capacity m <? length b)%nat then tl b else b |}.

(** [items[-n:]] *)
Definition get_recent (m : ShortTermMemory) (n : Z) : list STMEntry :=
  Py.slice_from (- n) (buffer m).

Definition get_primed_concepts (m : ShortTermMemory) : gset string :=
  fold_left (fun primed entry => primed ∪ list_to_set (active_concepts entry))
            (buffer m) ∅.

Record Episode := {
  turn : Z;
  context_concepts : gset string;
  outcome_concepts : gset string;
  reinforcement : float
}.

Record EpisodicMemory := {
  max_episodes : Z;
  episodes : list Episode
}.

Definition new_episodic (max_episodes : Z) : EpisodicMemory :=
  {| max_episodes := max_episodes; episodes := [] |}.

(** [None] is the [IndexError] of [pop(0)] on an empty list, which only a
    store built with a capacity below 1 can raise. *)
Definition store_episode (m : EpisodicMemory) (turn : Z)
    (context_concepts outcome_concepts : gset string) (reinforcement : float)
    : option EpisodicMemory :=
  let e := {| turn := turn; context_concepts := context_concepts;
              outcome_concepts := outcome_concepts;
              reinforcement := reinforcement |} in
  if (max_episodes m <=? Z.of_nat (length (episodes m)))%Z then
    match episodes m with
    | [] => None
    | _ :: rest => Some {| max_episodes := max_episodes m; episodes := rest ++ [e] |}
    end
  else Some {| max_episodes := max_episodes m; episodes := episodes m ++ [e] |}.

Definition jaccard (current_concepts : gset string) (ep : Episode) : float :=
  let intersection := current_concepts ∩ context_concepts ep in
  let union := current_concepts ∪ context_concepts ep in
  if bool_decide (union = ∅) then 0.0
  else Py.len_div (size intersection) (size union).

(** The sort key [t[0]] of a scored pair. *)
Definition key_lt (a b : float * Episode) : bool := fst a <? fst b.

(** The method only reads the store; the memory is threaded through the
    call so that its state after the call can be compared with the one
    before. *)
Definition recall_similar (m : EpisodicMemory) (current_concepts : gset string)
    (top_k : Z) : list Episode * EpisodicMemory :=
  if bool_decide (current_concepts = ∅) || bool_decide (episodes m = []) then ([], m)
  else
    let scored := map (fun ep => (jaccard current_concepts ep, ep)) (episodes m) in
    let scored := Py.sort_desc key_lt scored in
    (map snd (Py.slice_to top_k scored), m).

End Memory.

(** ** The activation engine ([nce/engine.py]) *)

Module Engine.

Import Brain Memory.
Open Scope float_scope.

Definition ACTIVATION_THRESHOLD : float := 0.05.

(** The counters of [utils.Profiler]; its wall-clock stage timers are not
    modelled. *)
Record Profiler := {
  activated_nodes : nat;
  traversed_edges : nat;
  steps_executed : nat
}.

(** The fields of [utils.ThoughtTrace] that the engine assigns.  The two
    append-only logs filled by [record_node] and [record_edge] are never
    read back by the engine and are not modelled. *)
Record ThoughtTrace := {
  final_concepts : list string;
  response_intent : string
}.

Definition new_trace : ThoughtTrace :=
  {| final_concepts := []; response_intent := "" |}.

(** The state of [NCEEngine] that stages 3 to 6 read or write. *)
Record NCEEngine := {
  graph : BrainGraph;
  stm : ShortTermMemory;
  episodic : EpisodicMemory;
  profiler : Profiler;
  modulators : list (string * float)
}.

Definition new_engine (g : BrainGraph) (s : ShortTermMemory) (e : EpisodicMemory)
    : NCEEngine :=
  {| graph := g; stm := s; episodic := e;
     profiler := {| activated_nodes := 0; traversed_edges := 0; steps_executed := 0 |};
     modulators := [("curiosity", 1.0); ("urgency", 1.0)] |}.

Definition with_graph (eng : NCEEngine) (g : BrainGraph) : NCEEngine :=
  {| graph := g; stm := stm eng; episodic := episodic eng;
     profiler := profiler eng; modulators := modulators eng |}.

Definition with_profiler (eng : NCEEngine) (p : Profiler) : NCEEngine :=
  {| graph := graph eng; stm := stm eng; episodic := episodic eng;
     profiler := p; modulators := modulators eng |}.

(** [target.activation = v] for the node stored under [nid]. *)
Definition set_activation (g : BrainGraph) (nid : string) (n : Node) (v : float)
    : BrainGraph :=
  with_nodes g (Py.set (nodes g) nid (with_activation n v)).

(** *** Stage 3: seeding and priming *)

Definition seed (eng : NCEEngine) (cid : string) : NCEEngine :=
  match get_node (graph eng) cid with
  | Some node =>
      let p := profiler eng in
      with_profiler
        (with_graph eng (set_activation (graph eng) cid node 1.0))
        {| activated_nodes := S (activated_nodes p);
           traversed_edges := traversed_edges p;
           steps_executed := steps_executed p |}
  | None => eng
  end.

Definition prime (eng : NCEEngine) (pid : string) : NCEEngine :=
  match get_node (graph eng) pid with
  | Some node =>
      if activation node <? 1.0 then
        with_graph eng
          (set_activation (graph eng) pid node (Py.min 1.0 (activation node + 0.3)))
      else eng
  | None => eng
  end.

Definition inject_activation (eng : NCEEngine) (concept_ids : list string) : NCEEngine :=
  let eng := fold_left seed concept_ids eng in
  let primed := get_primed_concepts (stm eng) in
  fold_left prime (elements primed) eng.

(** *** Stage 4: spreading *)

Definition mod_factor (eng : NCEEngine) : float :=
  fold_left mul (Py.values (modulators eng)) 1.0.

(** The delta one edge contributes, lines 125-132. *)
Definition edge_delta (node : Node) (edge : Edge) (decay_factor mod_factor : float)
    : float :=
  let delta :=
    if String.eqb (edge_type edge) "excitatory" then
      activation node * weight edge * decay_factor
    else
      - (activation node * abs (weight edge) * 0.5) in
  delta * mod_factor.

Definition Updates := list (string * float).

(** The body of the loop over the outgoing edges of [node]. *)
Definition fire_edge (decay_factor mf : float) (node : Node)
    (st : NCEEngine * Updates) (edge : Edge) : NCEEngine * Updates :=
  let (eng, updates) := st in
  match get_node (graph eng) (target edge) with
  | None => st
  | Some _ =>
      let p := profiler eng in
      let eng := with_profiler eng
        {| activated_nodes := activated_nodes p;
           traversed_edges := S (traversed_edges p);
           steps_executed := steps_executed p |} in
      let delta := edge_delta node edge decay_factor mf in
      let old := match Py.get updates (target edge) with
                 | Some d => d
                 | None => 0.0
                 end in
      (eng, Py.set updates (target edge) (old + delta))
  end.

(** The body of the loop over [self.graph.nodes.values()]. *)
Definition scan_node (decay_factor mf : float)
    (st : NCEEngine * Updates) (node : Node) : NCEEngine * Updates :=
  if activation node <=? ACTIVATION_THRESHOLD then st
  else fold_left (fire_edge decay_factor mf node)
                 (get_edges_from (graph (fst st)) (id node)) st.

(** The emission scan of one step: every node above the threshold fires
    its outgoing edges into a fresh update map. *)
Definition scan (decay_factor mf : float) (eng : NCEEngine) : NCEEngine * Updates :=
  fold_left (scan_node decay_factor mf) (Py.values (nodes (graph eng))) (eng, []).

Definition clamp (v : float) : float := Py.max 0.0 (Py.min 1.0 v).

Definition apply_update (eng : NCEEngine) (u : string * float) : NCEEngine :=
  let (nid, delta) := u in
  match get_node (graph eng) nid with
  | Some target =>
      with_graph eng
        (set_activation (graph eng) nid target (clamp (activation target + delta)))
  | None => eng
  end.

Definition apply_updates (eng : NCEEngine) (updates : Updates) : NCEEngine :=
  fold_left apply_update updates eng.

(** One iteration of [for step in range(steps)], given the modulator
    product computed before the loop. *)
Definition spread_step (mf decay : float) (eng : NCEEngine) (step : nat) : NCEEngine :=
  let decay_factor := Py.pow decay step in
  let (eng, updates) := scan decay_factor mf eng in
  let eng := apply_updates eng updates in
  let p := profiler eng in
  with_profiler eng
    {| activated_nodes := activated_nodes p;
       traversed_edges := traversed_edges p;
       steps_executed := S (steps_executed p) |}.

Definition spread_activation (eng : NCEEngine) (steps : nat) (decay : float)
    : NCEEngine :=
  let mf := mod_factor eng in
  fold_left (spread_step mf decay) (seq 0 steps) eng.

(** The part of [run_turn] that computes activations (lines 203, 204, 215
    and 218), for concept ids already recognised; [run_turn] itself always
    passes [steps=3] and [decay=0.8]. *)
Definition activate (eng : NCEEngine) (concept_ids : list string) (steps : nat)
    (decay : float) : NCEEngine :=
  let eng := with_profiler eng
    {| activated_nodes := 0; traversed_edges := 0; steps_executed := 0 |} in
  let eng := with_graph eng (reset_activations (graph eng)) in
  let eng := inject_activation eng concept_ids in
  spread_activation eng steps decay.

(** *** Stage 5: response selection *)

Definition fallback_rule : ResponseRule :=
  {| rule_id := "r_fallback"; trigger_concepts := []; intent := "unknown";
     priority := 0 |}.

(** Lines 153-158.  [None] is the [OverflowError] of converting a
    priority too large for a float. *)
Definition rule_score (g : BrainGraph) (rule : ResponseRule) : option float :=
  let score :=
    Py.sum (map (fun c => match get_node g c with
                          | Some n => activation n
                          | None => 0.0
                          end)
                (trigger_concepts rule)) in
  match Py.int_to_float (priority rule) with
  | Some p => Some (score + p * 0.01)
  | None => None
  end.

(** The loop state: [(best_score, best_rule)]. *)
Definition Best := (float * option ResponseRule)%type.

Definition consider (g : BrainGraph) (st : option Best) (rule : ResponseRule)
    : option Best :=
  match st with
  | None => None
  | Some (best_score, best_rule) =>
      match rule_score g rule with
      | None => None
      | Some score =>
          if best_score <? score then Some (score, Some rule)
          else Some (best_score, best_rule)
      end
  end.

Definition best_of (g : BrainGraph) (rules : list ResponseRule) : option Best :=
  fold_left (consider g) rules (Some (-1.0, None)).

Definition choose (b : Best) : ResponseRule :=
  match snd b with
  | None => fallback_rule
  | Some rule => if fst b <? ACTIVATION_THRESHOLD then fallback_rule else rule
  end.

Definition select_response (eng : NCEEngine) (trace : ThoughtTrace)
    : option (ResponseRule * ThoughtTrace) :=
  match best_of (graph eng) (responses (graph eng)) with
  | None => None
  | Some b =>
      let best_rule := choose b in
      Some (best_rule,
            {| final_concepts := final_concepts trace;
               response_intent := intent best_rule |})
  end.

(** *** Stage 6: the concept list handed to the realizer *)

(** [<] on the [(activation, id)] tuples. *)
Definition tuple_lt (a b : float * string) : bool :=
  if fst a =? fst b then String.ltb (snd a) (snd b) else fst a <? fst b.

(** Lines 176-182 of [plan_response]. *)
Definition active_ids (eng : NCEEngine) : list string :=
  let active :=
    map (fun n => (activation n, id n))
        (List.filter (fun n => ACTIVATION_THRESHOLD <? activation n)
                (Py.values (nodes (graph eng)))) in
  map snd (Py.sort_desc tuple_lt active).

End Engine.

(** ** Predicates used in the statements *)

Module Spec.

Import Brain Memory Engine.
Open Scope float_scope.

(** [0 <= v <= 1] *)
Definition in01 (v : float) : bool := (0.0 <=? v) && (v <=? 1.0).

Definition all_in01 (g : BrainGraph) : Prop :=
  Forall (fun kn => in01 (activation (snd kn)) = true) (nodes g).

Definition base_in01 (g : BrainGraph) : Prop :=
  Forall (fun kn => in01 (base_activation (snd kn)) = true) (nodes g).


(** [|x - y| <= tol] *)
Definition within (tol x y : float) : bool := abs (x - y) <=? tol.

Definition activation_of (eng : NCEEngine) (nid : string) : option float :=
  option_map activation (get_node (graph eng) nid).

(** No priority overflows the float range: scoring raises nothing. *)
Definition scores_defined (g : BrainGraph) : Prop :=
  forall r, In r (responses g) -> rule_score g r <> None.

(** What the scoring loop knows after the rules [seen]. *)
Record scanned (g : BrainGraph) (seen : list ResponseRule) (st : Best) : Prop := {
  best_is_max :
    forall r s, In r seen -> rule_score g r = Some s -> (fst st <? s) = false;
  best_none : snd st = None -> fst st = -1.0;
  best_some :
    forall r, snd st = Some r ->
    (-1.0 <? fst st) = true /\
    exists j, nth_error seen j = Some r /\ rule_score g r = Some (fst st) /\
      forall i ri si, (i < j)%nat -> nth_error seen i = Some ri ->
                      rule_score g ri = Some si -> (si =? fst st) = false
}.

(** Descending order of the [(activation, id)] tuples: the earlier tuple has
    the larger activation, or the same activation and an id that is not
    smaller. *)
Definition tuple_desc (a b : float * string) : Prop :=
  (fst b <? fst a) = true \/
  ((fst a =? fst b) = true /\ String.leb (snd b) (snd a) = true).

(** A ranking never places a strictly smaller similarity directly before a
    larger one. *)
Definition never_ascends (q : gset string) (a b : Episode) : Prop :=
  (jaccard q a <? jaccard q b) = false.

(** A ranking in which every earlier episode is at least as similar as
    every later one. *)
Definition descends (q : gset string) (a b : Episode) : Prop :=
  (jaccard q b <=? jaccard q a) = true.

(** Every stored context, joined with the query, has fewer than 2^53
    elements: the two lengths that [jaccard] divides convert to floats
    without rounding. *)
Definition small_sets (q : gset string) (m : EpisodicMemory) : Prop :=
  forall ep, In ep (episodes m) ->
             (Z.of_nat (size (q ∪ context_concepts ep)) < 2 ^ 53)%Z.

End Spec.

(** ** Concrete graphs and stores *)

Module Scenario.

Import Brain Memory Engine Spec.
Open Scope float_scope.

Definition concept (i : string) (base : float) : Node :=
  {| id := i; type := "concept"; label := i;
     base_activation := base; activation := base |}.

Definition excitatory (s t : string) (w : float) : Edge :=
  {| source := s; target := t; weight := w; edge_type := "excitatory" |}.

Definition inhibitory (s t : string) (w : float) : Edge :=
  {| source := s; target := t; weight := w; edge_type := "inhibitory" |}.

Definition engine_of (g : BrainGraph) : NCEEngine :=
  new_engine g (new_stm 5) (new_episodic 100).

(** hello -> greeting, excitatory, weight 0.9 *)
Definition hello_graph : BrainGraph :=
  add_edge
    (add_node (add_node empty_graph (concept "hello" 0.0)) (concept "greeting" 0.0))
    (excitatory "hello" "greeting" 0.9).

(** hello -> greeting, excitatory, with a negative stored weight; greeting
    rests at 0.5 *)
Definition negative_graph : BrainGraph :=
  add_edge
    (add_node (add_node empty_graph (concept "hello" 0.0)) (concept "greeting" 0.5))
    (excitatory "hello" "greeting" (-0.5)).

(** fear -> calm, inhibitory, weight 0.4 *)
Definition fear_graph : BrainGraph :=
  add_edge
    (add_node (add_node empty_graph (concept "fear" 0.0)) (concept "calm" 0.0))
    (inhibitory "fear" "calm" 0.4).

Definition fear_seeded : NCEEngine :=
  inject_activation (engine_of fear_graph) ["fear"].


Definition rule (i : string) (triggers : list string) (tag : string) (p : Z)
    : ResponseRule :=
  {| rule_id := i; trigger_concepts := triggers; intent := tag; priority := p |}.

(** [hello_graph] with a weaker rule and then two rules with the same
    trigger and priority. *)
Definition tie_graph : BrainGraph :=
  add_response
    (add_response
       (add_response hello_graph (rule "r_low" ["greeting"] "low" 0))
       (rule "r_first" ["hello"] "greet" 1))
    (rule "r_second" ["hello"] "welcome" 1).

Definition tie_engine : NCEEngine := activate (engine_of tie_graph) ["hello"] 3 0.8.

(** The same rules with nothing seeded: no score reaches the threshold. *)
Definition quiet_engine : NCEEngine := activate (engine_of tie_graph) [] 3 0.8.

(** Contexts {a,b,c} and then {a,b} stored into an empty memory. *)
Definition abc_then_ab : EpisodicMemory :=
  let m0 := new_episodic 100 in
  let m1 := default m0 (store_episode m0 1 {["a"; "b"; "c"]} ∅ 0.0) in
  default m1 (store_episode m1 2 {["a"; "b"]} ∅ 0.0).

Definition three_turns : ShortTermMemory :=
  add_turn (add_turn (add_turn (new_stm 5) 1 "hi" ["hello"] "Hello!")
                     2 "bye" ["farewell"] "Bye!")
           3 "thanks" ["thanks"] "Welcome!".

End Scenario.

(** ** Python text primitives *)

Module Text.

(** A [str] is modelled by its UTF-8 bytes.  Every pattern and every
    replaced substring below is ASCII, and each byte of a non-ASCII
    character is 128 or above: matching on bytes finds the occurrences that
    matching on code points finds, and comparing bytes orders strings as
    comparing code points does. *)

(** [s1 + s2] on strings. *)
Definition cat (s1 s2 : string) : string := String.append s1 s2.

(** [sub in s] *)
Fixpoint contains (sub s : string) : bool :=
  String.prefix sub s
  || match s with
     | EmptyString => false
     | String _ s' => contains sub s'
     end.

(** [s.replace(old, new)] for a non-empty [old], as at every call site:
    occurrences are replaced from the left and do not overlap.  [skip]
    counts the characters of a replaced occurrence still to pass over. *)
Fixpoint replace_from (old new : string) (skip : nat) (s : string) : string :=
  match s with
  | EmptyString => EmptyString
  | String c s' =>
      match skip with
      | S k => replace_from old new k s'
      | O =>
          if String.prefix old s
          then cat new (replace_from old new (String.length old - 1) s')
          else String c (replace_from old new 0 s')
      end
  end.

Definition replace (old new s : string) : string := replace_from old new 0 s.

(** The character class [[a-z0-9']]. *)
Definition token_char (c : Ascii.ascii) : bool :=
  let n := Ascii.nat_of_ascii c in
  ((97 <=? n)%nat && (n <=? 122)%nat)
  || ((48 <=? n)%nat && (n <=? 57)%nat)
  || (n =? 39)%nat.

Definition flush (cur : string) : list string :=
  match cur with
  | EmptyString => []
  | _ => [cur]
  end.

(** [re.compile(r"[a-z0-9']+").findall(s)]: the maximal runs of token
    characters, from left to right; [cur] is the run being read. *)
Fixpoint findall_from (cur : string) (s : string) : list string :=
  match s with
  | EmptyString => flush cur
  | String c s' =>
      if token_char c then findall_from (cat cur (String c EmptyString)) s'
      else flush cur ++ findall_from EmptyString s'
  end.

Definition findall (s : string) : list string := findall_from EmptyString s.

(** [sorted(l)] on strings: a stable sort into ascending order. *)
Fixpoint insert_asc (x : string) (l : list string) : list string :=
  match l with
  | [] => [x]
  | y :: l' => if String.ltb y x then y :: insert_asc x l' else x :: y :: l'
  end.

Definition sorted (l : list string) : list string := fold_right insert_asc [] l.

End Text.

(** ** Vocabulary and templates ([nce/nol.py]) *)

Module Nol.

Record ConceptEntry := {
  concept_id : string;
  synonyms : list string;
  category : string;
  sentiment : float
}.

Record NolData := {
  vocab : list (string * ConceptEntry);
  templates : list (string * list string)
}.

End Nol.

(** ** The realizer ([nce/realize.py]) *)

Module Realize.

Import Nol.

Definition FALLBACK : string := "I'm not sure what to say about that.".

(** [top.replace("c_", "").replace("_", " ")] *)
Definition stripped (top : string) : string :=
  Text.replace "_" " " (Text.replace "c_" "" top).

Definition best_label (active_concepts : list string)
    (concept_labels : option (list (string * string))) : string :=
  match active_concepts with
  | [] => "something"
  | top :: _ =>
      match concept_labels with
      | Some (entry :: entries) =>
          match Py.get (entry :: entries) top with
          | Some l => l
          | None => stripped top
          end
      | _ => stripped top
      end
  end.

Definition realize (intent : string) (active_concepts : list string) (nol : NolData)
    (concept_labels : option (list (string * string))) : string :=
  match Py.get (templates nol) intent with
  | Some (template :: _) =>
      if Text.contains "{concept}" template
      then Text.replace "{concept}" (best_label active_concepts concept_labels) template
      else template
  | _ => FALLBACK
  end.

End Realize.

(** ** The whole turn ([nce/engine.py], stages 1, 2, 6 and [run_turn]) *)

Module Turn.

Import Brain Memory Engine Nol.
Open Scope float_scope.

(** The engine with its vocabulary and its turn counter. *)
Record Session := {
  engine : NCEEngine;
  nol : NolData;
  turn_count : Z
}.

(** The dictionary [run_turn] returns; of [profiler.report()] only the
    counters are kept. *)
Record TurnResult := {
  response_text_of : string;
  thought_trace : ThoughtTrace;
  profiling_data : Profiler
}.

(** The loop state of [map_to_concepts]: [(concept_ids, seen)]. *)
Definition map_token (vocab : list (string * ConceptEntry))
    (st : list string * gset string) (token : string) : list string * gset string :=
  match Py.get vocab token with
  | Some entry =>
      if bool_decide (concept_id entry ∈ snd st) then st
      else (fst st ++ [concept_id entry], snd st ∪ {[concept_id entry]})
  | None => st
  end.

Definition map_to_concepts (nol : NolData) (tokens : list string) : list string :=
  fst (fold_left (map_token (vocab nol)) tokens ([], ∅)).

(** [{n.id: n.label for n in self.graph.nodes.values()}] *)
Definition label_map (g : BrainGraph) : list (string * string) :=
  fold_left (fun d n => Py.set d (id n) (label n)) (Py.values (nodes g)) [].

Definition plan_response (eng : NCEEngine) (nol : NolData) (rule : ResponseRule)
    : string * string :=
  let text := Realize.realize (intent rule) (active_ids eng) nol (Some (label_map (graph eng))) in
  (intent rule, text).

(** [[n.id for n in nodes.values() if n.activation > threshold]] *)
Definition above_threshold (g : BrainGraph) : list string :=
  map id (List.filter (fun n => ACTIVATION_THRESHOLD <? activation n)
                      (Py.values (nodes g))).

Section Lower.

(** [str.lower], which follows the Unicode case tables, is left to the
    interpreter. *)
Variable str_lower : string -> string.

Definition tokenize (input_text : string) : list string :=
  Text.findall (str_lower input_text).

(** [None] is an exception raised inside the turn: the [OverflowError] of
    scoring or the [IndexError] of the episode store. *)
Definition run_turn (s : Session) (input_text : string) : option (TurnResult * Session) :=
  let turn := (turn_count s + 1)%Z in
  let tokens := tokenize input_text in
  let concept_ids := map_to_concepts (nol s) tokens in
  let eng := activate (engine s) concept_ids 3 0.8 in
  match select_response eng new_trace with
  | None => None
  | Some (rule, trace) =>
      let (_, response_text) := plan_response eng (nol s) rule in
      let final_concepts := above_threshold (graph eng) in
      let trace := {| final_concepts := Text.sorted final_concepts;
                      response_intent := response_intent trace |} in
      let stm' := add_turn (stm eng) turn input_text concept_ids response_text in
      match store_episode (episodic eng) turn (list_to_set concept_ids)
                          (list_to_set final_concepts) 0.0 with
      | None => None
      | Some episodic' =>
          let eng' := {| graph := graph eng; stm := stm'; episodic := episodic';
                         profiler := profiler eng; modulators := modulators eng |} in
          Some ({| response_text_of := response_text; thought_trace := trace;
                   profiling_data := profiler eng |},
                {| engine := eng'; nol := nol s; turn_count := turn |})
      end
  end.

End Lower.

(** [str.lower] on ASCII text, for running the turn on examples. *)
Fixpoint ascii_lower (s : string) : string :=
  match s with
  | EmptyString => EmptyString
  | String c s' =>
      let n := Ascii.nat_of_ascii c in
      String (if (65 <=? n)%nat && (n <=? 90)%nat then Ascii.ascii_of_nat (n + 32) else c)
             (ascii_lower s')
  end.

End Turn.

(** ** Graphs built through the insertion helpers *)

Module Built.

Import Brain.

(** What [BrainParser] can produce: the empty graph extended by [add_node],
    [add_edge] and [add_response]. *)
Inductive built : BrainGraph -> Prop :=
| built_empty : built empty_graph
| built_node g n : built g -> built (add_node g n)
| built_edge g e : built g -> built (add_edge g e)
| built_response g r : built g -> built (add_response g r).

End Built.

(** ** Predicates of the further statements *)

Module Shape.

Import Brain Memory Engine.
Open Scope float_scope.

(** Everything of a node but its current activation. *)
Definition skeleton (n : Node) : string * string * string * float :=
  (id n, type n, label n, base_activation n).

(** The two graphs differ at most in the current activations. *)
Definition same_structure (g g' : BrainGraph) : Prop :=
  map (fun kn => (fst kn, skeleton (snd kn))) (nodes g)
  = map (fun kn => (fst kn, skeleton (snd kn))) (nodes g')
  /\ edges g = edges g'
  /\ adjacency g = adjacency g'
  /\ responses g = responses g'.

(** No node is above the activation threshold. *)
Definition quiet (g : BrainGraph) : Prop :=
  Forall (fun kn => (activation (snd kn) <=? ACTIVATION_THRESHOLD) = true) (nodes g).

(** The node fires [edge] in the emission scan of [g]: it is above the
    threshold and the target of its outgoing [edge] exists. *)
Definition fires (g : BrainGraph) (node : Node) (edge : Edge) : Prop :=
  In node (Py.values (nodes g))
  /\ (activation node <=? ACTIVATION_THRESHOLD) = false
  /\ In edge (get_edges_from g (id node))
  /\ get_node g (target edge) <> None.

(** [id in self.graph.nodes], as [get_node] sees it. *)
Definition has_node (g : BrainGraph) (nid : string) : bool :=
  match get_node g nid with
  | Some _ => true
  | None => false
  end.

Definition resolves (g : BrainGraph) (edge : Edge) : bool :=
  match get_node g (target edge) with
  | Some _ => true
  | None => false
  end.

(** The edges a node fires in one emission scan, in firing order. *)
Definition fired_by (g : BrainGraph) (node : Node) : list (Node * Edge) :=
  if activation node <=? ACTIVATION_THRESHOLD then []
  else map (pair node) (List.filter (resolves g) (get_edges_from g (id node))).

(** All the edges fired in one emission scan, in firing order. *)
Definition fired (g : BrainGraph) : list (Node * Edge) :=
  flat_map (fired_by g) (Py.values (nodes g)).

(** The deltas that reach [x] in one scan, in firing order. *)
Definition deltas_into (g : BrainGraph) (decay_factor mf : float) (x : string)
    : list float :=
  map (fun ne => edge_delta (fst ne) (snd ne) decay_factor mf)
      (List.filter (fun ne => String.eqb (target (snd ne)) x) (fired g)).

(** [updates.get(target, 0.0) + delta], edge after edge. *)
Definition accumulated (ds : list float) : float := fold_left add ds 0.0.

(** What one step makes of a node that receives the deltas [ds]. *)
Definition stepped (n : Node) (ds : list float) : Node :=
  match ds with
  | [] => n
  | _ => with_activation n (clamp (activation n + accumulated ds))
  end.

(** The loop body of the emission scan, on one fired edge. *)
Definition fire_pair (decay_factor mf : float) (st : NCEEngine * Updates)
    (ne : Node * Edge) : NCEEngine * Updates :=
  fire_edge decay_factor mf (fst ne) st (snd ne).

(** What priming makes of a node. *)
Definition primed_node (n : Node) : Node :=
  if activation n <? 1.0 then with_activation n (Py.min 1.0 (activation n + 0.3))
  else n.

(** The engines differ at most in the graph and the profiler. *)
Definition same_stores (e e' : NCEEngine) : Prop :=
  stm e = stm e' /\ episodic e = episodic e' /\ modulators e = modulators e'.

Fixpoint all_chars (p : Ascii.ascii -> bool) (s : string) : bool :=
  match s with
  | EmptyString => true
  | String c s' => p c && all_chars p s'
  end.

(** The concept ids a turn recognises in its input. *)
Definition recognised (str_lower : string -> string) (s : Turn.Session)
    (input_text : string) : list string :=
  Turn.map_to_concepts (Turn.nol s) (Turn.tokenize str_lower input_text).

(** Ascending order on strings. *)
Definition ascending (a b : string) : Prop := String.leb a b = true.

(** The deque holds no more than its [maxlen]. *)
Definition stm_bounded (m : ShortTermMemory) : Prop :=
  (length (buffer m) <= capacity m)%nat.

Definition episodic_bounded (m : EpisodicMemory) : Prop :=
  (Z.of_nat (length (episodes m)) <= max_episodes m)%Z.

End Shape.

(** ** A small dialogue, for the examples *)

Module Dialogue.

Import Brain Memory Engine Nol Scenario.
Open Scope float_scope.

(** The greeting graph after one turn that recognised [greeting]. *)
Definition primed_engine : NCEEngine :=
  new_engine hello_graph
             (add_turn (new_stm 5) 1 "hi" ["greeting"] "Hello!")
             (new_episodic 100).

Definition entry (cid : string) : ConceptEntry :=
  {| concept_id := cid; synonyms := []; category := "general"; sentiment := 0.0 |}.

(** Two words for one concept, and one template with a placeholder. *)
Definition hello_nol : NolData :=
  {| vocab := [("hello", entry "hello"); ("hi", entry "hello")];
     templates := [("greet", ["Hello about {concept}!"])] |}.

(** A fresh session over the greeting graph and its three rules. *)
Definition hello_session : Turn.Session :=
  {| Turn.engine := engine_of tie_graph;
     Turn.nol := hello_nol;
     Turn.turn_count := 0 |}.

End Dialogue.

(** ** Spreading with the interpreter's power ([nce/engine.py], stage 4) *)

Module Raising.

Import Brain Memory Engine.
Open Scope float_scope.

(** How a call ends: it returns, or it raises.  The engine is mutated in
    place, so either way the caller finds it in the state held here. *)
Inductive Outcome :=
| Returned (eng : NCEEngine)
| Raised (eng : NCEEngine).

Definition state (o : Outcome) : NCEEngine :=
  match o with
  | Returned eng => eng
  | Raised eng => eng
  end.

Definition raised (o : Outcome) : bool :=
  match o with
  | Returned _ => false
  | Raised _ => true
  end.

(** One iteration of [for step in range(steps)] below the line that
    computes [decay_factor] (lines 106-141). *)
Definition step_with (decay_factor mf : float) (eng : NCEEngine) : NCEEngine :=
  let (eng, updates) := scan decay_factor mf eng in
  let eng := apply_updates eng updates in
  let p := profiler eng in
  with_profiler eng
    {| activated_nodes := activated_nodes p;
       traversed_edges := traversed_edges p;
       steps_executed := S (steps_executed p) |}.

Section Power.

(** [decay ** step], left to the interpreter: its value is the C library's
    [pow], and [None] is the [OverflowError] of a power too large for a
    float. *)
Variable float_pow : float -> nat -> option float.

(** One iteration, line 104 included: the power is taken first, and when
    it raises nothing of the iteration has happened. *)
Definition spread_step (mf decay : float) (o : Outcome) (step : nat) : Outcome :=
  match o with
  | Raised _ => o
  | Returned eng =>
      match float_pow decay step with
      | None => Raised eng
      | Some decay_factor => Returned (step_with decay_factor mf eng)
      end
  end.

Definition spread_activation (eng : NCEEngine) (steps : nat) (decay : float)
    : Outcome :=
  let mf := mod_factor eng in
  fold_left (spread_step mf decay) (seq 0 steps) (Returned eng).

(** Lines 203, 204, 215 and 218 of [run_turn], for any step count and
    decay. *)
Definition activate (eng : NCEEngine) (concept_ids : list string) (steps : nat)
    (decay : float) : Outcome :=
  let eng := with_profiler eng
    {| activated_nodes := 0; traversed_edges := 0; steps_executed := 0 |} in
  let eng := with_graph eng (reset_activations (graph eng)) in
  let eng := inject_activation eng concept_ids in
  spread_activation eng steps decay.

Definition overflows (decay : float) (step : nat) : bool :=
  match float_pow decay step with
  | None => true
  | Some _ => false
  end.

(** The index of the first step of [range(steps)] whose power raises. *)
Definition first_overflow (decay : float) (steps : nat) : option nat :=
  List.find (overflows decay) (seq 0 steps).

(** The number of iterations that run to their end. *)
Definition completed (decay : float) (steps : nat) : nat :=
  match first_overflow decay steps with
  | Some k => k
  | None => steps
  end.

End Power.

(** The engine with [j] more steps counted and nothing else changed. *)
Definition counted (eng : NCEEngine) (j : nat) : NCEEngine :=
  with_profiler eng
    {| activated_nodes := activated_nodes (profiler eng);
       traversed_edges := traversed_edges (profiler eng);
       steps_executed := (j + steps_executed (profiler eng))%nat |}.

(** A power for the examples: the product, raising where it is infinite.
    It is the interpreter's power wherever the examples reach it: at the
    exponents 0 and 1, at [0.8 ** 2], and at [1e200 ** 2], which raises. *)
Definition product_pow (x : float) (n : nat) : option float :=
  let p := Py.pow x n in
  if is_infinity p then None else Some p.

End Raising.

(** ** Order facts about binary64 comparison *)

Module FloatOrder.

Import Cmp.
Open Scope float_scope.

Lemma lex_spec e1 m1 e2 m2 :
  match lex e1 m1 e2 m2 with
  | Lt => (e1 < e2)%Z \/ (e1 = e2 /\ (m1 < m2)%positive)
  | Eq => e1 = e2 /\ m1 = m2
  | Gt => (e2 < e1)%Z \/ (e1 = e2 /\ (m2 < m1)%positive)
  end.
Proof.
  unfold lex. destruct (Z.compare_spec e1 e2) as [He|He|He]; auto.
  change (Pos.compare_cont Eq m1 m2) with (Pos.compare m1 m2).
  destruct (Pos.compare_spec m1 m2); auto.
Qed.

Lemma lex_trans c e1 m1 e2 m2 e3 m3 :
  lex e1 m1 e2 m2 = c -> lex e2 m2 e3 m3 = c -> lex e1 m1 e3 m3 = c.
Proof.
  intros H12 H23.
  pose proof (lex_spec e1 m1 e2 m2) as S12.
  pose proof (lex_spec e2 m2 e3 m3) as S23.
  pose proof (lex_spec e1 m1 e3 m3) as S13.
  rewrite H12 in S12. rewrite H23 in S23.
  destruct c, (lex e1 m1 e3 m3); try reflexivity; exfalso; lia.
Qed.

Lemma lex_antisym e1 m1 e2 m2 :
  lex e2 m2 e1 m1 = CompOpp (lex e1 m1 e2 m2).
Proof.
  unfold lex. rewrite (Z.compare_antisym e1 e2).
  destruct (e1 ?= e2)%Z; simpl; try reflexivity.
  now rewrite Pos.compare_cont_antisym.
Qed.

Lemma lex_eq_l c e1 m1 e2 m2 e3 m3 :
  lex e1 m1 e2 m2 = Eq -> lex e2 m2 e3 m3 = c -> lex e1 m1 e3 m3 = c.
Proof.
  intros H12 H23. pose proof (lex_spec e1 m1 e2 m2) as S12.
  rewrite H12 in S12. destruct S12 as [-> ->]. exact H23.
Qed.

Lemma CompOpp_eq c d : CompOpp c = d <-> c = CompOpp d.
Proof. destruct c, d; simpl; split; congruence. Qed.

(** [SFcompare] on two finite numbers, through [lex]. *)
Lemma SFcompare_finite s1 m1 e1 s2 m2 e2 :
  SFcompare (S754_finite s1 m1 e1) (S754_finite s2 m2 e2) =
  Some (match s1, s2 with
        | true, false => Lt
        | false, true => Gt
        | false, false => lex e1 m1 e2 m2
        | true, true => CompOpp (lex e1 m1 e2 m2)
        end).
Proof.
  unfold lex. simpl. destruct s1, s2; try reflexivity.
  now destruct (e1 ?= e2)%Z.
Qed.

Lemma SFcompare_antisym x y :
  SFcompare y x = option_map CompOpp (SFcompare x y).
Proof.
  destruct x as [sx|sx| |sx mx ex], y as [sy|sy| |sy my ey];
    try (simpl; reflexivity);
    try (destruct sx; simpl; reflexivity);
    try (destruct sy; simpl; reflexivity);
    try (destruct sx, sy; simpl; reflexivity).
  rewrite !SFcompare_finite. simpl. f_equal.
  rewrite (lex_antisym ex mx ey my).
  destruct sx, sy; simpl; reflexivity.
Qed.

Lemma SFcompare_trans c x y z :
  SFcompare x y = Some c -> SFcompare y z = Some c -> SFcompare x z = Some c.
Proof.
  destruct x as [sx|sx| |sx mx ex], y as [sy|sy| |sy my ey],
    z as [sz|sz| |sz mz ez];
    rewrite ?SFcompare_finite;
    try (simpl; congruence);
    try (destruct sx; simpl; congruence);
    try (destruct sy; simpl; congruence);
    try (destruct sz; simpl; congruence);
    try (destruct sx, sy; simpl; congruence);
    try (destruct sx, sz; simpl; congruence);
    try (destruct sy, sz; simpl; congruence);
    try (destruct sx, sy, sz; simpl; congruence).
  intros H12 H23. injection H12 as H12. injection H23 as H23. f_equal.
  destruct sx, sy, sz; try congruence.
  - apply CompOpp_eq in H12, H23. apply CompOpp_eq.
    eapply lex_trans; eassumption.
  - eapply lex_trans; eassumption.
Qed.

(** Numbers that compare equal are interchangeable in a comparison. *)
Lemma SFcompare_eq_l c x y z :
  SFcompare x y = Some Eq -> SFcompare y z = c -> SFcompare x z = c.
Proof.
  destruct x as [sx|sx| |sx mx ex], y as [sy|sy| |sy my ey],
    z as [sz|sz| |sz mz ez];
    rewrite ?SFcompare_finite;
    try (simpl; congruence);
    try (destruct sx; simpl; congruence);
    try (destruct sy; simpl; congruence);
    try (destruct sx, sy; simpl; congruence);
    try (destruct sx, sy, sz; simpl; congruence).
  intros H12 H23. injection H12 as H12. subst c. f_equal.
  destruct sx, sy; try congruence.
  - apply CompOpp_eq in H12. simpl in H12.
    destruct sz; try reflexivity. f_equal.
    eapply lex_eq_l; eauto.
  - destruct sz; try reflexivity. eapply lex_eq_l; eauto.
Qed.

Lemma ltb_fcmp x y : (x <? y) = true <-> fcmp x y = Some Lt.
Proof.
  rewrite FloatAxioms.ltb_spec. unfold SFltb, fcmp.
  destruct (SFcompare _ _) as [[]|]; split; congruence.
Qed.

Lemma eqb_fcmp x y : (x =? y) = true <-> fcmp x y = Some Eq.
Proof.
  rewrite FloatAxioms.eqb_spec. unfold SFeqb, fcmp.
  destruct (SFcompare _ _) as [[]|]; split; congruence.
Qed.

Lemma leb_fcmp x y :
  (x <=? y) = true <-> fcmp x y = Some Lt \/ fcmp x y = Some Eq.
Proof.
  rewrite FloatAxioms.leb_spec. unfold SFleb, fcmp.
  destruct (SFcompare _ _) as [[]|]; split;
    try congruence; auto; intros [?|?]; congruence.
Qed.

Lemma fcmp_antisym x y : fcmp y x = option_map CompOpp (fcmp x y).
Proof. apply SFcompare_antisym. Qed.

Lemma ltb_irrefl x : (x <? x) = false.
Proof.
  destruct (x <? x) eqn:E; [|reflexivity].
  apply ltb_fcmp in E. pose proof (fcmp_antisym x x) as A.
  rewrite E in A. discriminate.
Qed.

Lemma ltb_asym x y : (x <? y) = true -> (y <? x) = false.
Proof.
  intros H. apply ltb_fcmp in H.
  destruct (y <? x) eqn:E; [|reflexivity].
  apply ltb_fcmp in E. rewrite fcmp_antisym, H in E. discriminate.
Qed.

Lemma ltb_trans x y z : (x <? y) = true -> (y <? z) = true -> (x <? z) = true.
Proof.
  rewrite !ltb_fcmp. apply SFcompare_trans.
Qed.

Lemma ltb_leb x y : (x <? y) = true -> (x <=? y) = true.
Proof. rewrite ltb_fcmp, leb_fcmp. auto. Qed.

Lemma eqb_sym x y : (x =? y) = true -> (y =? x) = true.
Proof.
  rewrite !eqb_fcmp. intros H. now rewrite fcmp_antisym, H.
Qed.

Lemma eqb_ltb_l x y z : (x =? y) = true -> (x <? z) = (y <? z).
Proof.
  intros H. pose proof (eqb_sym _ _ H) as H'.
  apply eqb_fcmp in H, H'.
  destruct (y <? z) eqn:E.
  - apply ltb_fcmp. apply ltb_fcmp in E. eapply SFcompare_eq_l; eauto.
  - destruct (x <? z) eqn:E2; [|reflexivity].
    apply ltb_fcmp in E2. rewrite <- E. symmetry. apply ltb_fcmp.
    eapply SFcompare_eq_l; eauto.
Qed.

Lemma eqb_ltb_r x y z : (x =? y) = true -> (z <? x) = (z <? y).
Proof.
  intros H.
  assert (forall a b, (a =? b) = true -> (z <? a) = true -> (z <? b) = true) as K.
  { intros a b Hab Hz. apply eqb_sym in Hab.
    apply eqb_fcmp in Hab. apply ltb_fcmp in Hz. apply ltb_fcmp.
    unfold fcmp in *. rewrite SFcompare_antisym in Hz |- *.
    destruct (SFcompare (Prim2SF a) (Prim2SF z)) as [c|] eqn:Ea; [|discriminate].
    rewrite (SFcompare_eq_l _ _ _ _ Hab Ea). exact Hz. }
  destruct (z <? y) eqn:E.
  - apply (K y x); auto using eqb_sym.
  - destruct (z <? x) eqn:E2; [|reflexivity].
    rewrite <- E. symmetry. now apply (K x y).
Qed.

(** [x < t <= y] gives [x < y]. *)
Lemma ltb_leb_trans x t y :
  (x <? t) = true -> (t <=? y) = true -> (x <? y) = true.
Proof.
  intros H1 H2. apply leb_fcmp in H2. destruct H2 as [H2|H2].
  - apply ltb_fcmp in H2. eapply ltb_trans; eauto.
  - apply eqb_fcmp in H2. rewrite <- (eqb_ltb_r _ _ _ H2). exact H1.
Qed.

(** A number that takes part in a strict comparison is not a NaN, and two
    such numbers always compare. *)
Lemma fcmp_defined_l x y c : fcmp x y = Some c -> fcmp x x = Some Eq.
Proof.
  unfold fcmp. destruct (Prim2SF x) as [s|s| |s m e], (Prim2SF y) as [s'|s'| |s' m' e'];
    try (simpl; congruence); try (destruct s; simpl; congruence).
  all: intros _; rewrite SFcompare_finite; unfold lex; rewrite Z.compare_refl;
    change (Pos.compare_cont Eq m m) with (Pos.compare m m);
    rewrite Pos.compare_refl; now destruct s.
Qed.

Lemma fcmp_defined_r x y c : fcmp x y = Some c -> fcmp y y = Some Eq.
Proof.
  intros H. eapply (fcmp_defined_l y x). rewrite fcmp_antisym, H. reflexivity.
Qed.

Lemma fcmp_total x y :
  fcmp x x = Some Eq -> fcmp y y = Some Eq -> exists c, fcmp x y = Some c.
Proof.
  unfold fcmp. destruct (Prim2SF x) as [s|s| |s m e], (Prim2SF y) as [s'|s'| |s' m' e'];
    try (simpl; congruence); intros _ _; eauto.
  all: simpl; eauto.
Qed.

(** [not (x < y)] for two numbers that are not NaN is [y <= x]. *)
Lemma nlt_leb x y :
  (x =? x) = true -> (y =? y) = true -> (x <? y) = false -> (y <=? x) = true.
Proof.
  rewrite !eqb_fcmp. intros Hx Hy Hlt.
  destruct (fcmp_total _ _ Hx Hy) as [c Hc].
  apply leb_fcmp. rewrite fcmp_antisym, Hc. simpl.
  destruct c; auto.
  apply ltb_fcmp in Hc. congruence.
Qed.

Lemma ltb_defined_r x y : (x <? y) = true -> (y =? y) = true.
Proof. rewrite ltb_fcmp, eqb_fcmp. apply fcmp_defined_r. Qed.

Lemma eqb_trans x y z : (x =? y) = true -> (y =? z) = true -> (x =? z) = true.
Proof. rewrite !eqb_fcmp. apply SFcompare_trans. Qed.

Lemma eqb_ltb_false x y : (x =? y) = true -> (x <? y) = false.
Proof.
  intros H. rewrite (eqb_ltb_l _ _ _ H). apply ltb_irrefl.
Qed.

Lemma leb_trans x y z :
  (x <=? y) = true -> (y <=? z) = true -> (x <=? z) = true.
Proof.
  intros H1 H2. apply leb_fcmp in H1. destruct H1 as [H1|H1].
  - apply ltb_fcmp in H1. apply ltb_leb. eapply ltb_leb_trans; eauto.
  - apply leb_fcmp in H2. apply leb_fcmp. unfold fcmp in *.
    destruct H2 as [H2|H2]; [left|right]; eapply SFcompare_eq_l; eauto.
Qed.

(** Two numbers that are not NaN and not equal compare one way or the
    other. *)
Lemma ltb_total x y :
  (x =? x) = true -> (y =? y) = true -> (x =? y) = false -> (x <? y) = false ->
  (y <? x) = true.
Proof.
  intros Hx Hy Hne Hlt. apply eqb_fcmp in Hx, Hy.
  destruct (fcmp_total _ _ Hx Hy) as [c Hc].
  apply ltb_fcmp. rewrite fcmp_antisym, Hc. destruct c; simpl; auto.
  - apply eqb_fcmp in Hc. congruence.
  - apply ltb_fcmp in Hc. congruence.
Qed.

End FloatOrder.

(** ** Conversion and division of small integers *)

Module ConvFacts.

Import Cmp.
Open Scope Z_scope.

Lemma digits2_pos_lower p : 2 ^ (Zpos (digits2_pos p) - 1) <= Zpos p.
Proof.
  induction p as [p IH|p IH|]; simpl digits2_pos.
  - rewrite Pos2Z.inj_succ.
    replace (Z.succ (Zpos (digits2_pos p)) - 1) with (Z.succ (Zpos (digits2_pos p) - 1)) by lia.
    rewrite Z.pow_succ_r by lia. lia.
  - rewrite Pos2Z.inj_succ.
    replace (Z.succ (Zpos (digits2_pos p)) - 1) with (Z.succ (Zpos (digits2_pos p) - 1)) by lia.
    rewrite Z.pow_succ_r by lia. lia.
  - simpl. lia.
Qed.

Lemma digits2_pos_small p : Zpos p < 2 ^ 53 -> Zpos (digits2_pos p) <= 53.
Proof.
  intros Hp. destruct (Z.le_gt_cases (Zpos (digits2_pos p)) 53) as [H|H]; [exact H|].
  exfalso. pose proof (digits2_pos_lower p) as Hl.
  assert (2 ^ 53 <= 2 ^ (Zpos (digits2_pos p) - 1)) by (apply Z.pow_le_mono_r; lia).
  lia.
Qed.

Lemma digits2_pos_iter_xO p k :
  Zpos (digits2_pos (Pos.iter xO p k)) = Zpos (digits2_pos p) + Zpos k.
Proof.
  induction k as [|k IH] using Pos.peano_ind.
  - simpl. lia.
  - rewrite Pos.iter_succ. simpl digits2_pos. lia.
Qed.

(** A mantissa of exactly 53 bits with an exponent in range needs no
    rounding. *)
Lemma binary_round_aux_exact s m e :
  Zpos (digits2_pos m) = 53 -> -1074 <= e <= 971 ->
  binary_round_aux prec emax s (Zpos m) e loc_Exact = S754_finite s m e
  /\ valid_binary (S754_finite s m e) = true.
Proof.
  intros Hd He.
  assert (Hf : fexp prec emax (Zpos (digits2_pos m) + e) - e = 0).
  { unfold fexp, SpecFloat.emin, prec, emax. rewrite Hd. lia. }
  split.
  - unfold binary_round_aux, shr_fexp. simpl Zdigits2. rewrite Hf. simpl.
    rewrite Hf. simpl.
    destruct (Z.leb_spec e (emax - prec)) as [_|H]; [reflexivity|].
    unfold emax, prec in H. lia.
  - simpl. unfold bounded, canonical_mantissa.
    apply andb_true_intro. split.
    + apply Z.eqb_eq. lia.
    + apply Z.leb_le. unfold emax, prec. lia.
Qed.

Lemma binary_normalize_small p :
  Zpos p < 2 ^ 53 ->
  exists m e,
    binary_normalize prec emax (Zpos p) 0 false = S754_finite false m e
    /\ valid_binary (S754_finite false m e) = true.
Proof.
  intros Hp. pose proof (digits2_pos_small p Hp) as Hd.
  assert (Hfe : fexp prec emax (Zpos (digits2_pos p) + 0) = Zpos (digits2_pos p) - 53).
  { unfold fexp, SpecFloat.emin, prec, emax. lia. }
  unfold binary_normalize, binary_round. rewrite Hfe. unfold shl_align.
  destruct (Zpos (digits2_pos p) - 53 - 0) as [|k|k] eqn:Ek; try lia.
  - exists p, 0. apply binary_round_aux_exact; lia.
  - exists (Pos.iter xO p k), (Zpos (digits2_pos p) - 53).
    apply binary_round_aux_exact; [|lia].
    rewrite digits2_pos_iter_xO. lia.
Qed.

(** Rounding a non-negative mantissa never produces a NaN. *)
Lemma shr_1_nonneg mrs : 0 <= shr_m mrs -> 0 <= shr_m (shr_1 mrs).
Proof.
  destruct mrs as [m r s]. simpl.
  destruct m as [|[p|p|]|[p|p|]]; simpl; lia.
Qed.

Lemma iter_shr_1_nonneg p mrs :
  0 <= shr_m mrs -> 0 <= shr_m (SpecFloat.iter_pos shr_1 p mrs).
Proof.
  revert mrs. induction p as [p IH|p IH|]; intros mrs H; simpl.
  - apply IH, IH, shr_1_nonneg, H.
  - apply IH, IH, H.
  - apply shr_1_nonneg, H.
Qed.

Lemma shr_fexp_nonneg m e l :
  0 <= m -> 0 <= shr_m (fst (shr_fexp prec emax m e l)).
Proof.
  intros Hm. unfold shr_fexp, shr.
  assert (0 <= shr_m (shr_record_of_loc m l)) as H0
    by (destruct l as [|[]]; simpl; exact Hm).
  destruct (fexp prec emax (Zdigits2 m + e) - e); simpl; auto.
  now apply iter_shr_1_nonneg.
Qed.

Lemma round_nearest_even_nonneg m l : 0 <= m -> 0 <= round_nearest_even m l.
Proof.
  intros Hm. destruct l as [|[]]; simpl; try lia.
  destruct (Z.even m); lia.
Qed.

Lemma binary_round_aux_not_nan s m e l :
  0 <= m -> binary_round_aux prec emax s m e l <> S754_nan.
Proof.
  intros Hm. unfold binary_round_aux.
  pose proof (shr_fexp_nonneg m e l Hm) as H1.
  destruct (shr_fexp prec emax m e l) as [mrs' e']. simpl in H1.
  pose proof (shr_fexp_nonneg _ e' loc_Exact
                (round_nearest_even_nonneg _ (loc_of_shr_record mrs') H1)) as H2.
  destruct (shr_fexp prec emax _ e' loc_Exact) as [mrs'' e'']. simpl in H2.
  destruct (shr_m mrs'') as [|p|p]; try discriminate; try lia.
  destruct (e'' <=? emax - prec); discriminate.
Qed.

Lemma SFdiv_finite_not_nan sx mx ex sy my ey :
  SFdiv prec emax (S754_finite sx mx ex) (S754_finite sy my ey) <> S754_nan.
Proof.
  simpl. unfold SFdiv_core_binary.
  set (m' := match _ - _ - _ with
             | Z0 => Zpos mx | Zpos _ => Z.shiftl (Zpos mx) _ | Zneg _ => 0 end).
  assert (0 <= m') as Hm'.
  { unfold m'. destruct (_ - _ - _); try lia. apply Z.shiftl_nonneg. lia. }
  pose proof (Z.div_pos m' (Zpos my) Hm' eq_refl) as Hq.
  unfold Z.div in Hq. destruct (Z.div_eucl m' (Zpos my)) as [q r]. simpl in Hq.
  now apply binary_round_aux_not_nan.
Qed.

(** Rounding keeps the sign it is given. *)
Lemma binary_round_aux_sign s m e l :
  0 <= m ->
  match binary_round_aux prec emax s m e l with
  | S754_zero s' | S754_infinity s' | S754_finite s' _ _ => s' = s
  | S754_nan => False
  end.
Proof.
  intros Hm. unfold binary_round_aux.
  pose proof (shr_fexp_nonneg m e l Hm) as H1.
  destruct (shr_fexp prec emax m e l) as [mrs' e']. simpl in H1.
  pose proof (shr_fexp_nonneg _ e' loc_Exact
                (round_nearest_even_nonneg _ (loc_of_shr_record mrs') H1)) as H2.
  destruct (shr_fexp prec emax _ e' loc_Exact) as [mrs'' e'']. simpl in H2.
  destruct (shr_m mrs'') as [|p|p]; try reflexivity; try lia.
  destruct (e'' <=? emax - prec); reflexivity.
Qed.

Lemma SFadd_nonneg x y :
  nonneg_sf x -> nonneg_sf y -> nonneg_sf (SFadd prec emax x y).
Proof.
  destruct x as [sx|[|]| |[|] mx ex], y as [sy|[|]| |[|] my ey];
    simpl; try tauto.
  - now destruct sx, sy.
  - intros _ _. unfold binary_round.
    destruct (shl_align _ _ _) as [mz ez].
    pose proof (binary_round_aux_sign false (Zpos mz) ez loc_Exact
                  (Pos2Z.is_nonneg mz)) as H.
    destruct (binary_round_aux prec emax false (Zpos mz) ez loc_Exact);
      simpl; try tauto; now subst.
Qed.

Open Scope float_scope.

Lemma leb_zero_nonneg x : (0.0 <=? x) = true <-> nonneg_sf (Prim2SF x).
Proof.
  rewrite FloatAxioms.leb_spec.
  change (Prim2SF 0.0) with (S754_zero false).
  destruct (Prim2SF x) as [s|[|]| |[|] m e]; simpl; split; intros; try easy.
Qed.

(** The sum of two non-negative numbers is non-negative. *)
Lemma add_nonneg a c :
  (0.0 <=? a) = true -> (0.0 <=? c) = true -> (0.0 <=? a + c) = true.
Proof.
  rewrite !leb_zero_nonneg, add_spec. apply SFadd_nonneg.
Qed.

Lemma eqb_refl_not_nan x : Prim2SF x <> S754_nan -> (x =? x) = true.
Proof.
  intros H. apply FloatOrder.eqb_fcmp. unfold fcmp.
  destruct (Prim2SF x) as [s|s| |s m e]; try congruence.
  - reflexivity.
  - now destruct s.
  - rewrite FloatOrder.SFcompare_finite. unfold lex.
    rewrite Z.compare_refl.
    change (Pos.compare_cont Eq m m) with (Pos.compare m m).
    rewrite Pos.compare_refl. now destruct s.
Qed.

(** The quotient of two lengths below 2^53, the divisor not 0, is a
    number. *)
Lemma len_div_not_nan (a b : nat) :
  (0 < Z.of_nat b)%Z -> (Z.of_nat a < 2 ^ 53)%Z -> (Z.of_nat b < 2 ^ 53)%Z ->
  (Py.len_div a b =? Py.len_div a b) = true.
Proof.
  intros Hb0 Ha Hb. apply eqb_refl_not_nan.
  unfold Py.len_div. rewrite div_spec.
  destruct (Z.of_nat b) as [|pb|pb] eqn:Eb; try lia.
  destruct (binary_normalize_small pb Hb) as [mb [eb [Hnb Hvb]]].
  rewrite Hnb, (Prim2SF_SF2Prim _ Hvb).
  destruct (Z.of_nat a) as [|pa|pa] eqn:Ea; try lia.
  - simpl. discriminate.
  - destruct (binary_normalize_small pa Ha) as [ma [ea [Hna Hva]]].
    rewrite Hna, (Prim2SF_SF2Prim _ Hva).
    apply SFdiv_finite_not_nan.
Qed.

End ConvFacts.

(** ** Order facts about string comparison *)

Module StringOrder.

Lemma ascii_compare_trans c x y z :
  Ascii.compare x y = c -> Ascii.compare y z = c -> Ascii.compare x z = c.
Proof.
  unfold Ascii.compare. intros H1 H2.
  destruct c.
  - apply N.compare_eq_iff in H1, H2. apply N.compare_eq_iff. congruence.
  - rewrite N.compare_lt_iff in *. lia.
  - rewrite N.compare_gt_iff in *. lia.
Qed.

Lemma string_compare_trans c s1 s2 s3 :
  String.compare s1 s2 = c -> String.compare s2 s3 = c -> String.compare s1 s3 = c.
Proof.
  revert s2 s3.
  induction s1 as [|x s1 IH]; intros [|y s2] [|z s3]; simpl; try congruence.
  destruct (Ascii.compare x y) eqn:Exy, (Ascii.compare y z) eqn:Eyz;
    try congruence.
  - rewrite (ascii_compare_trans _ _ _ _ Exy Eyz). apply IH.
  - apply Ascii.compare_eq_iff in Exy. subst y. rewrite Eyz. congruence.
  - apply Ascii.compare_eq_iff in Exy. subst y. rewrite Eyz. congruence.
  - apply Ascii.compare_eq_iff in Eyz. subst z. rewrite Exy. congruence.
  - rewrite (ascii_compare_trans _ _ _ _ Exy Eyz). congruence.
  - apply Ascii.compare_eq_iff in Eyz. subst z. rewrite Exy. congruence.
  - rewrite (ascii_compare_trans _ _ _ _ Exy Eyz). congruence.
Qed.

Lemma string_ltb_leb s1 s2 : String.ltb s1 s2 = true -> String.leb s1 s2 = true.
Proof. unfold String.ltb, String.leb. now destruct (String.compare s1 s2). Qed.

Lemma string_nltb_leb s1 s2 : String.ltb s1 s2 = false -> String.leb s2 s1 = true.
Proof.
  unfold String.ltb, String.leb. rewrite (String.compare_antisym s1 s2).
  now destruct (String.compare s2 s1).
Qed.

Lemma string_leb_trans s1 s2 s3 :
  String.leb s1 s2 = true -> String.leb s2 s3 = true -> String.leb s1 s3 = true.
Proof.
  unfold String.leb.
  destruct (String.compare s1 s2) eqn:E12; try discriminate; intros _.
  - apply String.compare_eq_iff in E12. now subst.
  - destruct (String.compare s2 s3) eqn:E23; try discriminate; intros _.
    + apply String.compare_eq_iff in E23. subst. now rewrite E12.
    + now rewrite (string_compare_trans _ _ _ _ E12 E23).
Qed.

End StringOrder.

(** ** Dictionaries *)

Module DictFacts.

Section Dict.
Context {V : Type}.
Implicit Types (d : list (string * V)) (k : string) (v : V).

Lemma get_set_same d k v : Py.get (Py.set d k v) k = Some v.
Proof.
  induction d as [|[k0 v0] d IH]; simpl.
  - now rewrite String.eqb_refl.
  - destruct (String.eqb k0 k) eqn:E; simpl; rewrite E; auto.
Qed.

Lemma get_set_other d k k' v :
  k <> k' -> Py.get (Py.set d k v) k' = Py.get d k'.
Proof.
  intros Hne. induction d as [|[k0 v0] d IH]; simpl.
  - apply String.eqb_neq in Hne. now rewrite Hne.
  - destruct (String.eqb k0 k) eqn:E; simpl.
    + apply String.eqb_eq in E. subst k0.
      apply String.eqb_neq in Hne. now rewrite Hne.
    + destruct (String.eqb k0 k'); auto.
Qed.

Lemma Forall_set (P : V -> Prop) d k v :
  Forall (fun kv => P (snd kv)) d -> P v ->
  Forall (fun kv => P (snd kv)) (Py.set d k v).
Proof.
  intros Hd Hv. induction Hd as [|[k0 v0] d H0 Hd IH]; simpl.
  - constructor; auto.
  - destruct (String.eqb k0 k); constructor; auto.
Qed.

Lemma get_In d k v : Py.get d k = Some v -> In (k, v) d.
Proof.
  induction d as [|[k0 v0] d IH]; simpl; [discriminate|].
  destruct (String.eqb k0 k) eqn:E.
  - apply String.eqb_eq in E. intros [= ->]. left. now subst.
  - auto.
Qed.

End Dict.

End DictFacts.

(** ** Lists and slices *)

Module ListFacts.

Lemma firstn_snoc {A} (l : list A) j x :
  nth_error l j = Some x -> firstn (S j) l = firstn j l ++ [x].
Proof.
  revert j. induction l as [|y l IH]; intros [|j]; simpl; try discriminate.
  - now intros [= ->].
  - intros H. now rewrite <- (IH j H).
Qed.

Lemma nth_error_firstn_In {A} (l : list A) i j x :
  (i < j)%nat -> nth_error l i = Some x -> In x (firstn j l).
Proof.
  revert i j. induction l as [|y l IH]; intros [|i] [|j] Hlt; simpl;
    try discriminate; try lia.
  - intros [= ->]. now left.
  - intros H. right. apply (IH i j); [lia | exact H].
Qed.

Lemma firstn_In {A} (l : list A) j x : In x (firstn j l) -> In x l.
Proof.
  revert j. induction l as [|y l IH]; intros [|j]; simpl; try tauto.
  intros [->|H]; [now left | right; eauto].
Qed.

Lemma slice_to_nonneg {A} (l : list A) k :
  (0 <= k)%Z -> Py.slice_to k l = firstn (Z.to_nat k) l.
Proof.
  intros Hk. unfold Py.slice_to.
  destruct (Z.ltb_spec k 0) as [|_]; [lia|].
  destruct (Z.le_ge_cases k (Z.of_nat (length l))) as [Hle|Hge].
  - now rewrite Z.min_l.
  - rewrite Z.min_r, Nat2Z.id by lia.
    rewrite !firstn_all2; auto; lia.
Qed.

End ListFacts.

(** ** The stable descending sort *)

Module SortFacts.

Section Any.
Context {A : Type} (lt : A -> A -> bool).

Lemma insert_desc_perm x l : Permutation (Py.insert_desc lt x l) (x :: l).
Proof.
  induction l as [|y l IH]; simpl; [reflexivity|].
  destruct (lt x y); [|reflexivity].
  rewrite IH. apply perm_swap.
Qed.

Lemma sort_desc_perm l : Permutation (Py.sort_desc lt l) l.
Proof.
  induction l as [|x l IH]; simpl; [reflexivity|].
  rewrite insert_desc_perm. now constructor.
Qed.

(** Sorting pairs by a key component is sorting the untagged elements. *)
Lemma sort_desc_map {B} (f : B -> A) l :
  Py.sort_desc lt (map f l) = map f (Py.sort_desc (fun a b => lt (f a) (f b)) l).
Proof.
  induction l as [|x l IH]; simpl; [reflexivity|].
  rewrite IH. generalize (Py.sort_desc (fun a b => lt (f a) (f b)) l). intros s.
  induction s as [|y s IHs]; simpl; [reflexivity|].
  destruct (lt (f x) (f y)); simpl; [now rewrite IHs | reflexivity].
Qed.

(** *** Adjacent elements never ascend *)

Section Local.
Hypothesis lt_asym : forall x y, lt x y = true -> lt y x = false.

Let R (a b : A) : Prop := lt a b = false.

Lemma insert_desc_hd y x l :
  HdRel R y l -> R y x -> HdRel R y (Py.insert_desc lt x l).
Proof.
  intros Hl Hx. destruct l as [|z l]; simpl; [now constructor|].
  destruct (lt x z); constructor; auto. now apply HdRel_inv in Hl.
Qed.

Lemma insert_desc_local x l :
  Sorted R l -> Sorted R (Py.insert_desc lt x l).
Proof.
  induction 1 as [|y l Hl IH Hhd]; simpl.
  - repeat constructor.
  - destruct (lt x y) eqn:E.
    + constructor; [exact IH|]. apply insert_desc_hd; [exact Hhd|].
      now apply lt_asym.
    + constructor; [now constructor|]. now constructor.
Qed.

Lemma sort_desc_local l : Sorted (fun a b => lt a b = false) (Py.sort_desc lt l).
Proof.
  induction l as [|x l IH]; simpl; [constructor|].
  now apply insert_desc_local.
Qed.
End Local.

(** *** Stability: a class of mutually non-ascending elements keeps its
    order *)

Lemma insert_desc_filter (f : A -> bool) x l :
  (forall y, f x = true -> f y = true -> lt x y = false) ->
  List.filter f (Py.insert_desc lt x l) = List.filter f (x :: l).
Proof.
  intros H. induction l as [|y l IH]; simpl; [reflexivity|].
  destruct (lt x y) eqn:E; simpl; [|reflexivity].
  rewrite IH. simpl.
  destruct (f x) eqn:Ex, (f y) eqn:Ey; try reflexivity.
  rewrite (H y eq_refl Ey) in E. discriminate.
Qed.

Lemma sort_desc_filter (f : A -> bool) l :
  (forall x y, f x = true -> f y = true -> lt x y = false) ->
  List.filter f (Py.sort_desc lt l) = List.filter f l.
Proof.
  intros H. induction l as [|x l IH]; simpl; [reflexivity|].
  rewrite insert_desc_filter by (apply H). simpl. now rewrite IH.
Qed.

(** *** Every earlier element dominates every later one *)

Section Global.
Variables (P : A -> Prop) (R : A -> A -> Prop).
Hypothesis R_nlt : forall x y, P x -> P y -> lt x y = false -> R x y.
Hypothesis R_lt : forall x y, lt x y = true -> R y x.
Hypothesis R_trans : forall x y z, R x y -> R y z -> R x z.

Lemma insert_desc_sorted x l :
  P x -> Forall P l -> StronglySorted R l ->
  StronglySorted R (Py.insert_desc lt x l).
Proof.
  intros Hx HP Hs. induction Hs as [|y l Hs IH Hy]; simpl.
  - repeat constructor.
  - apply Forall_cons_iff in HP. destruct HP as [HPy HP].
    destruct (lt x y) eqn:E.
    + constructor; [now apply IH|].
      apply (Permutation_Forall (Permutation_sym (insert_desc_perm x l))).
      constructor; [now apply R_lt | exact Hy].
    + assert (R x y) as Hxy by now apply R_nlt.
      constructor; [now constructor|].
      constructor; [exact Hxy|].
      eapply List.Forall_impl; [|exact Hy]. intros z Hz. eapply R_trans; eauto.
Qed.

Lemma sort_desc_sorted l :
  Forall P l -> StronglySorted R (Py.sort_desc lt l).
Proof.
  induction l as [|x l IH]; simpl; intros HP; [constructor|].
  apply Forall_cons_iff in HP. destruct HP as [Hx HP].
  apply insert_desc_sorted; auto.
  apply (Permutation_Forall (Permutation_sym (sort_desc_perm l))). exact HP.
Qed.
End Global.

End Any.

End SortFacts.

(** ** Spreading activation *)

Module SpreadFacts.

Import Brain Memory Engine Spec Scenario DictFacts.
Open Scope float_scope.

Lemma clamp_in01 v : in01 (clamp v) = true.
Proof.
  unfold clamp, Py.min, Py.max, in01.
  destruct (v <? 1.0) eqn:Hhi.
  - destruct (0.0 <? v) eqn:Hlo.
    + now rewrite (FloatOrder.ltb_leb _ _ Hlo), (FloatOrder.ltb_leb _ _ Hhi).
    + reflexivity.
  - reflexivity.
Qed.

(** The emission scan only counts edges and fills the update map. *)
Lemma fire_edge_graph df mf node st edge :
  graph (fst (fire_edge df mf node st edge)) = graph (fst st).
Proof.
  destruct st as [eng ups]. unfold fire_edge.
  destruct (get_node (graph eng) (target edge)); reflexivity.
Qed.

Lemma fire_edges_graph df mf node es st :
  graph (fst (fold_left (fire_edge df mf node) es st)) = graph (fst st).
Proof.
  revert st. induction es as [|e es IH]; intros st; simpl; [reflexivity|].
  rewrite IH. apply fire_edge_graph.
Qed.

Lemma scan_node_graph df mf st node :
  graph (fst (scan_node df mf st node)) = graph (fst st).
Proof.
  unfold scan_node. destruct (activation node <=? ACTIVATION_THRESHOLD);
    [reflexivity | apply fire_edges_graph].
Qed.

Lemma scan_nodes_graph df mf ns st :
  graph (fst (fold_left (scan_node df mf) ns st)) = graph (fst st).
Proof.
  revert st. induction ns as [|n ns IH]; intros st; simpl; [reflexivity|].
  rewrite IH. apply scan_node_graph.
Qed.

Lemma scan_graph df mf eng : graph (fst (scan df mf eng)) = graph eng.
Proof. unfold scan. now rewrite scan_nodes_graph. Qed.

(** Applying updates keeps activations inside the unit interval. *)
Lemma apply_update_in01 eng u :
  all_in01 (graph eng) -> all_in01 (graph (apply_update eng u)).
Proof.
  intros H. destruct u as [nid delta]. unfold apply_update.
  destruct (get_node (graph eng) nid) as [t|]; [|exact H].
  unfold all_in01; simpl.
  apply (Forall_set (fun n => in01 (activation n) = true)); [exact H|].
  apply clamp_in01.
Qed.

Lemma apply_updates_in01 ups eng :
  all_in01 (graph eng) -> all_in01 (graph (apply_updates eng ups)).
Proof.
  unfold apply_updates. revert eng.
  induction ups as [|u ups IH]; intros eng H; simpl; [exact H|].
  apply IH, apply_update_in01, H.
Qed.





Lemma spread_step_graph mf decay eng step :
  graph (spread_step mf decay eng step) =
  graph (apply_updates (fst (scan (Py.pow decay step) mf eng))
                       (snd (scan (Py.pow decay step) mf eng))).
Proof.
  unfold spread_step. destruct (scan (Py.pow decay step) mf eng) as [e ups].
  reflexivity.
Qed.

Lemma spread_step_in01 mf decay eng step :
  all_in01 (graph eng) -> all_in01 (graph (spread_step mf decay eng step)).
Proof.
  intros H. rewrite spread_step_graph.
  apply apply_updates_in01. now rewrite scan_graph.
Qed.

Lemma spread_steps_in01 mf decay ks eng :
  all_in01 (graph eng) ->
  all_in01 (graph (fold_left (spread_step mf decay) ks eng)).
Proof.
  revert eng. induction ks as [|k ks IH]; intros eng H; simpl; [exact H|].
  apply IH, spread_step_in01, H.
Qed.

(** The state after [k] steps of a longer run is the result of a run of
    [k] steps: the loop keeps no state besides the engine. *)
Lemma spread_activation_prefix eng k j decay :
  spread_activation eng (k + j) decay =
  fold_left (spread_step (mod_factor eng) decay) (seq k j)
            (spread_activation eng k decay).
Proof.
  unfold spread_activation. now rewrite seq_app, fold_left_app.
Qed.

(** C1, as stated, fails.  One step is the step of index 0, whose decay
    factor is [decay ** 0 = 1.0]: greeting receives the full 0.9, which is
    0.18 away from 0.72. *)
Lemma one_step_greeting_is_not_072 :
  ~ (exists a,
       activation_of (activate (engine_of hello_graph) ["hello"] 1 0.8) "greeting"
         = Some a
       /\ within 0.1 a 0.72 = true).
Proof.
  intros [a [Ha Hw]]. vm_compute in Ha. injection Ha as <-.
  vm_compute in Hw. discriminate.
Qed.

(** C1, amended: with hello seeded to 1.0 and the single excitatory edge
    hello->greeting of weight 0.9, one spreading step leaves greeting at
    0.9 whatever the decay, because the first step is undecayed; hello stays
    at exactly 1.0. *)
Theorem one_step_greeting_is_weight (decay : float) :
  let eng := activate (engine_of hello_graph) ["hello"] 1 decay in
  activation_of eng "greeting" = Some 0.9 /\ activation_of eng "hello" = Some 1.0.
Proof. split; vm_compute; reflexivity. Qed.

(** C2 at its failing input: an excitatory edge whose stored weight is
    -0.5 contributes a delta of -0.5, and one step takes greeting from its
    resting 0.5 down to 0. *)
Theorem excitatory_negative_weight_lowers_target :
  edge_delta (with_activation (concept "hello" 0.0) 1.0)
             (excitatory "hello" "greeting" (-0.5)) 1.0 1.0 = -0.5
  /\ activation_of (activate (engine_of negative_graph) ["hello"] 1 0.8) "greeting"
     = Some 0.0.
Proof. split; vm_compute; reflexivity. Qed.

(** C3: an inhibitory edge contributes
    [-(source.activation * |weight| * 0.5)] times the modulator product at
    every step and for every decay; on fear->calm with weight 0.4 and fear
    seeded to 1.0 the update map of any step holds exactly -0.2 for calm. *)
Theorem inhibitory_delta_ignores_decay (node : Node) (edge : Edge) (decay : float)
    (step : nat) (mf : float) :
  edge_type edge = "inhibitory" ->
  edge_delta node edge (Py.pow decay step) mf
    = - (activation node * abs (weight edge) * 0.5) * mf
  /\ snd (scan (Py.pow decay step) (mod_factor fear_seeded) fear_seeded)
     = [("calm", -0.2)].
Proof.
  intros Hty. split.
  - unfold edge_delta. rewrite Hty. reflexivity.
  - vm_compute. reflexivity.
Qed.

Lemma inhibitory_delta_ignores_decay_witness :
  edge_type (inhibitory "fear" "calm" 0.4) = "inhibitory"
  /\ edge_delta (with_activation (concept "fear" 0.0) 1.0)
                (inhibitory "fear" "calm" 0.4) (Py.pow 0.8 2) 1.0
     = - (1.0 * abs 0.4 * 0.5) * 1.0.
Proof.
  split; [reflexivity|].
  apply (inhibitory_delta_ignores_decay
           (with_activation (concept "fear" 0.0) 1.0)
           (inhibitory "fear" "calm" 0.4) 0.8 2 1.0).
  reflexivity.
Defined.

(** Reset, seeding and priming keep activations inside the unit interval
    when the resting values are. *)
Lemma reset_in01 g : base_in01 g -> all_in01 (reset_activations g).
Proof.
  unfold base_in01, all_in01, reset_activations. simpl.
  intros H. apply Forall_map. eapply List.Forall_impl; [|exact H].
  intros [k n] Hn. exact Hn.
Qed.

Lemma seed_in01 eng cid :
  all_in01 (graph eng) -> all_in01 (graph (seed eng cid)).
Proof.
  intros H. unfold seed. destruct (get_node (graph eng) cid) as [n|]; [|exact H].
  unfold all_in01. simpl.
  apply (Forall_set (fun n => in01 (activation n) = true)); [exact H | reflexivity].
Qed.

Lemma prime_in01 eng pid :
  all_in01 (graph eng) -> all_in01 (graph (prime eng pid)).
Proof.
  intros H. unfold prime.
  destruct (get_node (graph eng) pid) as [n|] eqn:En; [|exact H].
  destruct (activation n <? 1.0) eqn:Hlt; [|exact H].
  unfold all_in01. simpl.
  apply (Forall_set (fun n => in01 (activation n) = true)); [exact H|].
  simpl.
  assert (in01 (activation n) = true) as Hn.
  { unfold all_in01 in H. rewrite List.Forall_forall in H.
    apply (H (pid, n)), get_In, En. }
  unfold in01 in Hn. apply andb_prop in Hn. destruct Hn as [Hlo _].
  assert ((0.0 <=? activation n + 0.3) = true) as Hsum
    by (apply ConvFacts.add_nonneg; [exact Hlo | reflexivity]).
  unfold in01, Py.min.
  destruct (activation n + 0.3 <? 1.0) eqn:Hhi.
  - now rewrite Hsum, (FloatOrder.ltb_leb _ _ Hhi).
  - reflexivity.
Qed.

Lemma inject_in01 eng concept_ids :
  all_in01 (graph eng) -> all_in01 (graph (inject_activation eng concept_ids)).
Proof.
  intros H. unfold inject_activation.
  assert (forall ids e, all_in01 (graph e) -> all_in01 (graph (fold_left seed ids e)))
    as Hseed.
  { induction ids as [|c ids IH]; intros e He; simpl; [exact He|].
    apply IH, seed_in01, He. }
  assert (forall ids e, all_in01 (graph e) -> all_in01 (graph (fold_left prime ids e)))
    as Hprime.
  { induction ids as [|c ids IH]; intros e He; simpl; [exact He|].
    apply IH, prime_in01, He. }
  apply Hprime, Hseed, H.
Qed.

Lemma activate_in01 eng concept_ids steps decay :
  base_in01 (graph eng) -> all_in01 (graph (activate eng concept_ids steps decay)).
Proof.
  intros H. unfold activate, spread_activation.
  apply spread_steps_in01, inject_in01. simpl. now apply reset_in01.
Qed.


Lemma step_with_graph df mf eng :
  graph (Raising.step_with df mf eng)
  = graph (apply_updates (fst (scan df mf eng)) (snd (scan df mf eng))).
Proof.
  unfold Raising.step_with. destruct (scan df mf eng) as [e ups]. reflexivity.
Qed.





Lemma find_snoc {A} (f : A -> bool) l x :
  List.find f (l ++ [x])
  = match List.find f l with
    | Some y => Some y
    | None => if f x then Some x else None
    end.
Proof.
  induction l as [|y l IH]; simpl; [reflexivity|].
  now destruct (f y).
Qed.

Lemma first_overflow_S fp decay n :
  Raising.first_overflow fp decay (S n)
  = match Raising.first_overflow fp decay n with
    | Some k => Some k
    | None => if Raising.overflows fp decay n then Some n else None
    end.
Proof. unfold Raising.first_overflow. rewrite seq_S. simpl. apply find_snoc. Qed.

Lemma raising_spread_S fp eng n decay :
  Raising.spread_activation fp eng (S n) decay
  = Raising.spread_step fp (mod_factor eng) decay
      (Raising.spread_activation fp eng n decay) n.
Proof.
  unfold Raising.spread_activation. now rewrite seq_S, fold_left_app.
Qed.

(** The run raises exactly when some power of its steps does. *)
Lemma raised_first_overflow fp eng n decay :
  Raising.raised (Raising.spread_activation fp eng n decay)
  = match Raising.first_overflow fp decay n with
    | Some _ => true
    | None => false
    end.
Proof.
  induction n as [|n IH]; [reflexivity|].
  rewrite raising_spread_S, first_overflow_S.
  destruct (Raising.spread_activation fp eng n decay) as [e|e]; simpl in *;
    destruct (Raising.first_overflow fp decay n); try discriminate; try reflexivity.
  unfold Raising.overflows. now destruct (fp decay n).
Qed.

Lemma first_overflow_None fp decay n :
  Raising.first_overflow fp decay n = None
  <-> forall k, (k < n)%nat -> fp decay k <> None.
Proof.
  unfold Raising.first_overflow. split.
  - intros H k Hk E.
    assert (In k (seq 0 n)) as Hin by (apply in_seq; lia).
    pose proof (List.find_none _ _ H k Hin) as Hf.
    unfold Raising.overflows in Hf. rewrite E in Hf. discriminate.
  - intros H. destruct (List.find _ _) as [k|] eqn:E; [|reflexivity].
    apply List.find_some in E. destruct E as [Hin Hf]. apply in_seq in Hin.
    unfold Raising.overflows in Hf. destruct (fp decay k) eqn:E'; [discriminate|].
    exfalso. apply (H k); [lia | exact E'].
Qed.

Lemma first_overflow_Some fp decay n k :
  Raising.first_overflow fp decay n = Some k ->
  (k < n)%nat /\ fp decay k = None.
Proof.
  unfold Raising.first_overflow. intros E.
  apply List.find_some in E. destruct E as [Hin Hf]. apply in_seq in Hin.
  unfold Raising.overflows in Hf. destruct (fp decay k); [discriminate|].
  split; [lia | reflexivity].
Qed.



End SpreadFacts.

(** ** Response selection *)

Module SelectFacts.

Import Brain Memory Engine Spec Scenario.
Open Scope float_scope.

Lemma best_of_snoc g l r : best_of g (l ++ [r]) = consider g (best_of g l) r.
Proof. unfold best_of. now rewrite fold_left_app. Qed.

Lemma best_of_defined g l :
  (forall r, In r l -> rule_score g r <> None) -> exists st, best_of g l = Some st.
Proof.
  induction l as [|r l IH] using rev_ind; intros H.
  - eexists. reflexivity.
  - destruct IH as [[b br] Hst].
    { intros r' Hr'. apply H, in_or_app. now left. }
    rewrite best_of_snoc, Hst. simpl.
    destruct (rule_score g r) as [s|] eqn:Es.
    + destruct (b <? s); eauto.
    + exfalso. apply (H r); [apply in_or_app; right; now left | exact Es].
Qed.

Lemma above_start g seen st :
  scanned g seen st -> fst st = -1.0 \/ (-1.0 <? fst st) = true.
Proof.
  intros H. destruct (snd st) as [r|] eqn:E.
  - right. now destruct (best_some _ _ _ H r E).
  - left. now apply (best_none _ _ _ H).
Qed.

Lemma best_of_scanned g l st : best_of g l = Some st -> scanned g l st.
Proof.
  revert st. induction l as [|r l IH] using rev_ind; intros st.
  - intros [= <-]. split; simpl; try easy.
  - rewrite best_of_snoc.
    destruct (best_of g l) as [[b br]|] eqn:E0; [|discriminate].
    specialize (IH _ eq_refl). simpl.
    destruct (rule_score g r) as [s|] eqn:Es; [|discriminate].
    destruct (b <? s) eqn:Hlt; intros [= <-].
    + (* the rule takes over *)
      split; simpl.
      * intros r' s' Hin Hs'. apply in_app_or in Hin. destruct Hin as [Hin|[<-|[]]].
        -- pose proof (best_is_max _ _ _ IH r' s' Hin Hs') as Hm. simpl in Hm.
           destruct (s <? s') eqn:Hss; [|reflexivity].
           rewrite (FloatOrder.ltb_trans _ _ _ Hlt Hss) in Hm. discriminate.
        -- rewrite Es in Hs'. injection Hs' as <-. apply FloatOrder.ltb_irrefl.
      * discriminate.
      * intros r' [= <-]. split.
        -- destruct (above_start _ _ _ IH) as [Hb|Hb]; simpl in Hb.
           ++ now rewrite <- Hb.
           ++ eapply FloatOrder.ltb_trans; eauto.
        -- exists (length l). split; [|split].
           ++ rewrite nth_error_app2 by lia. now rewrite Nat.sub_diag.
           ++ exact Es.
           ++ intros i ri si Hi Hnth Hsi.
              rewrite nth_error_app1 in Hnth by exact Hi.
              apply nth_error_In in Hnth.
              pose proof (best_is_max _ _ _ IH ri si Hnth Hsi) as Hm. simpl in Hm.
              destruct (si =? s) eqn:Heq; [|reflexivity].
              rewrite (FloatOrder.eqb_ltb_r _ _ b Heq), Hlt in Hm. discriminate.
    + (* the current best stays *)
      split; simpl.
      * intros r' s' Hin Hs'. apply in_app_or in Hin. destruct Hin as [Hin|[<-|[]]].
        -- apply (best_is_max _ _ _ IH r' s' Hin Hs').
        -- rewrite Es in Hs'. now injection Hs' as <-.
      * apply (best_none _ _ _ IH).
      * intros r' Hr'. destruct (best_some _ _ _ IH r' Hr') as [Hb [j [Hj [Hs He]]]].
        split; [exact Hb|]. exists j. simpl in *.
        assert (j < length l)%nat as Hjl by (apply nth_error_Some; congruence).
        split; [|split].
        -- now rewrite nth_error_app1.
        -- exact Hs.
        -- intros i ri si Hi Hnth Hsi. apply (He i ri si Hi); [|exact Hsi].
           rewrite nth_error_app1 in Hnth by lia. exact Hnth.
Qed.

(** A rule tied with an earlier one does not replace the current best. *)
Lemma tie_keeps_best g rules i j ri rj si sj :
  (forall r, In r rules -> rule_score g r <> None) ->
  (i < j)%nat -> nth_error rules i = Some ri -> nth_error rules j = Some rj ->
  rule_score g ri = Some si -> rule_score g rj = Some sj -> (si =? sj) = true ->
  best_of g (firstn (S j) rules) = best_of g (firstn j rules).
Proof.
  intros Hdef Hij Hi Hj Hsi Hsj Heq.
  rewrite (ListFacts.firstn_snoc _ _ _ Hj), best_of_snoc.
  destruct (best_of_defined g (firstn j rules)) as [[b br] Hst].
  { intros r Hr. apply Hdef. revert Hr. apply ListFacts.firstn_In. }
  rewrite Hst. simpl. rewrite Hsj.
  pose proof (best_of_scanned _ _ _ Hst) as Hsc.
  pose proof (best_is_max _ _ _ Hsc ri si (ListFacts.nth_error_firstn_In _ _ _ _ Hij Hi) Hsi) as Hm.
  simpl in Hm. now rewrite <- (FloatOrder.eqb_ltb_r _ _ b Heq), Hm.
Qed.

Lemma rule_score_fallback g : rule_score g fallback_rule = Some 0.0.
Proof. reflexivity. Qed.

Lemma select_response_unfold eng trace b :
  best_of (graph eng) (responses (graph eng)) = Some b ->
  select_response eng trace =
  Some (choose b, {| final_concepts := final_concepts trace;
                     response_intent := intent (choose b) |}).
Proof. intros H. unfold select_response. now rewrite H. Qed.

(** C5: a rule's score is [rule_score] (the sum of the trigger activations,
    0 for an unresolved id, plus [priority * 0.01]); rules are kept and
    scanned in insertion order and replace the best only on strict
    improvement.  So when some rule's score reaches the threshold, the rule
    returned is a rule of the graph, at a position [j] where no rule scores
    higher and no earlier rule has an equal score (and the fallback is
    returned only when no score reaches the threshold); a rule whose score
    equals that of an earlier rule never takes over; and of two exactly tied
    rules that score highest and reach the threshold, the earlier one is the
    rule returned, unless a rule before both has that score too. *)
Theorem select_response_earliest_best (eng : NCEEngine) (trace : ThoughtTrace) :
  scores_defined (graph eng) ->
  exists rule trace',
    select_response eng trace = Some (rule, trace')
    /\ (forall g r, responses (add_response g r) = responses g ++ [r])
    /\ (forall r p, Py.int_to_float (priority r) = Some p ->
          rule_score (graph eng) r
          = Some (Py.sum (map (fun c => match activation_of eng c with
                                        | Some a => a
                                        | None => 0.0
                                        end)
                              (trigger_concepts r))
                  + p * 0.01))
    /\ ((rule = fallback_rule
         /\ forall r s, In r (responses (graph eng)) ->
                        rule_score (graph eng) r = Some s ->
                        (ACTIVATION_THRESHOLD <=? s) = false)
        \/ exists j score,
          nth_error (responses (graph eng)) j = Some rule
          /\ rule_score (graph eng) rule = Some score
          /\ (ACTIVATION_THRESHOLD <=? score) = true
          /\ (forall r s, In r (responses (graph eng)) ->
                          rule_score (graph eng) r = Some s -> (score <? s) = false)
          /\ (forall i ri si, (i < j)%nat ->
                              nth_error (responses (graph eng)) i = Some ri ->
                              rule_score (graph eng) ri = Some si ->
                              (si =? score) = false))
    /\ (forall i j ri rj si sj, (i < j)%nat ->
          nth_error (responses (graph eng)) i = Some ri ->
          nth_error (responses (graph eng)) j = Some rj ->
          rule_score (graph eng) ri = Some si ->
          rule_score (graph eng) rj = Some sj ->
          (si =? sj) = true ->
          best_of (graph eng) (firstn (S j) (responses (graph eng)))
          = best_of (graph eng) (firstn j (responses (graph eng))))
    /\ (forall i j ri rj si sj, (i < j)%nat ->
          nth_error (responses (graph eng)) i = Some ri ->
          nth_error (responses (graph eng)) j = Some rj ->
          rule_score (graph eng) ri = Some si ->
          rule_score (graph eng) rj = Some sj ->
          (si =? sj) = true ->
          (ACTIVATION_THRESHOLD <=? si) = true ->
          (forall r s, In r (responses (graph eng)) ->
                       rule_score (graph eng) r = Some s -> (si <? s) = false) ->
          (forall h rh sh, (h < i)%nat ->
                           nth_error (responses (graph eng)) h = Some rh ->
                           rule_score (graph eng) rh = Some sh ->
                           (sh =? si) = false) ->
          rule = ri).
Proof.
  intros Hdef.
  destruct (best_of_defined _ _ Hdef) as [[b br] Hst].
  pose proof (best_of_scanned _ _ _ Hst) as Hsc.
  assert (Hmax : forall r s, In r (responses (graph eng)) ->
                 rule_score (graph eng) r = Some s -> (b <? s) = false)
    by (intros r s; apply (best_is_max _ _ _ Hsc)).
  assert (Hbelow : (b <? ACTIVATION_THRESHOLD) = true ->
                   forall r s, In r (responses (graph eng)) ->
                   rule_score (graph eng) r = Some s ->
                   (ACTIVATION_THRESHOLD <=? s) = false).
  { intros Hb r s Hin Hs. destruct (ACTIVATION_THRESHOLD <=? s) eqn:Hr; [|reflexivity].
    specialize (Hmax r s Hin Hs).
    rewrite (FloatOrder.ltb_leb_trans _ _ _ Hb Hr) in Hmax. discriminate. }
  assert (Hchar :
    (choose (b, br) = fallback_rule
     /\ forall r s, In r (responses (graph eng)) ->
                    rule_score (graph eng) r = Some s ->
                    (ACTIVATION_THRESHOLD <=? s) = false)
    \/ exists j score,
      nth_error (responses (graph eng)) j = Some (choose (b, br))
      /\ rule_score (graph eng) (choose (b, br)) = Some score
      /\ (ACTIVATION_THRESHOLD <=? score) = true
      /\ (forall r s, In r (responses (graph eng)) ->
                      rule_score (graph eng) r = Some s -> (score <? s) = false)
      /\ (forall i ri si, (i < j)%nat ->
                          nth_error (responses (graph eng)) i = Some ri ->
                          rule_score (graph eng) ri = Some si ->
                          (si =? score) = false)).
  { unfold choose. simpl. destruct br as [r|].
    - destruct (best_some _ _ _ Hsc r eq_refl) as [Hb [j [Hj [Hs He]]]]. simpl in *.
      destruct (b <? ACTIVATION_THRESHOLD) eqn:Hlow.
      + left. split; [reflexivity | now apply Hbelow].
      + right. exists j, b. split; [exact Hj|]. split; [exact Hs|].
        split; [|split; [exact Hmax | exact He]].
        apply FloatOrder.nlt_leb; [|reflexivity|exact Hlow].
        apply (FloatOrder.ltb_defined_r _ _ Hb).
    - left. split; [reflexivity|].
      pose proof (best_none _ _ _ Hsc eq_refl) as Hb. simpl in Hb. subst b.
      now apply Hbelow. }
  eexists _, _. split; [apply (select_response_unfold _ _ _ Hst)|].
  split; [reflexivity|]. split; [|split; [exact Hchar|split]].
  - intros r p Hp. unfold rule_score. rewrite Hp. do 3 f_equal.
    apply map_ext. intros c. unfold activation_of.
    now destruct (get_node (graph eng) c).
  - intros i j ri rj si sj. now apply tie_keeps_best.
  - intros i j ri rj si sj Hij Hi Hj Hsi Hsj Heq Hreach Hsmax Hearly.
    destruct Hchar as [[_ Hnone]|[j' [score [Hj' [Hs' [Hr' [Hmax' He']]]]]]].
    { rewrite (Hnone ri si (nth_error_In _ _ Hi) Hsi) in Hreach. discriminate. }
    assert ((si =? si) = true) as Hsisi.
    { apply FloatOrder.eqb_fcmp. apply FloatOrder.eqb_fcmp in Heq.
      apply (FloatOrder.fcmp_defined_l _ _ _ Heq). }
    assert ((score =? score) = true) as Hss.
    { apply FloatOrder.eqb_fcmp. apply FloatOrder.leb_fcmp in Hr'.
      destruct Hr' as [Hr'|Hr']; apply (FloatOrder.fcmp_defined_r _ _ _ Hr'). }
    assert ((si =? score) = true) as Heqs.
    { destruct (si =? score) eqn:E; [reflexivity|].
      pose proof (Hsmax _ score (nth_error_In _ _ Hj') Hs') as H1.
      pose proof (FloatOrder.ltb_total si score Hsisi Hss E H1) as H2.
      rewrite (Hmax' ri si (nth_error_In _ _ Hi) Hsi) in H2. discriminate. }
    destruct (Nat.lt_trichotomy j' i) as [Hlt|[->|Hgt]].
    + pose proof (Hearly j' _ score Hlt Hj' Hs') as Hne.
      rewrite (FloatOrder.eqb_sym _ _ Heqs) in Hne. discriminate.
    + rewrite Hi in Hj'. now injection Hj' as <-.
    + pose proof (He' i ri si Hgt Hi Hsi) as Hne.
      rewrite Heqs in Hne. discriminate.
Qed.

Lemma tie_scores_defined : scores_defined (graph tie_engine).
Proof.
  intros r Hin. vm_compute in Hin.
  destruct Hin as [<-|[<-|[<-|[]]]]; vm_compute; discriminate.
Defined.

(** On [tie_graph] with hello seeded, r_first and r_second both score 1.01
    and r_first, inserted first, is selected. *)
Lemma tie_selects_first :
  option_map (fun rt => rule_id (fst rt)) (select_response tie_engine new_trace)
  = Some "r_first".
Proof. vm_compute. reflexivity. Qed.

Lemma select_response_earliest_best_witness :
  scores_defined (graph tie_engine)
  /\ exists chosen trace',
       select_response tie_engine new_trace = Some (chosen, trace')
       /\ chosen = rule "r_first" ["hello"] "greet" 1.
Proof.
  split; [exact tie_scores_defined|].
  destruct (select_response_earliest_best tie_engine new_trace tie_scores_defined)
    as [chosen [trace' [Hsel [_ [_ [_ [_ Htie]]]]]]].
  exists chosen, trace'. split; [exact Hsel|].
  apply (Htie 1%nat 2%nat (rule "r_first" ["hello"] "greet" 1)
              (rule "r_second" ["hello"] "welcome" 1)
              (1.0 + 1.0 * 0.01) (1.0 + 1.0 * 0.01));
    [lia | reflexivity | reflexivity | vm_compute; reflexivity
     | vm_compute; reflexivity | vm_compute; reflexivity
     | vm_compute; reflexivity | | ].
  - intros r s Hin Hs. vm_compute in Hin.
    destruct Hin as [<-|[<-|[<-|[]]]]; vm_compute in Hs; injection Hs as <-;
      vm_compute; reflexivity.
  - intros h rh sh Hh Hnth Hs. destruct h as [|h]; [|lia].
    vm_compute in Hnth. injection Hnth as <-.
    vm_compute in Hs. injection Hs as <-. vm_compute. reflexivity.
Defined.

(** C6: selection returns the fallback rule exactly when there are no rules
    or no rule's score reaches the 0.05 threshold; otherwise it returns a
    rule of the graph whose score reaches the threshold and is not exceeded
    by any other; either way the intent of the rule returned is written to
    the trace. *)
Theorem select_response_fallback (eng : NCEEngine) (trace : ThoughtTrace) :
  scores_defined (graph eng) ->
  exists rule trace',
    select_response eng trace = Some (rule, trace')
    /\ response_intent trace' = intent rule
    /\ (rule = fallback_rule <->
        (responses (graph eng) = [] \/
         forall r s, In r (responses (graph eng)) ->
                     rule_score (graph eng) r = Some s ->
                     (ACTIVATION_THRESHOLD <=? s) = false))
    /\ (rule <> fallback_rule ->
        In rule (responses (graph eng))
        /\ exists score,
             rule_score (graph eng) rule = Some score
             /\ (ACTIVATION_THRESHOLD <=? score) = true
             /\ forall r s, In r (responses (graph eng)) ->
                            rule_score (graph eng) r = Some s ->
                            (score <? s) = false).
Proof.
  intros Hdef.
  destruct (best_of_defined _ _ Hdef) as [[b br] Hst].
  pose proof (best_of_scanned _ _ _ Hst) as Hsc.
  assert (Hmax : forall r s, In r (responses (graph eng)) ->
                 rule_score (graph eng) r = Some s -> (b <? s) = false)
    by (intros r s; apply (best_is_max _ _ _ Hsc)).
  assert (Hbelow : (b <? ACTIVATION_THRESHOLD) = true ->
                   forall r s, In r (responses (graph eng)) ->
                   rule_score (graph eng) r = Some s ->
                   (ACTIVATION_THRESHOLD <=? s) = false).
  { intros Hb r s Hin Hs. destruct (ACTIVATION_THRESHOLD <=? s) eqn:Hr; [|reflexivity].
    specialize (Hmax r s Hin Hs).
    rewrite (FloatOrder.ltb_leb_trans _ _ _ Hb Hr) in Hmax. discriminate. }
  eexists _, _. split; [apply (select_response_unfold _ _ _ Hst)|].
  split; [reflexivity|].
  unfold choose. simpl. destruct br as [r|].
  - destruct (best_some _ _ _ Hsc r eq_refl) as [Hb [j [Hj [Hs _]]]]. simpl in *.
    pose proof (nth_error_In _ _ Hj) as Hin.
    destruct (b <? ACTIVATION_THRESHOLD) eqn:Hlow.
    + split; [|congruence]. split; [intros _; right; now apply Hbelow | reflexivity].
    + assert (Hreach : (ACTIVATION_THRESHOLD <=? b) = true).
      { apply FloatOrder.nlt_leb; [|reflexivity|exact Hlow].
        apply (FloatOrder.ltb_defined_r _ _ Hb). }
      split.
      * split.
        -- intros ->. rewrite rule_score_fallback in Hs. injection Hs as <-.
           vm_compute in Hlow. discriminate.
        -- intros [Hnil|Hnone].
           ++ rewrite Hnil in Hin. destruct Hin.
           ++ rewrite (Hnone r b Hin Hs) in Hreach. discriminate.
      * intros _. split; [exact Hin|]. exists b. auto.
  - pose proof (best_none _ _ _ Hsc eq_refl) as Hb. simpl in Hb. subst b.
    split; [|congruence]. split; [|reflexivity].
    intros _. right. now apply Hbelow.
Qed.

Lemma quiet_scores_defined : scores_defined (graph quiet_engine).
Proof.
  intros r Hin. vm_compute in Hin.
  destruct Hin as [<-|[<-|[<-|[]]]]; vm_compute; discriminate.
Defined.

(** With nothing seeded the best score is 0.01 and the fallback is
    returned. *)
Lemma quiet_selects_fallback :
  select_response quiet_engine new_trace
  = Some (fallback_rule, {| final_concepts := []; response_intent := "unknown" |}).
Proof. vm_compute. reflexivity. Qed.

Lemma select_response_fallback_witness :
  scores_defined (graph quiet_engine)
  /\ exists rule trace',
       select_response quiet_engine new_trace = Some (rule, trace')
       /\ response_intent trace' = intent rule.
Proof.
  split; [exact quiet_scores_defined|].
  destruct (select_response_fallback quiet_engine new_trace quiet_scores_defined)
    as [rule [trace' [Hsel [Hint _]]]].
  exists rule, trace'. split; assumption.
Defined.

End SelectFacts.

(** ** The concept list handed to the realizer *)

Module ActiveFacts.

Import Brain Memory Engine Spec Scenario.
Open Scope float_scope.

Lemma tuple_desc_of_not_lt (a b : float * string) :
  (fst a =? fst a) = true -> (fst b =? fst b) = true ->
  tuple_lt a b = false -> tuple_desc a b.
Proof.
  unfold tuple_lt, tuple_desc. intros Ha Hb.
  destruct (fst a =? fst b) eqn:Heq; intros H.
  - right. split; [reflexivity|]. now apply StringOrder.string_nltb_leb.
  - left. now apply FloatOrder.ltb_total.
Qed.

Lemma tuple_desc_of_lt (a b : float * string) :
  tuple_lt a b = true -> tuple_desc b a.
Proof.
  unfold tuple_lt, tuple_desc.
  destruct (fst a =? fst b) eqn:Heq; intros H.
  - right. split; [now apply FloatOrder.eqb_sym | now apply StringOrder.string_ltb_leb].
  - now left.
Qed.

Lemma tuple_desc_trans (a b c : float * string) :
  tuple_desc a b -> tuple_desc b c -> tuple_desc a c.
Proof.
  unfold tuple_desc. intros [Hab|[Hab Sab]] [Hbc|[Hbc Sbc]].
  - left. eapply FloatOrder.ltb_trans; eauto.
  - left. now rewrite <- (FloatOrder.eqb_ltb_l _ _ (fst a) Hbc).
  - left. now rewrite (FloatOrder.eqb_ltb_r _ _ (fst c) Hab).
  - right. split.
    + eapply FloatOrder.eqb_trans; eauto.
    + eapply StringOrder.string_leb_trans; eauto.
Qed.

(** C7: the concept ids given to the realizer are those of exactly the
    nodes whose activation exceeds 0.05, in descending order of activation;
    nodes with equal activation are ordered by id, the larger id first. *)
Theorem active_ids_descending (eng : NCEEngine) :
  exists active : list (float * string),
    active_ids eng = map snd active
    /\ Permutation active
         (map (fun n => (activation n, id n))
              (List.filter (fun n => ACTIVATION_THRESHOLD <? activation n)
                           (Py.values (nodes (graph eng)))))
    /\ Forall (fun a => (ACTIVATION_THRESHOLD <? fst a) = true) active
    /\ StronglySorted tuple_desc active.
Proof.
  set (above := List.filter (fun n => ACTIVATION_THRESHOLD <? activation n)
                            (Py.values (nodes (graph eng)))).
  set (tuples := map (fun n => (activation n, id n)) above).
  assert (Habove : Forall (fun a : float * string =>
                             (ACTIVATION_THRESHOLD <? fst a) = true) tuples).
  { unfold tuples. apply Forall_map. apply List.Forall_forall.
    intros n Hn. apply filter_In in Hn. exact (proj2 Hn). }
  exists (Py.sort_desc tuple_lt tuples). repeat split.
  - apply SortFacts.sort_desc_perm.
  - apply (Permutation_Forall (Permutation_sym (SortFacts.sort_desc_perm _ tuples))).
    exact Habove.
  - apply (SortFacts.sort_desc_sorted tuple_lt
             (fun a => (fst a =? fst a) = true) tuple_desc).
    + apply tuple_desc_of_not_lt.
    + apply tuple_desc_of_lt.
    + apply tuple_desc_trans.
    + eapply List.Forall_impl; [|exact Habove].
      intros a Ha. apply (FloatOrder.ltb_defined_r _ _ Ha).
Qed.

(** On [tie_graph] after one step from hello, hello (1.0) comes before
    greeting (0.9). *)
Lemma active_ids_hello :
  active_ids (activate (engine_of tie_graph) ["hello"] 1 0.8) = ["hello"; "greeting"].
Proof. vm_compute. reflexivity. Qed.

End ActiveFacts.

(** ** The memory stores *)

Module MemoryFacts.

Import Brain Memory Engine Spec Scenario.
Open Scope float_scope.

(** [get_recent(n)] for a positive [n]: the last [min n len] entries. *)
Lemma get_recent_positive m n :
  (0 < n)%Z ->
  get_recent m n
  = skipn (length (buffer m) - Z.to_nat n) (buffer m)
  /\ length (get_recent m n) = Nat.min (Z.to_nat n) (length (buffer m)).
Proof.
  intros Hn. unfold get_recent, Py.slice_from.
  destruct (Z.ltb_spec (- n) 0) as [_|]; [|lia].
  assert (Z.to_nat (Z.max 0 (- n + Z.of_nat (length (buffer m))))
          = (length (buffer m) - Z.to_nat n)%nat) as -> by lia.
  split; [reflexivity|]. rewrite length_skipn. lia.
Qed.

(** C9 at its failing input: [items[-0:]] is [items[0:]], so
    [get_recent(0)] returns the whole buffer, here the three buffered
    turns, instead of no entry. *)
Theorem get_recent_zero_returns_all (m : ShortTermMemory) :
  get_recent m 0 = buffer m
  /\ map turn_number (get_recent three_turns 0) = [1%Z; 2%Z; 3%Z].
Proof.
  split; [|reflexivity].
  unfold get_recent, Py.slice_from. simpl.
  now rewrite Z.min_l by lia.
Qed.

Lemma recall_similar_ranked m q top_k :
  q <> ∅ ->
  fst (recall_similar m q top_k)
  = Py.slice_to top_k
      (Py.sort_desc (fun a b => jaccard q a <? jaccard q b) (episodes m)).
Proof.
  intros Hq. unfold recall_similar.
  rewrite (bool_decide_eq_false_2 _ Hq). simpl.
  destruct (bool_decide (episodes m = [])) eqn:He.
  - apply bool_decide_eq_true_1 in He. rewrite He. simpl.
    unfold Py.slice_to. now rewrite firstn_nil.
  - simpl. unfold key_lt.
    rewrite (SortFacts.sort_desc_map _ (fun ep => (jaccard q ep, ep))). simpl.
    unfold Py.slice_to. rewrite !length_map.
    rewrite <- firstn_map, map_map, map_id. reflexivity.
Qed.

(** A similarity is a number. *)
Lemma jaccard_not_nan q ep :
  (Z.of_nat (size (q ∪ context_concepts ep)) < 2 ^ 53)%Z ->
  (jaccard q ep =? jaccard q ep) = true.
Proof.
  intros Hsmall. unfold jaccard.
  destruct (bool_decide (q ∪ context_concepts ep = ∅)) eqn:Hu; [reflexivity|].
  apply bool_decide_eq_false_1 in Hu.
  assert (size (q ∩ context_concepts ep) <= size (q ∪ context_concepts ep))%nat as Hle.
  { apply subseteq_size. intros x Hx. apply elem_of_intersection in Hx.
    apply elem_of_union. left. exact (proj1 Hx). }
  assert (size (q ∪ context_concepts ep) <> 0)%nat as Hpos.
  { intros H0. apply Hu. apply leibniz_equiv. now apply size_empty_inv. }
  apply ConvFacts.len_div_not_nan; lia.
Qed.

(** C8: for a non-negative [top_k], [recall_similar] returns at most
    [top_k] episodes, the first [top_k] of a ranking of the stored episodes
    in which similarity never ascends (every earlier episode is at least as
    similar as every later one, as long as the sets have fewer than 2^53
    elements) and in which the episodes of any one similarity keep their
    storage order; the result is empty when the query is empty or nothing is
    stored; and with contexts {a,b,c} and {a,b} stored in that order, the
    query {a,b} ranks the {a,b} episode (similarity 1.0) above the {a,b,c}
    episode (similarity 2/3). *)
Theorem recall_similar_ranking (m : EpisodicMemory) (q : gset string) (top_k : Z) :
  (0 <= top_k)%Z ->
  (Z.of_nat (length (fst (recall_similar m q top_k))) <= top_k)%Z
  /\ (q = ∅ \/ episodes m = [] -> fst (recall_similar m q top_k) = [])
  /\ (q <> ∅ ->
      exists ranked,
        Permutation ranked (episodes m)
        /\ Sorted (never_ascends q) ranked
        /\ (small_sets q m -> StronglySorted (descends q) ranked)
        /\ (forall v, List.filter (fun e => jaccard q e =? v) ranked
                      = List.filter (fun e => jaccard q e =? v) (episodes m))
        /\ fst (recall_similar m q top_k) = firstn (Z.to_nat top_k) ranked)
  /\ (map turn (fst (recall_similar abc_then_ab {["a"; "b"]} 2)) = [2%Z; 1%Z]
      /\ map (jaccard {["a"; "b"]}) (episodes abc_then_ab) = [2 / 3; 1.0]).
Proof.
  intros Hk.
  assert (Hempty : q = ∅ \/ episodes m = [] -> fst (recall_similar m q top_k) = []).
  { unfold recall_similar. intros [->| ->].
    - reflexivity.
    - now rewrite orb_true_r. }
  assert (Hrank : q <> ∅ ->
            fst (recall_similar m q top_k)
            = firstn (Z.to_nat top_k)
                (Py.sort_desc (fun a b => jaccard q a <? jaccard q b) (episodes m))).
  { intros Hq. rewrite (recall_similar_ranked _ _ _ Hq). now apply ListFacts.slice_to_nonneg. }
  split; [|split; [exact Hempty|split]].
  - destruct (decide (q = ∅)) as [Hq|Hq].
    + rewrite Hempty by now left. simpl. lia.
    + rewrite (Hrank Hq). rewrite length_firstn. lia.
  - intros Hq. eexists. split; [apply SortFacts.sort_desc_perm|].
    split; [|split; [|split; [|exact (Hrank Hq)]]].
    + apply (SortFacts.sort_desc_local
               (fun a b : Episode => jaccard q a <? jaccard q b)).
      intros x y. apply FloatOrder.ltb_asym.
    + intros Hsmall.
      apply (SortFacts.sort_desc_sorted
               (fun a b : Episode => jaccard q a <? jaccard q b)
               (fun e => (jaccard q e =? jaccard q e) = true) (descends q)).
      * intros x y Hx Hy. now apply FloatOrder.nlt_leb.
      * intros x y. apply FloatOrder.ltb_leb.
      * intros x y z Hxy Hyz. unfold descends in *.
        eapply FloatOrder.leb_trans; eauto.
      * apply List.Forall_forall. intros ep Hep.
        apply jaccard_not_nan, Hsmall, Hep.
    + intros v. apply SortFacts.sort_desc_filter.
      intros x y Hx Hy. apply FloatOrder.eqb_ltb_false.
      eapply FloatOrder.eqb_trans; [exact Hx | now apply FloatOrder.eqb_sym].
  - split; vm_compute; reflexivity.
Qed.

Lemma recall_similar_ranking_witness :
  (0 <= 1)%Z
  /\ (Z.of_nat (length (fst (recall_similar abc_then_ab {["a"; "b"]} 1))) <= 1)%Z.
Proof.
  split; [lia|].
  apply (recall_similar_ranking abc_then_ab {["a"; "b"]} 1). lia.
Defined.

(** C10: [recall_similar] leaves the store as it found it, and every
    episode it returns is one of the stored episodes, fields unchanged. *)
Theorem recall_similar_pure (m : EpisodicMemory) (q : gset string) (top_k : Z) :
  snd (recall_similar m q top_k) = m
  /\ forall ep, In ep (fst (recall_similar m q top_k)) -> In ep (episodes m).
Proof.
  split.
  - unfold recall_similar.
    now destruct (bool_decide (q = ∅) || bool_decide (episodes m = [])).
  - intros ep. destruct (decide (q = ∅)) as [->|Hq].
    { unfold recall_similar. rewrite bool_decide_eq_true_2 by reflexivity.
      simpl. tauto. }
    rewrite (recall_similar_ranked _ _ _ Hq). unfold Py.slice_to.
    intros Hin. apply ListFacts.firstn_In in Hin.
    eapply Permutation_in; [apply SortFacts.sort_desc_perm | exact Hin].
Qed.

End MemoryFacts.

(** ** The graph and its index *)

Module GraphFacts.

Import Brain Memory Engine Spec Scenario Shape Built DictFacts.
Open Scope float_scope.

Section Dict.
Context {V : Type}.
Implicit Types (d : list (string * V)) (k : string) (v : V).

Lemma keys_set d k v :
  map fst (Py.set d k v)
  = match Py.get d k with
    | Some _ => map fst d
    | None => map fst d ++ [k]
    end.
Proof.
  induction d as [|[k0 v0] d IH]; simpl; [reflexivity|].
  destruct (String.eqb k0 k) eqn:E; simpl; [reflexivity|].
  rewrite IH. now destruct (Py.get d k).
Qed.

Lemma get_None_keys d k : Py.get d k = None <-> ~ In k (map fst d).
Proof.
  induction d as [|[k0 v0] d IH]; simpl; [intuition|].
  destruct (String.eqb_spec k0 k) as [->|Hne].
  - split; [discriminate | intros H; exfalso; apply H; now left].
  - rewrite IH. tauto.
Qed.

Lemma in_keys_set d k v x :
  In x (map fst (Py.set d k v)) <-> In x (map fst d) \/ x = k.
Proof.
  rewrite keys_set. destruct (Py.get d k) eqn:E.
  - split; [tauto|]. intros [H| ->]; [exact H|].
    destruct (in_dec string_dec k (map fst d)) as [Hin|Hn]; [exact Hin|].
    apply get_None_keys in Hn. congruence.
  - rewrite in_app_iff. simpl. intuition.
Qed.

Lemma NoDup_keys_set d k v :
  NoDup (map fst d) -> NoDup (map fst (Py.set d k v)).
Proof.
  intros H. rewrite keys_set. destruct (Py.get d k) eqn:E; [exact H|].
  apply get_None_keys in E.
  apply NoDup_app. split; [exact H|]. split.
  - intros x Hx Hk. apply list_elem_of_singleton in Hk. subst x.
    apply E. now apply list_elem_of_In.
  - apply NoDup_singleton.
Qed.

Lemma get_setdefault d k k' v :
  Py.get (Py.setdefault d k v) k'
  = match Py.get d k' with
    | Some x => Some x
    | None => if String.eqb k k' then Some v else None
    end.
Proof.
  unfold Py.setdefault. destruct (Py.get d k) eqn:E.
  - destruct (Py.get d k') eqn:E'; [reflexivity|].
    destruct (String.eqb_spec k k') as [->|]; congruence.
  - destruct (String.eqb_spec k k') as [->|Hne].
    + rewrite get_set_same, E. reflexivity.
    + rewrite get_set_other by exact Hne. now destruct (Py.get d k').
Qed.

(** Overwriting the value under a key with one of the same image keeps the
    image of the whole dictionary. *)
Lemma map_set_same {B} (f : string * V -> B) d k v v' :
  Py.get d k = Some v -> (forall k0, f (k0, v') = f (k0, v)) ->
  map f (Py.set d k v') = map f d.
Proof.
  intros Hget Hf. induction d as [|[k0 v0] d IH]; simpl in *; [discriminate|].
  destruct (String.eqb k0 k) eqn:E; simpl.
  - injection Hget as ->. now rewrite Hf.
  - f_equal. now apply IH.
Qed.

End Dict.

Lemma in_keys_setdefault {V} (d : list (string * V)) k v x :
  In x (map fst (Py.setdefault d k v)) <-> In x (map fst d) \/ x = k.
Proof.
  unfold Py.setdefault. destruct (Py.get d k) eqn:E.
  - split; [tauto|]. intros [H| ->]; [exact H|].
    destruct (in_dec string_dec k (map fst d)) as [Hin|Hn]; [exact Hin|].
    apply get_None_keys in Hn. congruence.
  - apply in_keys_set.
Qed.

Lemma Forall_set_pair {V} (Q : string * V -> Prop) (d : list (string * V)) k v :
  Forall Q d -> Q (k, v) -> Forall Q (Py.set d k v).
Proof.
  intros Hd Hv. induction Hd as [|[k0 v0] d H0 Hd IH]; simpl.
  - constructor; auto.
  - destruct (String.eqb_spec k0 k) as [->|]; constructor; auto.
Qed.

Lemma get_edges_from_add_node g n s :
  get_edges_from (add_node g n) s = get_edges_from g s.
Proof.
  unfold get_edges_from, add_node. simpl. rewrite get_setdefault.
  destruct (Py.get (adjacency g) s); [reflexivity|].
  now destruct (String.eqb (id n) s).
Qed.

Lemma get_edges_from_add_edge g e s :
  get_edges_from (add_edge g e) s
  = get_edges_from g s ++ (if String.eqb (source e) s then [e] else []).
Proof.
  unfold get_edges_from, add_edge. simpl.
  destruct (String.eqb_spec (source e) s) as [<-|Hne].
  - rewrite get_set_same, get_setdefault, String.eqb_refl.
    now destruct (Py.get (adjacency g) (source e)).
  - rewrite get_set_other by exact Hne. rewrite get_setdefault.
    apply String.eqb_neq in Hne. rewrite Hne, app_nil_r.
    now destruct (Py.get (adjacency g) s).
Qed.

(** X1: after [reset_activations] every node's activation equals its
    base_activation; nothing else of the graph changes, and resetting twice
    is resetting once. *)
Theorem reset_activations_restores (g : BrainGraph) :
  Forall (fun kn => activation (snd kn) = base_activation (snd kn))
         (nodes (reset_activations g))
  /\ same_structure g (reset_activations g)
  /\ reset_activations (reset_activations g) = reset_activations g.
Proof.
  unfold reset_activations, same_structure, with_nodes. simpl. split; [|split].
  - apply Forall_map. apply List.Forall_forall. now intros [k n] _.
  - repeat split. rewrite map_map. apply map_ext. now intros [k n].
  - f_equal. rewrite map_map. apply map_ext. now intros [k n].
Qed.

(** X2: a node just added is found under its id, whatever was stored there
    before; lookups of other ids are unaffected, and so are the outgoing
    edges of every id, those of a replaced node included. *)
Theorem add_node_lookup (g : BrainGraph) (n : Node) :
  get_node (add_node g n) (id n) = Some n
  /\ (forall k, k <> id n -> get_node (add_node g n) k = get_node g k)
  /\ (forall k, get_edges_from (add_node g n) k = get_edges_from g k)
  /\ edges (add_node g n) = edges g.
Proof.
  split; [|split; [|split]].
  - apply get_set_same.
  - intros k Hk. unfold get_node, add_node. simpl.
    apply get_set_other. congruence.
  - intros k. apply get_edges_from_add_node.
  - reflexivity.
Qed.

(** X3: in every graph built from the empty one by [add_node], [add_edge]
    and [add_response], the adjacency index agrees with the edge list: the
    outgoing edges of an id are exactly the inserted edges with that source,
    in insertion order (also for a source that is no node).  Every node has
    an adjacency bucket, node keys are distinct and each node is stored
    under its own id. *)
Theorem built_index_consistent (g : BrainGraph) :
  built g ->
  (forall s, get_edges_from g s
             = List.filter (fun e => String.eqb (source e) s) (edges g))
  /\ (forall s, get_neighbors g s
                = map target (List.filter (fun e => String.eqb (source e) s) (edges g)))
  /\ (forall k, In k (map fst (nodes g)) -> In k (map fst (adjacency g)))
  /\ NoDup (map fst (nodes g))
  /\ Forall (fun kn => fst kn = id (snd kn)) (nodes g).
Proof.
  intros Hb.
  assert ((forall s, get_edges_from g s
                     = List.filter (fun e => String.eqb (source e) s) (edges g))
          /\ (forall k, In k (map fst (nodes g)) -> In k (map fst (adjacency g)))
          /\ NoDup (map fst (nodes g))
          /\ Forall (fun kn => fst kn = id (snd kn)) (nodes g)) as H.
  { induction Hb as [|g n Hb [IH1 [IH2 [IH3 IH4]]]|g e Hb [IH1 [IH2 [IH3 IH4]]]
                    |g r Hb IH].
    - repeat split; simpl; try tauto; constructor.
    - split; [|split; [|split]].
      + intros s. rewrite get_edges_from_add_node. apply IH1.
      + intros k. simpl. rewrite in_keys_set, in_keys_setdefault.
        intros [Hk| ->]; auto.
      + simpl. now apply NoDup_keys_set.
      + simpl. now apply Forall_set_pair.
    - split; [|split; [|split]]; try assumption.
      + intros s. rewrite get_edges_from_add_edge, IH1. simpl.
        rewrite List.filter_app. simpl. now destruct (String.eqb (source e) s).
      + intros k Hk. simpl. rewrite in_keys_set, in_keys_setdefault. auto.
    - exact IH. }
  destruct H as [H1 [H2 [H3 H4]]]. repeat split; auto.
  intros s. unfold get_neighbors. now rewrite H1.
Qed.

Lemma built_hello : built hello_graph.
Proof. repeat constructor. Defined.

Lemma built_index_consistent_witness :
  built hello_graph
  /\ get_neighbors hello_graph "hello" = ["greeting"].
Proof.
  split; [exact built_hello|].
  destruct (built_index_consistent hello_graph built_hello) as [_ [H _]].
  rewrite H. reflexivity.
Defined.

End GraphFacts.

(** ** The two stores, further *)

Module StoreFacts.

Import Brain Memory Engine Spec Scenario Shape.
Open Scope float_scope.

(** X4: on a buffer within its capacity, [add_turn] leaves the last
    [capacity] entries of the old buffer followed by the new entry: the
    buffer stays within capacity, the capacity is kept, and for a capacity
    of at least 1 the new entry is the last one. *)
Theorem add_turn_window (m : ShortTermMemory) (t : Z) (i : string) (c : list string)
    (r : string) :
  stm_bounded m ->
  let e := {| turn_number := t; input_text := i; active_concepts := c;
              response_text := r |} in
  buffer (add_turn m t i c r)
  = skipn (length (buffer m) + 1 - capacity m) (buffer m ++ [e])
  /\ stm_bounded (add_turn m t i c r)
  /\ capacity (add_turn m t i c r) = capacity m
  /\ ((0 < capacity m)%nat -> exists older, buffer (add_turn m t i c r) = older ++ [e]).
Proof.
  unfold stm_bounded. intros Hb. cbv zeta.
  set (e := {| turn_number := t; input_text := i; active_concepts := c;
               response_text := r |}).
  unfold add_turn. fold e. simpl.
  assert (length (buffer m ++ [e]) = S (length (buffer m))) as Hlen
    by (rewrite length_app; simpl; lia).
  destruct (Nat.ltb_spec (capacity m) (length (buffer m ++ [e]))) as [Hfull|Hroom].
  - assert (length (buffer m) = capacity m) as Heq by lia.
    replace (length (buffer m) + 1 - capacity m)%nat with 1%nat by lia.
    destruct (buffer m) as [|x rest] eqn:Eb; simpl in *.
    + split; [reflexivity|]. split; [lia|]. split; [reflexivity|]. lia.
    + split; [reflexivity|]. split; [lia|]. split; [reflexivity|].
      intros _. now exists rest.
  - replace (length (buffer m) + 1 - capacity m)%nat with 0%nat by lia.
    simpl. split; [reflexivity|]. split; [lia|]. split; [reflexivity|].
    intros _. now exists (buffer m).
Qed.

Lemma add_turn_window_witness :
  stm_bounded three_turns
  /\ stm_bounded (add_turn three_turns 4 "again" ["hello"] "Hello!").
Proof.
  assert (stm_bounded three_turns) as H by (unfold stm_bounded; simpl; lia).
  split; [exact H|].
  apply (add_turn_window three_turns 4 "again" ["hello"] "Hello!" H).
Defined.

Lemma primed_fold (entries : list STMEntry) (acc : gset string) (x : string) :
  x ∈ fold_left (fun primed entry => primed ∪ list_to_set (active_concepts entry))
                entries acc
  <-> x ∈ acc \/ exists e, In e entries /\ In x (active_concepts e).
Proof.
  revert acc. induction entries as [|e entries IH]; intros acc; simpl.
  - split; [auto | intros [H|[e [[] _]]]; exact H].
  - rewrite IH, elem_of_union, elem_of_list_to_set, list_elem_of_In. split.
    + intros [[H|H]|[e' [He' Hx]]]; eauto.
    + intros [H|[e' [[<-|He'] Hx]]]; eauto.
Qed.

(** X5: a concept id is primed exactly when some buffered turn recognised
    it. *)
Theorem primed_concepts_spec (m : ShortTermMemory) (x : string) :
  x ∈ get_primed_concepts m
  <-> exists e, In e (buffer m) /\ In x (active_concepts e).
Proof.
  unfold get_primed_concepts. rewrite primed_fold. split.
  - intros [H|H]; [|exact H]. now apply not_elem_of_empty in H.
  - auto.
Qed.

(** X6: with a capacity of at least 1, [store_episode] raises nothing and
    appends the new episode, after dropping the oldest one when the store
    has reached its capacity; a store within its capacity stays within
    it. *)
Theorem store_episode_fifo (m : EpisodicMemory) (t : Z) (ctx out : gset string)
    (r : float) :
  (1 <= max_episodes m)%Z ->
  let e := {| turn := t; context_concepts := ctx; outcome_concepts := out;
              reinforcement := r |} in
  exists m',
    store_episode m t ctx out r = Some m'
    /\ max_episodes m' = max_episodes m
    /\ episodes m'
       = (if (max_episodes m <=? Z.of_nat (length (episodes m)))%Z
          then tl (episodes m) else episodes m) ++ [e]
    /\ (episodic_bounded m -> episodic_bounded m').
Proof.
  intros Hmax. cbv zeta.
  set (e := {| turn := t; context_concepts := ctx; outcome_concepts := out;
               reinforcement := r |}).
  unfold store_episode, episodic_bounded. fold e.
  destruct (Z.leb_spec (max_episodes m) (Z.of_nat (length (episodes m)))) as [Hfull|Hroom].
  - destruct (episodes m) as [|x rest] eqn:Ee; simpl in *; [lia|].
    eexists. repeat split; simpl. rewrite length_app. simpl. lia.
  - eexists. repeat split; simpl. rewrite length_app. simpl. lia.
Qed.

Lemma store_episode_fifo_witness :
  (1 <= max_episodes abc_then_ab)%Z
  /\ exists m', store_episode abc_then_ab 3 {["c"]} ∅ 0.0 = Some m'
                /\ max_episodes m' = max_episodes abc_then_ab.
Proof.
  assert (1 <= max_episodes abc_then_ab)%Z as H by (vm_compute; discriminate).
  split; [exact H|].
  destruct (store_episode_fifo abc_then_ab 3 {["c"]} ∅ 0.0 H) as [m' [H1 [H2 _]]].
  exists m'. split; assumption.
Defined.

(** X7: [store_episode] raises (the [IndexError] of [pop(0)]) exactly when
    the capacity is below 1 and the store is empty. *)
Theorem store_episode_raises_iff (m : EpisodicMemory) (t : Z) (ctx out : gset string)
    (r : float) :
  store_episode m t ctx out r = None
  <-> (max_episodes m <= 0)%Z /\ episodes m = [].
Proof.
  unfold store_episode.
  destruct (Z.leb_spec (max_episodes m) (Z.of_nat (length (episodes m)))) as [Hfull|Hroom].
  - destruct (episodes m) as [|x rest]; simpl in *.
    + split; [intros _; split; [lia|reflexivity] | reflexivity].
    + split; [discriminate | intros [_ H]; discriminate].
  - split; [discriminate|]. intros [H0 He]. rewrite He in Hroom. simpl in Hroom. lia.
Qed.

(** X8: for a positive [n], [get_recent(n)] is the last [min(n, len)]
    entries in buffer order; for a negative [n] it is the buffer without
    its first [-n] entries. *)
Theorem get_recent_window (m : ShortTermMemory) (n : Z) :
  ((0 < n)%Z ->
     get_recent m n = skipn (length (buffer m) - Z.to_nat n) (buffer m)
     /\ length (get_recent m n) = Nat.min (Z.to_nat n) (length (buffer m)))
  /\ ((n < 0)%Z -> get_recent m n = skipn (Z.to_nat (- n)) (buffer m)).
Proof.
  unfold get_recent, Py.slice_from. split; intros Hn.
  - destruct (Z.ltb_spec (- n) 0) as [_|]; [|lia].
    assert (Z.to_nat (Z.max 0 (- n + Z.of_nat (length (buffer m))))
            = (length (buffer m) - Z.to_nat n)%nat) as -> by lia.
    split; [reflexivity|]. rewrite length_skipn. lia.
  - destruct (Z.ltb_spec (- n) 0) as [|_]; [lia|].
    destruct (Z.le_ge_cases (- n) (Z.of_nat (length (buffer m)))) as [Hle|Hge].
    + now rewrite Z.min_l.
    + rewrite Z.min_r, Nat2Z.id by lia.
      rewrite !skipn_all2; auto; lia.
Qed.



(** X10: after an episode is stored into a store that has reached its
    capacity, every episode a recall returns is one of the episodes that
    stayed (all but the oldest) or the one just stored. *)
Theorem recall_after_eviction (m m' : EpisodicMemory) (t : Z) (ctx out : gset string)
    (r : float) (q : gset string) (top_k : Z) :
  (max_episodes m <= Z.of_nat (length (episodes m)))%Z ->
  store_episode m t ctx out r = Some m' ->
  forall ep, In ep (fst (recall_similar m' q top_k)) ->
    In ep (tl (episodes m))
    \/ ep = {| turn := t; context_concepts := ctx; outcome_concepts := out;
               reinforcement := r |}.
Proof.
  intros Hfull Hstore ep Hin.
  assert (In ep (episodes m')) as Hin'.
  { destruct (decide (q = ∅)) as [->|Hq].
    - unfold recall_similar in Hin.
      rewrite bool_decide_eq_true_2 in Hin by reflexivity. destruct Hin.
    - rewrite (MemoryFacts.recall_similar_ranked _ _ _ Hq) in Hin.
      unfold Py.slice_to in Hin. apply ListFacts.firstn_In in Hin.
      eapply Permutation_in; [apply SortFacts.sort_desc_perm | exact Hin]. }
  unfold store_episode in Hstore.
  destruct (Z.leb_spec (max_episodes m) (Z.of_nat (length (episodes m)))); [|lia].
  destruct (episodes m) as [|x rest]; [discriminate|].
  injection Hstore as <-. simpl in *.
  apply in_app_or in Hin'. destruct Hin' as [Hold|[<-|[]]]; auto.
Qed.

Lemma recall_after_eviction_witness :
  let full := {| max_episodes := 2; episodes := episodes abc_then_ab |} in
  (max_episodes full <= Z.of_nat (length (episodes full)))%Z
  /\ exists m', store_episode full 3 {["c"]} ∅ 0.0 = Some m'
       /\ forall ep, In ep (fst (recall_similar m' {["c"]} 3)) ->
            In ep (tl (episodes full))
            \/ ep = {| turn := 3; context_concepts := {["c"]};
                       outcome_concepts := ∅; reinforcement := 0.0 |}.
Proof.
  intros full.
  assert (max_episodes full <= Z.of_nat (length (episodes full)))%Z as H
    by (vm_compute; discriminate).
  split; [exact H|].
  destruct (store_episode full 3 {["c"]} ∅ 0.0) as [m'|] eqn:E;
    [|vm_compute in E; discriminate].
  exists m'. split; [reflexivity|].
  apply (recall_after_eviction full m' 3 {["c"]} ∅ 0.0 {["c"]} 3 H E).
Defined.

End StoreFacts.

(** ** Seeding and priming *)

Module InjectFacts.

Import Brain Memory Engine Spec Scenario Shape DictFacts.
Open Scope float_scope.

Lemma seed_same eng cid n :
  get_node (graph eng) cid = Some n ->
  get_node (graph (seed eng cid)) cid = Some (with_activation n 1.0).
Proof.
  intros H. unfold seed. rewrite H. unfold get_node. simpl. apply get_set_same.
Qed.

Lemma seed_other eng cid k :
  k <> cid -> get_node (graph (seed eng cid)) k = get_node (graph eng) k.
Proof.
  intros Hk. unfold seed. destruct (get_node (graph eng) cid); [|reflexivity].
  unfold get_node. simpl. apply get_set_other. congruence.
Qed.

Lemma prime_same eng pid n :
  get_node (graph eng) pid = Some n ->
  get_node (graph (prime eng pid)) pid = Some (primed_node n).
Proof.
  intros H. unfold prime, primed_node. rewrite H.
  destruct (activation n <? 1.0); [|exact H].
  unfold get_node. simpl. apply get_set_same.
Qed.

Lemma prime_other eng pid k :
  k <> pid -> get_node (graph (prime eng pid)) k = get_node (graph eng) k.
Proof.
  intros Hk. unfold prime. destruct (get_node (graph eng) pid) as [n|]; [|reflexivity].
  destruct (activation n <? 1.0); [|reflexivity].
  unfold get_node. simpl. apply get_set_other. congruence.
Qed.

Lemma seeds_other ids eng k :
  ~ In k ids -> get_node (graph (fold_left seed ids eng)) k = get_node (graph eng) k.
Proof.
  revert eng. induction ids as [|c ids IH]; intros eng Hk; simpl; [reflexivity|].
  rewrite IH by (simpl in Hk; tauto). apply seed_other. simpl in Hk. intuition.
Qed.

Lemma primes_other ids eng k :
  ~ In k ids -> get_node (graph (fold_left prime ids eng)) k = get_node (graph eng) k.
Proof.
  revert eng. induction ids as [|c ids IH]; intros eng Hk; simpl; [reflexivity|].
  rewrite IH by (simpl in Hk; tauto). apply prime_other. simpl in Hk. intuition.
Qed.

Lemma seeds_stores ids eng : same_stores eng (fold_left seed ids eng).
Proof.
  revert eng. induction ids as [|c ids IH]; intros eng; simpl; [now repeat split|].
  destruct (IH (seed eng c)) as [H1 [H2 H3]]. unfold same_stores.
  rewrite <- H1, <- H2, <- H3.
  unfold seed. now destruct (get_node (graph eng) c).
Qed.

Lemma primes_stores ids eng : same_stores eng (fold_left prime ids eng).
Proof.
  revert eng. induction ids as [|c ids IH]; intros eng; simpl; [now repeat split|].
  destruct (IH (prime eng c)) as [H1 [H2 H3]]. unfold same_stores.
  rewrite <- H1, <- H2, <- H3.
  unfold prime. destruct (get_node (graph eng) c) as [n|]; [|now repeat split].
  now destruct (activation n <? 1.0).
Qed.

Lemma seed_keeps_one eng cid c :
  activation_of eng cid = Some 1.0 -> activation_of (seed eng c) cid = Some 1.0.
Proof.
  unfold activation_of. intros H.
  destruct (String.eqb_spec cid c) as [<-|Hne].
  - destruct (get_node (graph eng) cid) as [n|] eqn:E; [|discriminate].
    now rewrite (seed_same _ _ _ E).
  - now rewrite seed_other.
Qed.

Lemma prime_keeps_one eng cid c :
  activation_of eng cid = Some 1.0 -> activation_of (prime eng c) cid = Some 1.0.
Proof.
  unfold activation_of. intros H.
  destruct (String.eqb_spec cid c) as [<-|Hne].
  - destruct (get_node (graph eng) cid) as [n|] eqn:E; [|discriminate].
    rewrite (prime_same _ _ _ E). simpl in H. injection H as H.
    unfold primed_node. rewrite H. simpl. now rewrite H.
  - now rewrite prime_other.
Qed.

Lemma seeds_keep_one ids eng cid :
  activation_of eng cid = Some 1.0 ->
  activation_of (fold_left seed ids eng) cid = Some 1.0.
Proof.
  revert eng. induction ids as [|c ids IH]; intros eng H; simpl; [exact H|].
  apply IH, seed_keeps_one, H.
Qed.

Lemma primes_keep_one ids eng cid :
  activation_of eng cid = Some 1.0 ->
  activation_of (fold_left prime ids eng) cid = Some 1.0.
Proof.
  revert eng. induction ids as [|c ids IH]; intros eng H; simpl; [exact H|].
  apply IH, prime_keeps_one, H.
Qed.

(** X11: every recognised concept id that names a node leaves
    [inject_activation] at exactly 1.0: later seeds and priming neither
    lower nor raise it. *)
Theorem inject_seeds_at_one (eng : NCEEngine) (concept_ids : list string)
    (cid : string) (n : Node) :
  In cid concept_ids -> get_node (graph eng) cid = Some n ->
  activation_of (inject_activation eng concept_ids) cid = Some 1.0.
Proof.
  intros Hin Hn. unfold inject_activation. apply primes_keep_one.
  revert eng n Hn. induction concept_ids as [|c ids IH]; intros eng n Hn; [destruct Hin|].
  simpl. destruct (String.eqb_spec c cid) as [->|Hne].
  - apply seeds_keep_one. unfold activation_of. now rewrite (seed_same _ _ _ Hn).
  - destruct Hin as [Hc|Hin]; [congruence|].
    apply (IH Hin _ n). rewrite seed_other by congruence. exact Hn.
Qed.

Lemma inject_seeds_at_one_witness :
  In "hello" ["greeting"; "hello"]
  /\ get_node (graph (engine_of hello_graph)) "hello" = Some (concept "hello" 0.0)
  /\ activation_of (inject_activation (engine_of hello_graph) ["greeting"; "hello"])
                   "hello" = Some 1.0.
Proof.
  assert (In "hello" ["greeting"; "hello"]) as Hin by (simpl; auto).
  split; [exact Hin|]. split; [reflexivity|].
  apply (inject_seeds_at_one _ _ "hello" (concept "hello" 0.0) Hin). reflexivity.
Defined.

Lemma primes_once ids eng k n :
  NoDup ids -> In k ids -> get_node (graph eng) k = Some n ->
  get_node (graph (fold_left prime ids eng)) k = Some (primed_node n).
Proof.
  revert eng. induction ids as [|c ids IH]; intros eng Hnd Hin Hn; [destruct Hin|].
  inversion Hnd as [|c' ids' Hc Hnd']; subst. simpl.
  rewrite list_elem_of_In in Hc.
  destruct (String.eqb_spec c k) as [->|Hne].
  - rewrite primes_other by exact Hc. now apply prime_same.
  - destruct Hin as [Heq|Hin]; [congruence|].
    apply IH; auto. rewrite prime_other by congruence. exact Hn.
Qed.

(** X12: a node that is not among the recognised concept ids is primed
    once if some buffered turn recognised it (raised by 0.3 up to 1.0 when it
    is below 1.0, left alone otherwise) and is not touched at all if
    none did. *)
Theorem inject_primes_once (eng : NCEEngine) (concept_ids : list string)
    (nid : string) (n : Node) :
  ~ In nid concept_ids -> get_node (graph eng) nid = Some n ->
  (nid ∈ get_primed_concepts (stm eng) ->
   get_node (graph (inject_activation eng concept_ids)) nid = Some (primed_node n))
  /\ (nid ∉ get_primed_concepts (stm eng) ->
      get_node (graph (inject_activation eng concept_ids)) nid = Some n).
Proof.
  intros Hnot Hn. unfold inject_activation.
  destruct (seeds_stores concept_ids eng) as [Hstm _]. rewrite <- Hstm.
  assert (get_node (graph (fold_left seed concept_ids eng)) nid = Some n) as Hn'
    by (rewrite seeds_other; assumption).
  split; intros Hp.
  - apply primes_once; [apply NoDup_elements| |exact Hn'].
    apply list_elem_of_In, elem_of_elements, Hp.
  - rewrite primes_other; [exact Hn'|].
    intros Hin. apply Hp. apply elem_of_elements, list_elem_of_In, Hin.
Qed.

Lemma inject_primes_once_witness :
  ~ In "greeting" ["hello"]
  /\ get_node (graph Dialogue.primed_engine) "greeting" = Some (concept "greeting" 0.0)
  /\ get_node (graph (inject_activation Dialogue.primed_engine ["hello"])) "greeting"
     = Some (with_activation (concept "greeting" 0.0) 0.3).
Proof.
  assert (~ In "greeting" ["hello"]) as Hnot
    by (simpl; intros [H|[]]; discriminate).
  split; [exact Hnot|]. split; [reflexivity|].
  destruct (inject_primes_once Dialogue.primed_engine ["hello"] "greeting"
              (concept "greeting" 0.0) Hnot eq_refl) as [Hp _].
  rewrite Hp; [vm_compute; reflexivity|].
  vm_compute. reflexivity.
Defined.

End InjectFacts.

(** ** One spreading step, edge by edge *)

Module StepFacts.

Import Brain Memory Engine Spec Scenario Shape DictFacts.
Open Scope float_scope.

Lemma fire_edges_filter g df mf node es st :
  graph (fst st) = g ->
  fold_left (fire_edge df mf node) es st
  = fold_left (fire_pair df mf) (map (pair node) (List.filter (resolves g) es)) st.
Proof.
  revert st. induction es as [|e es IH]; intros st Hg; simpl; [reflexivity|].
  destruct (resolves g e) eqn:R; simpl.
  - apply IH. unfold fire_pair. cbn [fst snd].
    now rewrite SpreadFacts.fire_edge_graph.
  - assert (fire_edge df mf node st e = st) as ->; [|now apply IH].
    destruct st as [eng ups]. unfold fire_edge. simpl in Hg. rewrite Hg.
    unfold resolves in R. now destruct (get_node g (target e)).
Qed.

Lemma scan_node_fired g df mf st node :
  graph (fst st) = g ->
  scan_node df mf st node = fold_left (fire_pair df mf) (fired_by g node) st.
Proof.
  intros Hg. unfold scan_node, fired_by.
  destruct (activation node <=? ACTIVATION_THRESHOLD); [reflexivity|].
  rewrite Hg. now apply fire_edges_filter.
Qed.

Lemma scan_nodes_fired g df mf ns st :
  graph (fst st) = g ->
  fold_left (scan_node df mf) ns st
  = fold_left (fire_pair df mf) (flat_map (fired_by g) ns) st.
Proof.
  revert st. induction ns as [|n ns IH]; intros st Hg; simpl; [reflexivity|].
  rewrite fold_left_app, <- (scan_node_fired g) by exact Hg.
  apply IH. now rewrite SpreadFacts.scan_node_graph.
Qed.

(** The emission scan is one loop over the fired edges. *)
Lemma scan_fired df mf eng :
  scan df mf eng = fold_left (fire_pair df mf) (fired (graph eng)) (eng, []).
Proof. unfold scan, fired. now apply scan_nodes_fired. Qed.

Lemma fired_resolves g ne : In ne (fired g) -> resolves g (snd ne) = true.
Proof.
  unfold fired. rewrite in_flat_map. intros [node [_ H]].
  unfold fired_by in H. destruct (activation node <=? ACTIVATION_THRESHOLD); [destruct H|].
  apply in_map_iff in H. destruct H as [e [<- He]]. apply filter_In in He. apply He.
Qed.

Lemma fired_fires g node edge : In (node, edge) (fired g) <-> fires g node edge.
Proof.
  unfold fired, fires. rewrite in_flat_map. split.
  - intros [n [Hn H]]. unfold fired_by in H.
    destruct (activation n <=? ACTIVATION_THRESHOLD) eqn:E; [destruct H|].
    apply in_map_iff in H. destruct H as [e [Heq He]]. injection Heq as -> ->.
    apply filter_In in He. destruct He as [He R]. repeat split; auto.
    unfold resolves in R. now destruct (get_node g (target edge)).
  - intros [Hn [E [He R]]]. exists node. split; [exact Hn|].
    unfold fired_by. rewrite E. apply in_map, filter_In. split; [exact He|].
    unfold resolves. now destruct (get_node g (target edge)).
Qed.

Lemma fire_pair_resolved g df mf st ne :
  graph (fst st) = g -> resolves g (snd ne) = true ->
  fire_pair df mf st ne
  = (with_profiler (fst st)
       {| activated_nodes := activated_nodes (profiler (fst st));
          traversed_edges := S (traversed_edges (profiler (fst st)));
          steps_executed := steps_executed (profiler (fst st)) |},
     Py.set (snd st) (target (snd ne))
       (default 0.0 (Py.get (snd st) (target (snd ne)))
        + edge_delta (fst ne) (snd ne) df mf)).
Proof.
  intros Hg R. destruct st as [eng ups]. unfold fire_pair, fire_edge.
  simpl in *. rewrite Hg. unfold resolves in R.
  destruct (get_node g (target (snd ne))); [|discriminate].
  now destruct (Py.get ups (target (snd ne))).
Qed.

Lemma fire_pairs_acc g df mf l x :
  forall st, graph (fst st) = g ->
  (forall ne, In ne l -> resolves g (snd ne) = true) ->
  Py.get (snd (fold_left (fire_pair df mf) l st)) x
  = match map (fun ne => edge_delta (fst ne) (snd ne) df mf)
              (List.filter (fun ne => String.eqb (target (snd ne)) x) l) with
    | [] => Py.get (snd st) x
    | ds => Some (fold_left add ds (default 0.0 (Py.get (snd st) x)))
    end.
Proof.
  induction l as [|ne l IH]; intros st Hg Hres; [reflexivity|].
  simpl fold_left. rewrite IH.
  2:{ rewrite (fire_pair_resolved g) by (auto; apply Hres; now left). exact Hg. }
  2:{ intros ne' Hne'. apply Hres. now right. }
  rewrite (fire_pair_resolved g) by (auto; apply Hres; now left).
  cbn [snd List.filter].
  destruct (String.eqb_spec (target (snd ne)) x) as [<-|Hne].
  - rewrite get_set_same. cbn [map default].
    now destruct (map _ (List.filter _ l)).
  - now rewrite get_set_other by exact Hne.
Qed.

Lemma fire_pairs_profiler g df mf l :
  forall st, graph (fst st) = g ->
  (forall ne, In ne l -> resolves g (snd ne) = true) ->
  profiler (fst (fold_left (fire_pair df mf) l st))
  = {| activated_nodes := activated_nodes (profiler (fst st));
       traversed_edges := (length l + traversed_edges (profiler (fst st)))%nat;
       steps_executed := steps_executed (profiler (fst st)) |}.
Proof.
  induction l as [|ne l IH]; intros st Hg Hres.
  - simpl. now destruct (profiler (fst st)).
  - simpl fold_left. rewrite IH.
    2:{ rewrite (fire_pair_resolved g) by (auto; apply Hres; now left). exact Hg. }
    2:{ intros ne' Hne'. apply Hres. now right. }
    rewrite (fire_pair_resolved g) by (auto; apply Hres; now left).
    simpl. f_equal. lia.
Qed.

Lemma fire_pairs_stores df mf l :
  forall st, same_stores (fst st) (fst (fold_left (fire_pair df mf) l st)).
Proof.
  induction l as [|ne l IH]; intros st; [now repeat split|].
  simpl fold_left. destruct (IH (fire_pair df mf st ne)) as [H1 [H2 H3]].
  unfold same_stores. rewrite <- H1, <- H2, <- H3.
  destruct st as [eng ups]. unfold fire_pair, fire_edge. simpl.
  now destruct (get_node (graph eng) (target (snd ne))).
Qed.

Lemma fire_pairs_NoDup df mf l :
  forall st, NoDup (map fst (snd st)) ->
  NoDup (map fst (snd (fold_left (fire_pair df mf) l st))).
Proof.
  induction l as [|ne l IH]; intros st H; [exact H|].
  simpl fold_left. apply IH.
  destruct st as [eng ups]. unfold fire_pair, fire_edge. simpl.
  destruct (get_node (graph eng) (target (snd ne))); [|exact H].
  simpl. now apply GraphFacts.NoDup_keys_set.
Qed.

Lemma scan_get df mf eng x :
  Py.get (snd (scan df mf eng)) x
  = match deltas_into (graph eng) df mf x with
    | [] => None
    | ds => Some (accumulated ds)
    end.
Proof.
  rewrite scan_fired.
  rewrite (fire_pairs_acc (graph eng)); [reflexivity|reflexivity|].
  apply fired_resolves.
Qed.

(** X13: the update map of one emission scan holds, for each node id, the
    deltas of the edges fired into it, added in firing order onto 0.0, and
    no entry for an id no fired edge points to; the scan counts one traversed
    edge per fired edge, and an edge whose target is not a node is neither
    counted nor recorded. *)
Theorem scan_accumulates (df mf : float) (eng : NCEEngine) :
  (forall x,
     Py.get (snd (scan df mf eng)) x
     = match deltas_into (graph eng) df mf x with
       | [] => None
       | ds => Some (accumulated ds)
       end)
  /\ (forall x, In x (map fst (snd (scan df mf eng)))
                <-> exists node edge, fires (graph eng) node edge /\ target edge = x)
  /\ traversed_edges (profiler (fst (scan df mf eng)))
     = (length (fired (graph eng)) + traversed_edges (profiler eng))%nat.
Proof.
  pose proof (scan_get df mf eng) as Hget.
  split; [exact Hget|]. split.
  - intros x. split.
    + intros Hin.
      destruct (Py.get (snd (scan df mf eng)) x) eqn:E.
      2:{ apply GraphFacts.get_None_keys in E. contradiction. }
      rewrite Hget in E. unfold deltas_into in E.
      destruct (List.filter _ (fired (graph eng))) as [|[node edge] l] eqn:F;
        [discriminate|].
      assert (In (node, edge) (List.filter
                (fun ne => String.eqb (target (snd ne)) x) (fired (graph eng))))
        as Hne by (rewrite F; now left).
      apply filter_In in Hne. destruct Hne as [Hf Ht].
      exists node, edge. split; [now apply fired_fires|].
      now apply String.eqb_eq in Ht.
    + intros [node [edge [Hf Ht]]].
      destruct (in_dec string_dec x (map fst (snd (scan df mf eng)))) as [H|H];
        [exact H|].
      apply GraphFacts.get_None_keys in H. rewrite Hget in H.
      unfold deltas_into in H.
      assert (In (node, edge) (List.filter
                (fun ne => String.eqb (target (snd ne)) x) (fired (graph eng))))
        as Hne.
      { apply filter_In. split; [now apply fired_fires|].
        now apply String.eqb_eq. }
      destruct (List.filter _ (fired (graph eng))); [destruct Hne|discriminate].
  - rewrite scan_fired.
    rewrite (fire_pairs_profiler (graph eng)); [reflexivity|reflexivity|].
    apply fired_resolves.
Qed.

Lemma apply_update_same eng x d n :
  get_node (graph eng) x = Some n ->
  get_node (graph (apply_update eng (x, d))) x
  = Some (with_activation n (clamp (activation n + d))).
Proof.
  intros H. unfold apply_update. rewrite H. unfold get_node. simpl.
  apply get_set_same.
Qed.

Lemma apply_update_other eng u k :
  k <> fst u -> get_node (graph (apply_update eng u)) k = get_node (graph eng) k.
Proof.
  intros Hk. destruct u as [x d]. unfold apply_update.
  destruct (get_node (graph eng) x); [|reflexivity].
  unfold get_node. simpl. apply get_set_other. simpl in Hk. congruence.
Qed.

Lemma apply_update_none eng u k :
  get_node (graph eng) k = None -> get_node (graph (apply_update eng u)) k = None.
Proof.
  intros H. destruct (String.eqb_spec k (fst u)) as [->|Hne].
  - destruct u as [x d]. unfold apply_update. simpl in H. now rewrite H.
  - now rewrite apply_update_other.
Qed.

Lemma apply_updates_none ups eng k :
  get_node (graph eng) k = None ->
  get_node (graph (apply_updates eng ups)) k = None.
Proof.
  revert eng. induction ups as [|u ups IH]; intros eng H; [exact H|].
  apply IH, apply_update_none, H.
Qed.

Lemma apply_updates_other ups eng k :
  ~ In k (map fst ups) ->
  get_node (graph (apply_updates eng ups)) k = get_node (graph eng) k.
Proof.
  revert eng. induction ups as [|u ups IH]; intros eng Hk; [reflexivity|].
  simpl in Hk. unfold apply_updates. simpl. fold (apply_updates (apply_update eng u) ups).
  rewrite IH by tauto. apply apply_update_other. intuition.
Qed.

Lemma apply_updates_once ups eng x d n :
  NoDup (map fst ups) -> Py.get ups x = Some d ->
  get_node (graph eng) x = Some n ->
  get_node (graph (apply_updates eng ups)) x
  = Some (with_activation n (clamp (activation n + d))).
Proof.
  revert eng. induction ups as [|[k0 d0] ups IH]; intros eng Hnd Hget Hn;
    [discriminate|].
  inversion Hnd as [|k' l' Hk Hnd']; subst. rewrite list_elem_of_In in Hk.
  change (apply_updates eng ((k0, d0) :: ups))
    with (apply_updates (apply_update eng (k0, d0)) ups).
  simpl in Hget. destruct (String.eqb_spec k0 x) as [->|Hne].
  - injection Hget as ->. rewrite apply_updates_other by exact Hk.
    now apply apply_update_same.
  - apply IH; auto. rewrite apply_update_other by (simpl; congruence). exact Hn.
Qed.

(** X14: what one iteration of the spreading loop does.  It takes
    [decay ** step] first: when that raises [OverflowError] the call raises
    and the engine is as the iteration found it, and nothing runs after a
    raise.  Otherwise, with [df] the power, every node that no fired edge
    points to keeps its activation untouched (it is not clamped either); a
    node that fired edges point to moves once, to [max(0, min(1, old + d))]
    where [d] is the sum of their deltas in firing order, all computed with
    [df] from the activations before the step; and the step adds no node. *)
Theorem spread_step_spec (float_pow : float -> nat -> option float)
    (mf decay : float) (eng : NCEEngine) (step : nat) :
  match float_pow decay step with
  | None =>
      Raising.spread_step float_pow mf decay (Raising.Returned eng) step
      = Raising.Raised eng
  | Some df =>
      exists eng',
        Raising.spread_step float_pow mf decay (Raising.Returned eng) step
        = Raising.Returned eng'
        /\ forall x,
             get_node (graph eng') x
             = option_map (fun n => stepped n (deltas_into (graph eng) df mf x))
                          (get_node (graph eng) x)
  end
  /\ Raising.spread_step float_pow mf decay (Raising.Raised eng) step
     = Raising.Raised eng.
Proof.
  split; [|reflexivity]. simpl.
  destruct (float_pow decay step) as [df|]; [|reflexivity].
  eexists. split; [reflexivity|]. intros x.
  rewrite SpreadFacts.step_with_graph.
  pose proof (scan_get df mf eng x) as Hget.
  pose proof (SpreadFacts.scan_graph df mf eng) as Hg.
  destruct (get_node (graph eng) x) as [n|] eqn:Hn; simpl.
  - destruct (deltas_into (graph eng) df mf x) as [|d ds] eqn:D.
    + rewrite apply_updates_other; [now rewrite Hg|].
      now apply GraphFacts.get_None_keys.
    + apply apply_updates_once; [|exact Hget|now rewrite Hg].
      rewrite scan_fired. apply fire_pairs_NoDup. constructor.
  - apply apply_updates_none. now rewrite Hg.
Qed.

End StepFacts.

(** ** What a turn's activation pass leaves alone *)

Module FrameFacts.

Import Brain Memory Engine Spec Scenario Shape DictFacts.
Open Scope float_scope.

Lemma same_structure_refl g : same_structure g g.
Proof. now repeat split. Qed.

Lemma same_structure_trans g1 g2 g3 :
  same_structure g1 g2 -> same_structure g2 g3 -> same_structure g1 g3.
Proof.
  intros [A1 [A2 [A3 A4]]] [B1 [B2 [B3 B4]]]. unfold same_structure.
  rewrite A1, A2, A3, A4. now repeat split.
Qed.

Lemma same_stores_refl e : same_stores e e.
Proof. now repeat split. Qed.

Lemma same_stores_trans e1 e2 e3 :
  same_stores e1 e2 -> same_stores e2 e3 -> same_stores e1 e3.
Proof.
  intros [A1 [A2 A3]] [B1 [B2 B3]]. unfold same_stores.
  rewrite A1, A2, A3. now repeat split.
Qed.

Lemma reset_structure g : same_structure g (reset_activations g).
Proof.
  unfold reset_activations, same_structure, with_nodes. simpl.
  repeat split. rewrite map_map. apply map_ext. now intros [k n].
Qed.

Lemma set_activation_structure g nid n v :
  get_node g nid = Some n -> same_structure g (set_activation g nid n v).
Proof.
  intros H. unfold same_structure, set_activation, with_nodes. simpl.
  repeat split. symmetry. now apply (GraphFacts.map_set_same _ _ _ n).
Qed.

Lemma seed_structure eng c : same_structure (graph eng) (graph (seed eng c)).
Proof.
  unfold seed. destruct (get_node (graph eng) c) eqn:E;
    [now apply set_activation_structure | apply same_structure_refl].
Qed.

Lemma prime_structure eng c : same_structure (graph eng) (graph (prime eng c)).
Proof.
  unfold prime. destruct (get_node (graph eng) c) as [n|] eqn:E;
    [|apply same_structure_refl].
  destruct (activation n <? 1.0);
    [now apply set_activation_structure | apply same_structure_refl].
Qed.

Lemma apply_update_structure eng u :
  same_structure (graph eng) (graph (apply_update eng u)).
Proof.
  destruct u as [x d]. unfold apply_update.
  destruct (get_node (graph eng) x) eqn:E;
    [now apply set_activation_structure | apply same_structure_refl].
Qed.

Lemma apply_update_stores eng u : same_stores eng (apply_update eng u).
Proof.
  destruct u as [x d]. unfold apply_update.
  now destruct (get_node (graph eng) x).
Qed.

Lemma apply_update_profiler eng u : profiler (apply_update eng u) = profiler eng.
Proof.
  destruct u as [x d]. unfold apply_update.
  now destruct (get_node (graph eng) x).
Qed.

Section Fold.
Context {A : Type} (f : NCEEngine -> A -> NCEEngine).

Lemma fold_structure l :
  (forall e x, same_structure (graph e) (graph (f e x))) ->
  forall e, same_structure (graph e) (graph (fold_left f l e)).
Proof.
  intros Hf. induction l as [|x l IH]; intros e; simpl;
    [apply same_structure_refl|].
  eapply same_structure_trans; [apply Hf | apply IH].
Qed.

Lemma fold_stores l :
  (forall e x, same_stores e (f e x)) ->
  forall e, same_stores e (fold_left f l e).
Proof.
  intros Hf. induction l as [|x l IH]; intros e; simpl;
    [apply same_stores_refl|].
  eapply same_stores_trans; [apply Hf | apply IH].
Qed.

Lemma fold_profiler l :
  (forall e x, profiler (f e x) = profiler e) ->
  forall e, profiler (fold_left f l e) = profiler e.
Proof.
  intros Hf. induction l as [|x l IH]; intros e; simpl; [reflexivity|].
  now rewrite IH.
Qed.
End Fold.

Lemma inject_structure eng ids :
  same_structure (graph eng) (graph (inject_activation eng ids)).
Proof.
  unfold inject_activation.
  eapply same_structure_trans; [apply (fold_structure seed), seed_structure|].
  apply (fold_structure prime), prime_structure.
Qed.

Lemma inject_stores eng ids : same_stores eng (inject_activation eng ids).
Proof.
  unfold inject_activation.
  eapply same_stores_trans; [apply InjectFacts.seeds_stores|].
  apply InjectFacts.primes_stores.
Qed.

Lemma spread_step_structure mf decay eng step :
  same_structure (graph eng) (graph (spread_step mf decay eng step)).
Proof.
  rewrite SpreadFacts.spread_step_graph.
  rewrite <- (SpreadFacts.scan_graph (Py.pow decay step) mf eng) at 1.
  apply (fold_structure apply_update), apply_update_structure.
Qed.

Lemma spread_step_stores mf decay eng step :
  same_stores eng (spread_step mf decay eng step).
Proof.
  unfold spread_step.
  pose proof (StepFacts.fire_pairs_stores (Py.pow decay step) mf
                (fired (graph eng)) (eng, [])) as H.
  rewrite <- StepFacts.scan_fired in H.
  destruct (scan (Py.pow decay step) mf eng) as [e ups]. simpl in H.
  eapply same_stores_trans; [exact H|].
  pose proof (fold_stores apply_update ups apply_update_stores e) as H'.
  exact H'.
Qed.

Lemma step_with_structure df mf eng :
  same_structure (graph eng) (graph (Raising.step_with df mf eng)).
Proof.
  rewrite SpreadFacts.step_with_graph.
  rewrite <- (SpreadFacts.scan_graph df mf eng) at 1.
  apply (fold_structure apply_update), apply_update_structure.
Qed.

Lemma step_with_stores df mf eng : same_stores eng (Raising.step_with df mf eng).
Proof.
  unfold Raising.step_with.
  pose proof (StepFacts.fire_pairs_stores df mf (fired (graph eng)) (eng, [])) as H.
  rewrite <- StepFacts.scan_fired in H.
  destruct (scan df mf eng) as [e ups]. simpl in H.
  eapply same_stores_trans; [exact H|].
  pose proof (fold_stores apply_update ups apply_update_stores e) as H'.
  exact H'.
Qed.

Lemma step_with_profiler df mf eng :
  activated_nodes (profiler (Raising.step_with df mf eng))
  = activated_nodes (profiler eng)
  /\ steps_executed (profiler (Raising.step_with df mf eng))
     = S (steps_executed (profiler eng)).
Proof.
  unfold Raising.step_with.
  pose proof (StepFacts.fire_pairs_profiler (graph eng) df mf
                (fired (graph eng)) (eng, []) eq_refl
                (StepFacts.fired_resolves (graph eng))) as H.
  rewrite <- StepFacts.scan_fired in H.
  destruct (scan df mf eng) as [e ups]. simpl in *.
  unfold apply_updates.
  rewrite (fold_profiler apply_update ups apply_update_profiler e), H.
  now split.
Qed.

Lemma raising_step_frame fp mf decay o step :
  same_structure (graph (Raising.state o))
                 (graph (Raising.state (Raising.spread_step fp mf decay o step)))
  /\ same_stores (Raising.state o)
                 (Raising.state (Raising.spread_step fp mf decay o step)).
Proof.
  destruct o as [e|e]; simpl;
    [|split; [apply same_structure_refl | apply same_stores_refl]].
  destruct (fp decay step); simpl.
  - split; [apply step_with_structure | apply step_with_stores].
  - split; [apply same_structure_refl | apply same_stores_refl].
Qed.

Lemma raising_steps_frame fp mf decay ks :
  forall o,
  same_structure (graph (Raising.state o))
    (graph (Raising.state (fold_left (Raising.spread_step fp mf decay) ks o)))
  /\ same_stores (Raising.state o)
       (Raising.state (fold_left (Raising.spread_step fp mf decay) ks o)).
Proof.
  induction ks as [|k ks IH]; intros o; simpl.
  - split; [apply same_structure_refl | apply same_stores_refl].
  - destruct (raising_step_frame fp mf decay o k) as [H1 H2].
    destruct (IH (Raising.spread_step fp mf decay o k)) as [H3 H4].
    split; [eapply same_structure_trans | eapply same_stores_trans]; eassumption.
Qed.

(** The counters of a run: every iteration that ran to its end is
    counted, and no node is activated by spreading. *)
Lemma raising_spread_profiler fp eng n decay :
  activated_nodes (profiler (Raising.state (Raising.spread_activation fp eng n decay)))
  = activated_nodes (profiler eng)
  /\ steps_executed (profiler (Raising.state (Raising.spread_activation fp eng n decay)))
     = (Raising.completed fp decay n + steps_executed (profiler eng))%nat.
Proof.
  induction n as [|n [IH1 IH2]]; [now split|].
  pose proof (SpreadFacts.raised_first_overflow fp eng n decay) as Hr.
  unfold Raising.completed in *.
  rewrite SpreadFacts.raising_spread_S, SpreadFacts.first_overflow_S.
  destruct (Raising.spread_activation fp eng n decay) as [e|e];
    destruct (Raising.first_overflow fp decay n) as [k|]; simpl in *;
    try discriminate.
  - unfold Raising.overflows. destruct (fp decay n) as [df|]; simpl.
    + destruct (step_with_profiler df (mod_factor eng) e) as [H1 H2].
      rewrite H1, H2, IH1, IH2. split; [reflexivity | lia].
    + now split.
  - now split.
Qed.

Lemma activate_structure eng concept_ids steps decay :
  same_structure (graph eng) (graph (activate eng concept_ids steps decay)).
Proof.
  unfold activate, spread_activation.
  eapply same_structure_trans;
    [|apply (fold_structure (spread_step _ decay)); intros;
      apply spread_step_structure].
  eapply same_structure_trans; [|apply inject_structure].
  apply reset_structure.
Qed.

Lemma activate_stores eng concept_ids steps decay :
  same_stores eng (activate eng concept_ids steps decay).
Proof.
  unfold activate, spread_activation.
  eapply same_stores_trans;
    [|apply (fold_stores (spread_step _ decay)); intros;
      apply spread_step_stores].
  eapply same_stores_trans; [|apply inject_stores].
  now repeat split.
Qed.

(** X15: the activation pass of a turn (reset, seeding, priming and any
    number of spreading steps with any decay) changes nothing of the graph
    but the current activations, whether it returns or raises: the node ids
    and their order, types, labels and base activations, the edges, the
    adjacency index and the response rules stay as they were, and so do both
    memories and the modulators. *)
Theorem activate_frame (float_pow : float -> nat -> option float)
    (eng : NCEEngine) (concept_ids : list string) (steps : nat) (decay : float) :
  same_structure
    (graph eng)
    (graph (Raising.state (Raising.activate float_pow eng concept_ids steps decay)))
  /\ same_stores
       eng
       (Raising.state (Raising.activate float_pow eng concept_ids steps decay)).
Proof.
  unfold Raising.activate, Raising.spread_activation.
  match goal with
  | |- context [fold_left (Raising.spread_step _ ?mf decay) _ (Raising.Returned ?e)] =>
      destruct (raising_steps_frame float_pow mf decay (seq 0 steps)
                  (Raising.Returned e)) as [H1 H2]
  end.
  cbn [Raising.state] in H1, H2. split.
  - eapply same_structure_trans; [|exact H1].
    eapply same_structure_trans; [|apply inject_structure].
    apply reset_structure.
  - eapply same_stores_trans; [|exact H2].
    eapply same_stores_trans; [|apply inject_stores].
    now repeat split.
Qed.

Lemma get_map_values {V} (f : V -> V) (d : list (string * V)) k :
  Py.get (map (fun kn => (fst kn, f (snd kn))) d) k = option_map f (Py.get d k).
Proof.
  induction d as [|[k0 v0] d IH]; simpl; [reflexivity|].
  now destruct (String.eqb k0 k).
Qed.

Lemma has_node_reset g k : has_node (reset_activations g) k = has_node g k.
Proof.
  unfold has_node, get_node, reset_activations. simpl.
  rewrite (get_map_values (fun n => with_activation n (base_activation n))).
  now destruct (Py.get (nodes g) k).
Qed.

Lemma has_node_seed eng c k : has_node (graph (seed eng c)) k = has_node (graph eng) k.
Proof.
  unfold has_node. destruct (String.eqb_spec k c) as [->|Hne].
  - destruct (get_node (graph eng) c) as [n|] eqn:E.
    + now rewrite (InjectFacts.seed_same _ _ _ E).
    + unfold seed. now rewrite E, E.
  - now rewrite InjectFacts.seed_other.
Qed.

Lemma seeds_profiler ids :
  forall eng,
  profiler (fold_left seed ids eng)
  = {| activated_nodes :=
         (length (List.filter (has_node (graph eng)) ids)
          + activated_nodes (profiler eng))%nat;
       traversed_edges := traversed_edges (profiler eng);
       steps_executed := steps_executed (profiler eng) |}.
Proof.
  induction ids as [|c ids IH]; intros eng; simpl.
  - now destruct (profiler eng).
  - rewrite IH.
    rewrite (List.filter_ext _ _ (has_node_seed eng c)).
    unfold has_node at 2. unfold seed.
    destruct (get_node (graph eng) c); simpl; f_equal; lia.
Qed.

Lemma prime_profiler eng c : profiler (prime eng c) = profiler eng.
Proof.
  unfold prime. destruct (get_node (graph eng) c) as [n|]; [|reflexivity].
  now destruct (activation n <? 1.0).
Qed.

Lemma first_overflow_first fp decay n k :
  Raising.first_overflow fp decay n = Some k ->
  forall j, (j < k)%nat -> fp decay j <> None.
Proof.
  revert k. induction n as [|n IH]; intros k; [discriminate|].
  rewrite SpreadFacts.first_overflow_S.
  destruct (Raising.first_overflow fp decay n) as [k'|] eqn:E.
  - intros H. injection H as <-. now apply IH.
  - destruct (Raising.overflows fp decay n); [|discriminate].
    intros H. injection H as <-.
    now apply SpreadFacts.first_overflow_None.
Qed.

(** X16: the counters after the activation pass, which starts them from
    zero.  The activated-node count is the number of recognised concept ids
    (with repetitions) that name a node of the graph, ids without a node
    being skipped silently.  The step count is the number of iterations that
    ran to their end: the number of steps asked for when the pass returns,
    and the index of the first step whose power [decay ** step] is too large
    for a float when it raises there. *)
Theorem activate_profile (float_pow : float -> nat -> option float)
    (eng : NCEEngine) (concept_ids : list string) (steps : nat) (decay : float) :
  activated_nodes
    (profiler (Raising.state (Raising.activate float_pow eng concept_ids steps decay)))
  = length (List.filter (has_node (graph eng)) concept_ids)
  /\ steps_executed
       (profiler (Raising.state (Raising.activate float_pow eng concept_ids steps decay)))
     = Raising.completed float_pow decay steps
  /\ match Raising.first_overflow float_pow decay steps with
     | None =>
         Raising.raised (Raising.activate float_pow eng concept_ids steps decay) = false
         /\ Raising.completed float_pow decay steps = steps
         /\ forall k, (k < steps)%nat -> float_pow decay k <> None
     | Some k =>
         Raising.raised (Raising.activate float_pow eng concept_ids steps decay) = true
         /\ Raising.completed float_pow decay steps = k
         /\ (k < steps)%nat /\ float_pow decay k = None
         /\ forall j, (j < k)%nat -> float_pow decay j <> None
     end.
Proof.
  unfold Raising.activate.
  match goal with
  | |- context [Raising.spread_activation float_pow ?e steps decay] =>
      destruct (raising_spread_profiler float_pow e steps decay) as [H1 H2];
      pose proof (SpreadFacts.raised_first_overflow float_pow e steps decay) as H3
  end.
  rewrite H1, H2, H3. unfold inject_activation.
  rewrite (fold_profiler prime _ prime_profiler), seeds_profiler. simpl.
  rewrite (List.filter_ext _ _ (has_node_reset (graph eng))).
  split; [lia|]. split; [lia|].
  unfold Raising.completed.
  destruct (Raising.first_overflow float_pow decay steps) as [k|] eqn:E.
  - destruct (SpreadFacts.first_overflow_Some _ _ _ _ E) as [Hk Hnone].
    repeat split; try assumption. now apply (first_overflow_first _ _ _ _ E).
  - repeat split. now apply SpreadFacts.first_overflow_None.
Qed.

Lemma quiet_fired g : quiet g -> fired g = [].
Proof.
  unfold quiet, fired, Py.values. intros H.
  induction (nodes g) as [|[k n] l IH]; [reflexivity|].
  inversion H as [|x l' Hn Hl]; subst. simpl in *.
  unfold fired_by at 1. rewrite Hn. simpl. now apply IH.
Qed.

Lemma quiet_step_with df mf eng :
  quiet (graph eng) -> Raising.step_with df mf eng = Raising.counted eng 1.
Proof.
  intros Hq. unfold Raising.step_with.
  rewrite StepFacts.scan_fired, quiet_fired by exact Hq. reflexivity.
Qed.

Lemma counted_counted eng j : Raising.counted (Raising.counted eng j) 1
                              = Raising.counted eng (S j).
Proof. reflexivity. Qed.

(** X17: when no node is above the activation threshold, spreading changes
    no activation and traverses no edge, whatever the decay: it only counts
    the iterations that run to their end.  It returns with all its steps
    counted, unless the power [decay ** step] of one of them is too large for
    a float: then it raises, with the steps before that one counted. *)
Theorem spread_activation_quiet (float_pow : float -> nat -> option float)
    (eng : NCEEngine) (steps : nat) (decay : float) :
  quiet (graph eng) ->
  Raising.spread_activation float_pow eng steps decay
  = match Raising.first_overflow float_pow decay steps with
    | None => Raising.Returned (Raising.counted eng steps)
    | Some k => Raising.Raised (Raising.counted eng k)
    end.
Proof.
  intros Hq. induction steps as [|n IH].
  - unfold Raising.spread_activation, Raising.counted. simpl.
    destruct eng as [g st e [a t x] m]. reflexivity.
  - rewrite SpreadFacts.raising_spread_S, SpreadFacts.first_overflow_S, IH.
    destruct (Raising.first_overflow float_pow decay n) as [k|]; [reflexivity|].
    unfold Raising.overflows. simpl.
    destruct (float_pow decay n) as [df|]; [|reflexivity].
    rewrite quiet_step_with by exact Hq. now rewrite counted_counted.
Qed.

Lemma spread_activation_quiet_witness :
  quiet (graph (engine_of hello_graph))
  /\ Raising.spread_activation Raising.product_pow (engine_of hello_graph) 3 0.8
     = Raising.Returned
         (with_profiler (engine_of hello_graph)
            {| activated_nodes := 0; traversed_edges := 0; steps_executed := 3 |})
  /\ Raising.spread_activation Raising.product_pow (engine_of hello_graph) 3 1e200
     = Raising.Raised
         (with_profiler (engine_of hello_graph)
            {| activated_nodes := 0; traversed_edges := 0; steps_executed := 2 |}).
Proof.
  assert (quiet (graph (engine_of hello_graph))) as Hq
    by (repeat constructor).
  split; [exact Hq|]. split.
  - exact (spread_activation_quiet Raising.product_pow (engine_of hello_graph)
             3 0.8 Hq).
  - exact (spread_activation_quiet Raising.product_pow (engine_of hello_graph)
             3 1e200 Hq).
Defined.

End FrameFacts.

(** ** Tokens, concept ids and labels *)

Module TextFacts.

Import Brain Memory Engine Nol Spec Scenario Shape DictFacts.
Open Scope float_scope.

Lemma cat_cons c s t : Text.cat (String c s) t = String c (Text.cat s t).
Proof. reflexivity. Qed.

Lemma cat_nil_l t : Text.cat EmptyString t = t.
Proof. reflexivity. Qed.

Lemma cat_nil_r s : Text.cat s EmptyString = s.
Proof.
  induction s as [|c s IH]; [reflexivity|]. now rewrite cat_cons, IH.
Qed.

Lemma cat_assoc s1 s2 s3 :
  Text.cat (Text.cat s1 s2) s3 = Text.cat s1 (Text.cat s2 s3).
Proof.
  induction s1 as [|c s1 IH]; [reflexivity|]. now rewrite !cat_cons, IH.
Qed.

Lemma all_chars_snoc p s c :
  all_chars p (Text.cat s (String c EmptyString)) = all_chars p s && p c.
Proof.
  induction s as [|c0 s IH].
  - rewrite cat_nil_l. simpl. now rewrite andb_true_r.
  - rewrite cat_cons. simpl. now rewrite IH, andb_assoc.
Qed.

Lemma cat_snoc_nonempty s c : Text.cat s (String c EmptyString) <> EmptyString.
Proof. now destruct s. Qed.

Lemma flush_tokens cur :
  all_chars Text.token_char cur = true ->
  Forall (fun t => t <> EmptyString /\ all_chars Text.token_char t = true)
         (Text.flush cur).
Proof.
  intros H. destruct cur as [|c cur]; simpl; [constructor|].
  constructor; [|constructor]. split; [discriminate|exact H].
Qed.

Lemma findall_from_tokens s :
  forall cur, all_chars Text.token_char cur = true ->
  Forall (fun t => t <> EmptyString /\ all_chars Text.token_char t = true)
         (Text.findall_from cur s).
Proof.
  induction s as [|c s IH]; intros cur H; simpl.
  - now apply flush_tokens.
  - destruct (Text.token_char c) eqn:E.
    + apply IH. now rewrite all_chars_snoc, H, E.
    + apply Forall_app. split; [now apply flush_tokens | now apply IH].
Qed.

Lemma findall_from_clean t :
  forall cur, all_chars Text.token_char t = true ->
  Text.findall_from cur t = Text.flush (Text.cat cur t).
Proof.
  induction t as [|c t IH]; intros cur H; simpl.
  - now rewrite cat_nil_r.
  - simpl in H. apply andb_prop in H. destruct H as [Hc Ht].
    rewrite Hc, IH by exact Ht. now rewrite cat_assoc.
Qed.

(** X18: whatever [str.lower] returns, every token of [tokenize] is a
    non-empty run of the characters [a-z], [0-9] and the apostrophe, so no
    upper-case letter, blank or punctuation mark reaches the vocabulary
    lookup; and a non-empty run of such characters is one token, itself. *)
Theorem tokenize_tokens (str_lower : string -> string) (input_text : string) :
  Forall (fun t => t <> EmptyString /\ all_chars Text.token_char t = true)
         (Turn.tokenize str_lower input_text)
  /\ (forall t, t <> EmptyString -> all_chars Text.token_char t = true ->
                Text.findall t = [t]).
Proof.
  split.
  - unfold Turn.tokenize, Text.findall. now apply findall_from_tokens.
  - intros t Hne Ht. unfold Text.findall. rewrite findall_from_clean by exact Ht.
    simpl. now destruct t.
Qed.

(** The loop invariant of [map_to_concepts]: [seen] is the set of the list,
    and the list has no repetition. *)
Lemma map_token_inv vocab st token :
  (forall c, c ∈ snd st <-> In c (fst st)) -> NoDup (fst st) ->
  (forall c, c ∈ snd (Turn.map_token vocab st token)
             <-> In c (fst (Turn.map_token vocab st token)))
  /\ NoDup (fst (Turn.map_token vocab st token)).
Proof.
  intros Hs Hn. unfold Turn.map_token.
  destruct (Py.get vocab token) as [e|]; [|now split].
  case_bool_decide as Hd; [now split|]. simpl. split.
  - intros c. rewrite elem_of_union, elem_of_singleton, in_app_iff, Hs. simpl.
    intuition.
  - apply NoDup_app. split; [exact Hn|]. split; [|apply NoDup_singleton].
    intros x Hx Hx'. apply list_elem_of_singleton in Hx'. subst x.
    apply Hd, Hs, list_elem_of_In, Hx.
Qed.

Lemma map_tokens_inv vocab tokens :
  forall st,
  (forall c, c ∈ snd st <-> In c (fst st)) -> NoDup (fst st) ->
  (forall c, c ∈ snd (fold_left (Turn.map_token vocab) tokens st)
             <-> In c (fst (fold_left (Turn.map_token vocab) tokens st)))
  /\ NoDup (fst (fold_left (Turn.map_token vocab) tokens st)).
Proof.
  induction tokens as [|t tokens IH]; intros st Hs Hn; simpl; [now split|].
  destruct (map_token_inv vocab st t Hs Hn) as [Hs' Hn']. now apply IH.
Qed.

Lemma map_to_concepts_snoc nol tokens token :
  Turn.map_to_concepts nol (tokens ++ [token])
  = Turn.map_to_concepts nol tokens
    ++ match Py.get (vocab nol) token with
       | Some entry =>
           if bool_decide (concept_id entry ∈ Turn.map_to_concepts nol tokens)
           then [] else [concept_id entry]
       | None => []
       end.
Proof.
  unfold Turn.map_to_concepts. rewrite fold_left_app. simpl.
  destruct (map_tokens_inv (vocab nol) tokens ([], ∅)) as [Hs _].
  { intros c. simpl. split; [intros H; now apply not_elem_of_empty in H | tauto]. }
  { constructor. }
  set (st := fold_left (Turn.map_token (vocab nol)) tokens ([], ∅)) in *.
  unfold Turn.map_token. destruct (Py.get (vocab nol) token) as [e|];
    [|now rewrite app_nil_r].
  do 2 case_bool_decide; simpl; try reflexivity; try now rewrite app_nil_r.
  - exfalso. apply H0. apply list_elem_of_In, Hs, H.
  - exfalso. apply H. apply Hs, list_elem_of_In, H0.
Qed.

Lemma map_to_concepts_In nol tokens c :
  In c (Turn.map_to_concepts nol tokens)
  <-> exists token entry,
        In token tokens /\ Py.get (vocab nol) token = Some entry
        /\ concept_id entry = c.
Proof.
  revert c. induction tokens as [|t tokens IH] using rev_ind; intros c.
  - simpl. split; [tauto | intros [t [e [[] _]]]].
  - rewrite map_to_concepts_snoc, in_app_iff, IH. split.
    + intros [[t' [e [Ht [Hg Hc]]]] | H].
      * exists t', e. rewrite in_app_iff. auto.
      * destruct (Py.get (vocab nol) t) as [e|] eqn:E; [|destruct H].
        case_bool_decide; [destruct H|]. destruct H as [<-|[]].
        exists t, e. rewrite in_app_iff. simpl. auto.
    + intros [t' [e [Ht [Hg Hc]]]]. apply in_app_iff in Ht.
      destruct Ht as [Ht|[<-|[]]]; [left; eauto|].
      rewrite Hg. case_bool_decide as Hd; [|right; simpl; auto].
      left. apply IH. rewrite <- Hc. apply list_elem_of_In. exact Hd.
Qed.

(** X19: [map_to_concepts] returns the concept ids of the tokens that the
    vocabulary knows, each id once, in the order of their first
    occurrence: a token adds the id of its entry unless an earlier token
    already produced it, and an unknown token adds nothing. *)
Theorem map_to_concepts_spec (nol : NolData) (tokens : list string) :
  NoDup (Turn.map_to_concepts nol tokens)
  /\ (forall c, In c (Turn.map_to_concepts nol tokens)
                <-> exists token entry,
                      In token tokens /\ Py.get (vocab nol) token = Some entry
                      /\ concept_id entry = c)
  /\ (forall token,
        Turn.map_to_concepts nol (tokens ++ [token])
        = Turn.map_to_concepts nol tokens
          ++ match Py.get (vocab nol) token with
             | Some entry =>
                 if bool_decide (concept_id entry ∈ Turn.map_to_concepts nol tokens)
                 then [] else [concept_id entry]
             | None => []
             end).
Proof.
  split; [|split].
  - unfold Turn.map_to_concepts. apply map_tokens_inv; [|constructor].
    intros c. simpl. split; [intros H; now apply not_elem_of_empty in H | tauto].
  - intros c. apply map_to_concepts_In.
  - intros token. apply map_to_concepts_snoc.
Qed.

(** X29: a turn recognises a concept only through a vocabulary key that is
    a non-empty run of the characters [a-z], [0-9] and the apostrophe.  A key
    that holds anything else (a blank or a hyphen, as in a phrase of two
    words, or an upper-case letter) matches no input at all. *)
Theorem recognised_through_token_keys (lower : string -> string)
    (s : Turn.Session) (input : string) :
  Forall (fun c =>
            exists key entry,
              key <> EmptyString /\ all_chars Text.token_char key = true
              /\ Py.get (vocab (Turn.nol s)) key = Some entry
              /\ concept_id entry = c)
         (recognised lower s input).
Proof.
  apply List.Forall_forall. intros c Hc. unfold recognised in Hc.
  apply map_to_concepts_In in Hc. destruct Hc as [token [entry [Ht [Hg Hc]]]].
  pose proof (findall_from_tokens (lower input) EmptyString eq_refl) as Htok.
  rewrite List.Forall_forall in Htok. destruct (Htok token Ht) as [Hne Hall].
  exists token, entry. auto.
Qed.

Lemma replace_underscore_clean s :
  Text.contains "_" (Text.replace_from "_" " " 0 s) = false.
Proof.
  induction s as [|c s IH]; [reflexivity|].
  cbn [Text.replace_from String.prefix String.length Nat.sub].
  match goal with
  | |- context [Ascii.ascii_dec ?a ?b] => destruct (Ascii.ascii_dec a b) as [E|Hne]
  end.
  - assert (String.prefix "" s = true) as -> by (now destruct s).
    rewrite cat_cons, cat_nil_l. cbn [Text.contains String.prefix].
    match goal with
    | |- context [Ascii.ascii_dec ?a ?b] => destruct (Ascii.ascii_dec a b) as [E'|_]
    end; [discriminate E'|]. exact IH.
  - cbn [Text.contains String.prefix].
    match goal with
    | |- context [Ascii.ascii_dec ?a ?b] => destruct (Ascii.ascii_dec a b) as [E'|_]
    end; [contradiction|]. exact IH.
Qed.

(** X20: the label made up for a concept id that has no label,
    [top.replace("c_", "").replace("_", " ")], never contains an
    underscore. *)
Theorem stripped_has_no_underscore (top : string) :
  Text.contains "_" (Realize.stripped top) = false.
Proof. unfold Realize.stripped, Text.replace. apply replace_underscore_clean. Qed.

Lemma label_fold_get ns :
  forall d n, In n ns ->
  exists n', In n' ns /\ id n' = id n
    /\ Py.get (fold_left (fun d n => Py.set d (id n) (label n)) ns d) (id n)
       = Some (label n').
Proof.
  induction ns as [|x ns IH] using rev_ind; intros d n Hin; [destruct Hin|].
  rewrite fold_left_app. simpl.
  destruct (String.eqb_spec (id x) (id n)) as [E|Hne].
  - exists x. rewrite in_app_iff. simpl. rewrite <- E, get_set_same. auto.
  - apply in_app_iff in Hin. destruct Hin as [Hin|[->|[]]]; [|congruence].
    destruct (IH d n Hin) as [n' [Hn' [Hid Hget]]].
    exists n'. rewrite in_app_iff, get_set_other by exact Hne. auto.
Qed.

Lemma active_ids_In eng top :
  In top (active_ids eng) ->
  exists n, In n (Py.values (nodes (graph eng))) /\ id n = top
            /\ (ACTIVATION_THRESHOLD <? activation n) = true.
Proof.
  unfold active_ids. rewrite in_map_iff. intros [[a i] [Hi Hin]]. simpl in Hi. subst i.
  apply (Permutation_in _ (SortFacts.sort_desc_perm tuple_lt _)) in Hin.
  apply in_map_iff in Hin. destruct Hin as [n [Hn Hin]]. injection Hn as _ Hid.
  apply filter_In in Hin. destruct Hin as [Hin Ha]. eauto.
Qed.

(** X21: the label [plan_response] hands to the template is always the
    label of a node: the first of the active ids when some node is above the
    threshold (the underscore-stripping fallback of the realizer is never
    reached from here), and the word "something" when none is. *)
Theorem plan_response_label (eng : NCEEngine) (nol : NolData) (rule : ResponseRule) :
  Turn.plan_response eng nol rule
  = (intent rule,
     Realize.realize (intent rule) (active_ids eng) nol
                     (Some (Turn.label_map (graph eng))))
  /\ match active_ids eng with
     | [] => Realize.best_label (active_ids eng)
                                (Some (Turn.label_map (graph eng))) = "something"
     | top :: _ =>
         exists n, In n (Py.values (nodes (graph eng))) /\ id n = top
                   /\ Realize.best_label (active_ids eng)
                                         (Some (Turn.label_map (graph eng)))
                      = label n
     end.
Proof.
  split; [reflexivity|].
  destruct (active_ids eng) as [|top rest] eqn:E; [reflexivity|].
  destruct (active_ids_In eng top) as [n [Hin [Hid Ha]]]; [rewrite E; now left|].
  destruct (label_fold_get (Py.values (nodes (graph eng))) [] n Hin)
    as [n' [Hin' [Hid' Hget]]].
  fold (Turn.label_map (graph eng)) in Hget. rewrite Hid in Hget.
  exists n'. split; [exact Hin'|]. split; [congruence|].
  unfold Realize.best_label.
  destruct (Turn.label_map (graph eng)) as [|entry entries]; [discriminate|].
  now rewrite Hget.
Qed.

Lemma replace_absent old new s :
  Text.contains old s = false -> Text.replace_from old new 0 s = s.
Proof.
  induction s as [|c s IH]; intros H; [reflexivity|].
  cbn [Text.contains] in H. apply orb_false_elim in H. destruct H as [Hp Hc].
  cbn [Text.replace_from]. rewrite Hp. now rewrite IH.
Qed.

(** X26: [realize] answers the fallback sentence exactly when the intent
    has no template (no entry, or an empty list); otherwise it answers the
    first template with every [{concept}] replaced by the best label.  The
    test [if "{concept}" in template] changes nothing: a template without
    the placeholder is its own replacement. *)
Theorem realize_first_template (intent : string) (active_concepts : list string)
    (nol : NolData) (concept_labels : option (list (string * string))) :
  Realize.realize intent active_concepts nol concept_labels
  = match Py.get (templates nol) intent with
    | Some (template :: _) =>
        Text.replace "{concept}"
                     (Realize.best_label active_concepts concept_labels) template
    | _ => Realize.FALLBACK
    end.
Proof.
  unfold Realize.realize.
  destruct (Py.get (templates nol) intent) as [[|template rest]|]; try reflexivity.
  destruct (Text.contains "{concept}" template) eqn:E; [reflexivity|].
  unfold Text.replace. now rewrite replace_absent.
Qed.

End TextFacts.

(** ** The whole turn *)

Module TurnFacts.

Import Brain Memory Engine Nol Spec Scenario Shape DictFacts.
Open Scope float_scope.

Lemma run_turn_inv lower s input res s' :
  Turn.run_turn lower s input = Some (res, s') ->
  exists rule tr ep',
    select_response (activate (Turn.engine s) (recognised lower s input) 3 0.8)
                    new_trace = Some (rule, tr)
    /\ store_episode
         (episodic (activate (Turn.engine s) (recognised lower s input) 3 0.8))
         (Turn.turn_count s + 1)
         (list_to_set (recognised lower s input))
         (list_to_set (Turn.above_threshold
            (graph (activate (Turn.engine s) (recognised lower s input) 3 0.8))))
         0.0 = Some ep'
    /\ res = {| Turn.response_text_of :=
                  snd (Turn.plan_response
                         (activate (Turn.engine s) (recognised lower s input) 3 0.8)
                         (Turn.nol s) rule);
                Turn.thought_trace :=
                  {| final_concepts :=
                       Text.sorted (Turn.above_threshold
                         (graph (activate (Turn.engine s)
                                          (recognised lower s input) 3 0.8)));
                     response_intent := response_intent tr |};
                Turn.profiling_data :=
                  profiler (activate (Turn.engine s) (recognised lower s input) 3 0.8) |}
    /\ s' = {| Turn.engine :=
                 {| graph := graph (activate (Turn.engine s)
                                             (recognised lower s input) 3 0.8);
                    stm := add_turn
                             (stm (activate (Turn.engine s)
                                            (recognised lower s input) 3 0.8))
                             (Turn.turn_count s + 1) input
                             (recognised lower s input)
                             (snd (Turn.plan_response
                                     (activate (Turn.engine s)
                                               (recognised lower s input) 3 0.8)
                                     (Turn.nol s) rule));
                    episodic := ep';
                    profiler := profiler (activate (Turn.engine s)
                                                   (recognised lower s input) 3 0.8);
                    modulators := modulators (activate (Turn.engine s)
                                                       (recognised lower s input) 3 0.8) |};
               Turn.nol := Turn.nol s;
               Turn.turn_count := (Turn.turn_count s + 1)%Z |}.
Proof.
  unfold Turn.run_turn. fold (recognised lower s input).
  set (eng := activate (Turn.engine s) (recognised lower s input) 3 0.8).
  clearbody eng.
  destruct (select_response eng new_trace) as [[rule tr]|]; [|discriminate].
  unfold Turn.plan_response. cbv zeta iota beta.
  destruct (store_episode _ _ _ _ _) as [ep'|]; [|discriminate].
  intros H. injection H as <- <-. exists rule, tr, ep'.
  split; [reflexivity|]. split; [reflexivity|]. split; reflexivity.
Qed.

Lemma select_response_intent eng tr rule tr' :
  select_response eng tr = Some (rule, tr') ->
  response_intent tr' = intent rule
  /\ (rule = fallback_rule \/ In rule (responses (graph eng))).
Proof.
  unfold select_response.
  destruct (best_of (graph eng) (responses (graph eng))) as [b|] eqn:E;
    [|discriminate].
  intros H. injection H as <- <-. split; [reflexivity|].
  unfold choose. destruct (snd b) as [r|] eqn:Er; [|now left].
  destruct (fst b <? ACTIVATION_THRESHOLD); [now left|]. right.
  destruct (SelectFacts.best_of_scanned _ _ _ E) as [_ _ Hsome].
  destruct (Hsome r Er) as [_ [j [Hj _]]]. eapply nth_error_In, Hj.
Qed.

Lemma insert_asc_perm x l : Permutation (Text.insert_asc x l) (x :: l).
Proof.
  induction l as [|y l IH]; simpl; [reflexivity|].
  destruct (String.ltb y x); [|reflexivity].
  rewrite IH. apply perm_swap.
Qed.

Lemma sorted_perm l : Permutation (Text.sorted l) l.
Proof.
  induction l as [|x l IH]; simpl; [reflexivity|].
  unfold Text.sorted in IH. now rewrite insert_asc_perm, IH.
Qed.

Lemma insert_asc_sorted x l :
  StronglySorted ascending l -> StronglySorted ascending (Text.insert_asc x l).
Proof.
  induction l as [|y l IH]; intros H; simpl.
  - repeat constructor.
  - inversion H as [|y' l' Hl Hy]; subst.
    destruct (String.ltb y x) eqn:E.
    + constructor; [now apply IH|].
      apply (Permutation_Forall (Permutation_sym (insert_asc_perm x l))).
      constructor; [|exact Hy]. now apply StringOrder.string_ltb_leb.
    + apply StringOrder.string_nltb_leb in E.
      constructor; [exact H|]. constructor; [exact E|].
      eapply List.Forall_impl; [|exact Hy]. intros z Hz.
      eapply StringOrder.string_leb_trans; eassumption.
Qed.

Lemma sorted_sorted l : StronglySorted ascending (Text.sorted l).
Proof.
  induction l as [|x l IH]; simpl; [constructor|].
  now apply insert_asc_sorted.
Qed.

(** X22: what a turn that raises nothing leaves behind.  The turn counter
    is one higher; the graph is the one the activation pass produced, which
    differs from the old one in the current activations only; the new
    short-term memory is the old one after [add_turn] of the turn number, the
    raw input, the recognised concept ids and the response returned; the new
    episodic store is the old one after [store_episode] of the turn number,
    the set of recognised ids as context, the set of reported final concepts
    as outcome and reinforcement 0.0; vocabulary and modulators are not
    touched. *)
Theorem run_turn_records (lower : string -> string) (s s' : Turn.Session)
    (input : string) (res : Turn.TurnResult) :
  Turn.run_turn lower s input = Some (res, s') ->
  Turn.turn_count s' = (Turn.turn_count s + 1)%Z
  /\ Turn.nol s' = Turn.nol s
  /\ graph (Turn.engine s')
     = graph (activate (Turn.engine s) (recognised lower s input) 3 0.8)
  /\ same_structure (graph (Turn.engine s)) (graph (Turn.engine s'))
  /\ modulators (Turn.engine s') = modulators (Turn.engine s)
  /\ stm (Turn.engine s')
     = add_turn (stm (Turn.engine s)) (Turn.turn_count s + 1) input
                (recognised lower s input) (Turn.response_text_of res)
  /\ store_episode (episodic (Turn.engine s)) (Turn.turn_count s + 1)
                   (list_to_set (recognised lower s input))
                   (list_to_set (final_concepts (Turn.thought_trace res))) 0.0
     = Some (episodic (Turn.engine s')).
Proof.
  intros H. apply run_turn_inv in H.
  destruct H as [rule [tr [ep' [Hsel [Hst [-> ->]]]]]].
  pose proof (FrameFacts.activate_structure (Turn.engine s)
                (recognised lower s input) 3 0.8) as Hstruct.
  destruct (FrameFacts.activate_stores (Turn.engine s) (recognised lower s input)
              3 0.8) as [Hstm [Hep Hmod]].
  set (eng := activate (Turn.engine s) (recognised lower s input) 3 0.8) in *.
  clearbody eng. cbn [Turn.turn_count Turn.nol Turn.engine graph modulators stm
                      episodic Turn.response_text_of Turn.thought_trace
                      final_concepts].
  rewrite Hstm, Hmod, Hep.
  split; [reflexivity|]. split; [reflexivity|]. split; [reflexivity|].
  split; [exact Hstruct|]. split; [reflexivity|]. split; [reflexivity|].
  rewrite <- Hst. f_equal. apply list_to_set_perm_L, sorted_perm.
Qed.

Lemma run_turn_records_witness :
  exists res s',
    Turn.run_turn Turn.ascii_lower Dialogue.hello_session "Hi there, HELLO!"
    = Some (res, s')
    /\ Turn.turn_count s' = 1%Z
    /\ stm (Turn.engine s')
       = add_turn (new_stm 5) 1 "Hi there, HELLO!" ["hello"] "Hello about hello!"
    /\ store_episode (new_episodic 100) 1 {["hello"]} {["greeting"; "hello"]} 0.0
       = Some (episodic (Turn.engine s')).
Proof.
  eexists. eexists.
  split; [vm_compute; reflexivity|].
  pose proof (run_turn_records Turn.ascii_lower Dialogue.hello_session _
                "Hi there, HELLO!" _ ltac:(vm_compute; reflexivity)) as H.
  destruct H as [H1 [_ [_ [_ [_ [H6 H7]]]]]].
  split; [exact H1|]. split; [exact H6|]. exact H7.
Defined.

(** X23: what a turn that raises nothing reports.  The final concepts are
    the ids of the nodes above the threshold after the activation pass, in
    ascending order; the intent is the one of a response rule of the graph
    or the fallback's "unknown"; the response text is the realisation of
    that intent over the active ids and the node labels; and the counters
    are those of the engine after the turn. *)
Theorem run_turn_reports (lower : string -> string) (s s' : Turn.Session)
    (input : string) (res : Turn.TurnResult) :
  Turn.run_turn lower s input = Some (res, s') ->
  StronglySorted ascending (final_concepts (Turn.thought_trace res))
  /\ Permutation (final_concepts (Turn.thought_trace res))
                 (Turn.above_threshold (graph (Turn.engine s')))
  /\ (response_intent (Turn.thought_trace res) = "unknown"
      \/ exists r, In r (responses (graph (Turn.engine s)))
                   /\ intent r = response_intent (Turn.thought_trace res))
  /\ Turn.response_text_of res
     = Realize.realize (response_intent (Turn.thought_trace res))
                       (active_ids (Turn.engine s')) (Turn.nol s)
                       (Some (Turn.label_map (graph (Turn.engine s'))))
  /\ Turn.profiling_data res = profiler (Turn.engine s').
Proof.
  intros H. apply run_turn_inv in H.
  destruct H as [rule [tr [ep' [Hsel [Hst [-> ->]]]]]].
  pose proof (FrameFacts.activate_structure (Turn.engine s)
                (recognised lower s input) 3 0.8) as [_ [_ [_ Hresp]]].
  set (eng := activate (Turn.engine s) (recognised lower s input) 3 0.8) in *.
  clearbody eng.
  destruct (select_response_intent _ _ _ _ Hsel) as [Hint Hrule].
  cbn [Turn.engine graph Turn.response_text_of Turn.thought_trace
       final_concepts response_intent Turn.profiling_data profiler].
  split; [apply sorted_sorted|]. split; [apply sorted_perm|].
  split; [|split; [|reflexivity]].
  - rewrite Hint. destruct Hrule as [->|Hin]; [now left|].
    right. exists rule. rewrite Hresp. now split.
  - rewrite Hint. reflexivity.
Qed.

Lemma run_turn_reports_witness :
  exists res s',
    Turn.run_turn Turn.ascii_lower Dialogue.hello_session "Hi there, HELLO!"
    = Some (res, s')
    /\ StronglySorted ascending (final_concepts (Turn.thought_trace res))
    /\ Turn.profiling_data res = profiler (Turn.engine s').
Proof.
  eexists. eexists.
  split; [vm_compute; reflexivity|].
  pose proof (run_turn_reports Turn.ascii_lower Dialogue.hello_session _
                "Hi there, HELLO!" _ ltac:(vm_compute; reflexivity)) as H.
  destruct H as [H1 [_ [_ [_ H5]]]].
  split; [exact H1 | exact H5].
Defined.

Lemma best_of_none_iff g l :
  best_of g l = None <-> exists r, In r l /\ rule_score g r = None.
Proof.
  induction l as [|r l IH] using rev_ind.
  - split; [discriminate | intros [r [[] _]]].
  - rewrite SelectFacts.best_of_snoc. split.
    + destruct (best_of g l) as [[b br]|] eqn:E.
      * simpl. destruct (rule_score g r) eqn:Er.
        -- destruct (b <? f); discriminate.
        -- intros _. exists r. rewrite in_app_iff. simpl. auto.
      * intros _. destruct IH as [IH _]. destruct (IH eq_refl) as [r' [Hr' Hs]].
        exists r'. rewrite in_app_iff. auto.
    + intros [r' [Hr' Hs]]. apply in_app_iff in Hr'.
      destruct Hr' as [Hr'|[<-|[]]].
      * destruct IH as [_ IH]. rewrite IH by eauto. reflexivity.
      * destruct (best_of g l) as [[b br]|]; [|reflexivity].
        simpl. now rewrite Hs.
Qed.

Lemma rule_score_none g r :
  rule_score g r = None <-> Py.int_to_float (priority r) = None.
Proof.
  unfold rule_score. destruct (Py.int_to_float (priority r)); split; congruence.
Qed.

(** X24: a turn raises exactly in two cases: some response rule of the
    graph has a priority too large to convert to a float (the
    [OverflowError] of scoring), or the episodic store was built with a
    capacity below 1 and is empty (the [IndexError] of [pop(0)]).  Neither
    depends on the input text. *)
Theorem run_turn_raises_iff (lower : string -> string) (s : Turn.Session)
    (input : string) :
  Turn.run_turn lower s input = None
  <-> (exists r, In r (responses (graph (Turn.engine s)))
                 /\ Py.int_to_float (priority r) = None)
      \/ ((max_episodes (episodic (Turn.engine s)) <= 0)%Z
          /\ episodes (episodic (Turn.engine s)) = []).
Proof.
  unfold Turn.run_turn. fold (recognised lower s input).
  pose proof (FrameFacts.activate_structure (Turn.engine s)
                (recognised lower s input) 3 0.8) as [_ [_ [_ Hresp]]].
  destruct (FrameFacts.activate_stores (Turn.engine s) (recognised lower s input)
              3 0.8) as [_ [Hep _]].
  set (eng := activate (Turn.engine s) (recognised lower s input) 3 0.8) in *.
  clearbody eng. rewrite Hresp, Hep.
  assert (select_response eng new_trace = None
          <-> exists r, In r (responses (graph eng))
                        /\ Py.int_to_float (priority r) = None) as Hsel.
  { unfold select_response.
    destruct (best_of (graph eng) (responses (graph eng))) as [b|] eqn:E.
    - split; [discriminate|]. intros [r [Hr Hp]].
      assert (best_of (graph eng) (responses (graph eng)) = None) as E'.
      { apply best_of_none_iff. exists r. split; [exact Hr|].
        exact (proj2 (rule_score_none _ _) Hp). }
      congruence.
    - split; [|reflexivity]. intros _. apply best_of_none_iff in E.
      destruct E as [r [Hr Hs]]. exists r. split; [exact Hr|].
      exact (proj1 (rule_score_none _ _) Hs). }
  destruct (select_response eng new_trace) as [[rule tr]|].
  - unfold Turn.plan_response. cbv zeta iota beta.
    unfold store_episode.
    destruct (max_episodes (episodic eng) <=? Z.of_nat (length (episodes (episodic eng))))%Z
      eqn:Em.
    + destruct (episodes (episodic eng)) as [|e0 rest] eqn:Ee.
      * split; [|reflexivity]. intros _. right. simpl in Em.
        apply Z.leb_le in Em. now split.
      * split; [discriminate|]. intros [Hr|[_ Hnil]]; [|discriminate].
        destruct Hsel as [_ Hsel]. specialize (Hsel Hr). discriminate.
    + split; [discriminate|]. intros [Hr|[Hmax Hnil]].
      * destruct Hsel as [_ Hsel]. specialize (Hsel Hr). discriminate.
      * rewrite Hnil in Em. simpl in Em. apply Z.leb_gt in Em. lia.
  - split; [|reflexivity]. intros _. left. now apply Hsel.
Qed.

Lemma add_turn_last m t i c r :
  (1 <= capacity m)%nat ->
  In {| turn_number := t; input_text := i; active_concepts := c;
        response_text := r |} (buffer (add_turn m t i c r)).
Proof.
  intros Hcap. unfold add_turn. simpl.
  destruct (capacity m <? length (buffer m ++ [_]))%nat eqn:E;
    [|apply in_or_app; right; now left].
  destruct (buffer m) as [|x b]; simpl in *.
  - apply Nat.ltb_lt in E. lia.
  - apply in_or_app. right. now left.
Qed.

(** X25: with a short-term memory of capacity at least 1, every concept id
    a turn recognises is among the primed concepts of the memory the turn
    leaves behind, whatever the buffer held before: the next turn primes
    it. *)
Theorem run_turn_primes_next (lower : string -> string) (s s' : Turn.Session)
    (input : string) (res : Turn.TurnResult) (c : string) :
  Turn.run_turn lower s input = Some (res, s') ->
  (1 <= capacity (stm (Turn.engine s)))%nat ->
  In c (recognised lower s input) ->
  c ∈ get_primed_concepts (stm (Turn.engine s')).
Proof.
  intros H Hcap Hc. apply run_turn_inv in H.
  destruct H as [rule [tr [ep' [_ [_ [_ ->]]]]]].
  destruct (FrameFacts.activate_stores (Turn.engine s) (recognised lower s input)
              3 0.8) as [Hstm _].
  set (eng := activate (Turn.engine s) (recognised lower s input) 3 0.8) in *.
  clearbody eng. cbn [Turn.engine stm]. rewrite <- Hstm.
  unfold get_primed_concepts. apply StoreFacts.primed_fold. right.
  eexists. split; [apply add_turn_last; exact Hcap|]. exact Hc.
Qed.

Lemma run_turn_primes_next_witness :
  exists res s',
    Turn.run_turn Turn.ascii_lower Dialogue.hello_session "Hi there, HELLO!"
    = Some (res, s')
    /\ (1 <= capacity (stm (Turn.engine Dialogue.hello_session)))%nat
    /\ In "hello" (recognised Turn.ascii_lower Dialogue.hello_session
                              "Hi there, HELLO!")
    /\ "hello" ∈ get_primed_concepts (stm (Turn.engine s')).
Proof.
  eexists. eexists.
  split; [vm_compute; reflexivity|].
  assert (1 <= capacity (stm (Turn.engine Dialogue.hello_session)))%nat as Hcap
    by (vm_compute; lia).
  assert (In "hello" (recognised Turn.ascii_lower Dialogue.hello_session
                                 "Hi there, HELLO!")) as Hin
    by (vm_compute; auto).
  split; [exact Hcap|]. split; [exact Hin|].
  exact (run_turn_primes_next Turn.ascii_lower Dialogue.hello_session _
           "Hi there, HELLO!" _ "hello" ltac:(vm_compute; reflexivity) Hcap Hin).
Defined.

End TurnFacts.

(** ** Similarity and the size of a recall *)

Module RecallFacts.

Import Brain Memory Engine Spec Scenario Shape.
Open Scope float_scope.

Lemma len_div_zero (b : nat) :
  (0 < Z.of_nat b)%Z -> (Z.of_nat b < 2 ^ 53)%Z -> Py.len_div 0 b = 0.0.
Proof.
  intros Hb0 Hb. rewrite <- (SF2Prim_Prim2SF (Py.len_div 0 b)).
  unfold Py.len_div. rewrite div_spec.
  destruct (Z.of_nat b) as [|pb|pb] eqn:Eb; try lia.
  destruct (ConvFacts.binary_normalize_small pb Hb) as [mb [eb [Hnb Hvb]]].
  rewrite Hnb, (Prim2SF_SF2Prim _ Hvb). reflexivity.
Qed.

(** X27: an episode whose context shares no concept with the query has
    similarity exactly 0.0, also when both sets are empty. *)
Theorem jaccard_disjoint_zero (q : gset string) (ep : Episode) :
  q ∩ context_concepts ep = ∅ ->
  (Z.of_nat (size (q ∪ context_concepts ep)) < 2 ^ 53)%Z ->
  jaccard q ep = 0.0.
Proof.
  intros Hd Hsmall. unfold jaccard.
  destruct (bool_decide (q ∪ context_concepts ep = ∅)) eqn:Hu; [reflexivity|].
  apply bool_decide_eq_false_1 in Hu.
  rewrite Hd, size_empty. apply len_div_zero; [|exact Hsmall].
  assert (size (q ∪ context_concepts ep) <> 0)%nat as Hpos.
  { intros H0. apply Hu. apply leibniz_equiv. now apply size_empty_inv. }
  lia.
Qed.

Lemma jaccard_disjoint_zero_witness :
  let ep := {| turn := 1; context_concepts := {["b"; "c"]};
               outcome_concepts := ∅; reinforcement := 0.0 |} in
  {["a"]} ∩ context_concepts ep = (∅ : gset string)
  /\ (Z.of_nat (size ({["a"]} ∪ context_concepts ep)) < 2 ^ 53)%Z
  /\ jaccard {["a"]} ep = 0.0.
Proof.
  intros ep.
  assert ({["a"]} ∩ context_concepts ep = (∅ : gset string)) as Hd
    by (vm_compute; reflexivity).
  assert (Z.of_nat (size ({["a"]} ∪ context_concepts ep)) < 2 ^ 53)%Z as Hs
    by (vm_compute; reflexivity).
  split; [exact Hd|]. split; [exact Hs|].
  exact (jaccard_disjoint_zero {["a"]} ep Hd Hs).
Defined.

(** X28: for a non-empty query and a non-negative [top_k],
    [recall_similar] returns exactly [min(top_k, number of stored episodes)]
    episodes: an episode is never left out for a low similarity, not even
    for a similarity of 0. *)
Theorem recall_similar_count (m : EpisodicMemory) (q : gset string) (top_k : Z) :
  q <> ∅ -> (0 <= top_k)%Z ->
  length (fst (recall_similar m q top_k))
  = Z.to_nat (Z.min top_k (Z.of_nat (length (episodes m)))).
Proof.
  intros Hq Hk. unfold recall_similar.
  rewrite (bool_decide_eq_false_2 _ Hq). simpl orb.
  case_bool_decide as He.
  - rewrite He. simpl. lia.
  - cbn [fst]. rewrite length_map. unfold Py.slice_to.
    destruct (top_k <? 0)%Z eqn:E; [apply Z.ltb_lt in E; lia|].
    rewrite length_firstn.
    rewrite (Permutation_length (SortFacts.sort_desc_perm key_lt _)), length_map.
    lia.
Qed.

Lemma recall_similar_count_witness :
  ({["z"]} : gset string) <> ∅ /\ (0 <= 5)%Z
  /\ length (fst (recall_similar abc_then_ab {["z"]} 5)) = 2%nat.
Proof.
  assert (({["z"]} : gset string) <> ∅) as Hq by (vm_compute; discriminate).
  assert (0 <= 5)%Z as Hk by lia.
  split; [exact Hq|]. split; [exact Hk|].
  exact (recall_similar_count abc_then_ab {["z"]} 5 Hq Hk).
Defined.

End RecallFacts.
